(** * LightBulbPower: a shallow embedding of LBPP.py

    The tile tables, the [Tile] class, the game logic of [PuzzleGame]
    (neighbour arithmetic, the connectivity finalizer, the power-flow
    solver, the click handler, the generator with its source placement,
    growth loop, repair rounds and scramble) and the event loop of [main]
    are transcribed from [LBPP.py].  Rendering code is left out.  The two
    draws of the growth loop that go through floating point are
    parameters of the generator.

    Python integers are [Z]; Python lists are [list] indexed with Python's
    rule for negative indices; exceptions are an explicit result type;
    the mutable grid is threaded through the operations; the module-level
    random source is an explicit stream of raw draws. *)

From stdpp Require Import base list gmap.
From Stdlib Require Import ZArith Lia.

#[local] Set Warnings "-clear-no-such-hyp".

Local Open Scope Z_scope.

(** ** Results of fallible code *)

Inductive exn : Set := IndexError | ValueError.

(** [OutOfFuel] is not a Python outcome: it marks a model run whose loop
    budget was too small. *)
Inductive res (A : Type) : Type :=
| Ok (a : A)
| Raise (e : exn)
| OutOfFuel.

Arguments Ok {A} a.
Arguments Raise {A} e.
Arguments OutOfFuel {A}.

Global Instance res_ret : MRet res := fun A a => Ok a.
Global Instance res_bind : MBind res := fun A B f m =>
  match m with
  | Ok a => f a
  | Raise e => Raise e
  | OutOfFuel => OutOfFuel
  end.

Fixpoint foldM {A S : Type} (f : S -> A -> res S) (s : S) (l : list A) : res S :=
  match l with
  | [] => Ok s
  | a :: l' => s' ← f s a; foldM f s' l'
  end.

Fixpoint mapM_res {A B : Type} (f : A -> res B) (l : list A) : res (list B) :=
  match l with
  | [] => Ok []
  | a :: l' => b ← f a; bs ← mapM_res f l'; Ok (b :: bs)
  end.

(** ** Python list indexing *)

(** [l[i]]: a negative index counts from the end; anything outside
    [-len, len) raises [IndexError]. *)
Definition py_index (n : nat) (i : Z) : res nat :=
  if bool_decide (0 ≤ i < Z.of_nat n) then Ok (Z.to_nat i)
  else if bool_decide (- Z.of_nat n ≤ i < 0) then Ok (Z.to_nat (Z.of_nat n + i))
  else Raise IndexError.

Definition py_get {A : Type} (l : list A) (i : Z) : res A :=
  k ← py_index (length l) i;
  match l !! k with
  | Some a => Ok a
  | None => Raise IndexError
  end.

(** [range(n)] *)
Definition range (n : Z) : list Z := Z.of_nat <$> seq 0 (Z.to_nat n).

(** ** Enumerations and tables *)

Inductive TileType : Set :=
| EMPTY | STRAIGHT | ELBOW | T_JUNCTION | CROSS | POWER_SOURCE | LIGHT_BULB.

Inductive Direction : Set := UP | RIGHT | DOWN | LEFT.

Global Instance TileType_eq_dec : EqDecision TileType.
Proof. solve_decision. Defined.

Global Instance Direction_eq_dec : EqDecision Direction.
Proof. solve_decision. Defined.

(** [d.value] *)
Definition Direction_value (d : Direction) : Z :=
  match d with UP => 0 | RIGHT => 1 | DOWN => 2 | LEFT => 3 end.

(** [Direction(v)]: the enum lookup by value, [ValueError] otherwise. *)
Definition Direction_of_value (v : Z) : res Direction :=
  match v with
  | 0 => Ok UP
  | 1 => Ok RIGHT
  | 2 => Ok DOWN
  | 3 => Ok LEFT
  | _ => Raise ValueError
  end.

(** [for direction in Direction] iterates in definition order. *)
Definition all_directions : list Direction := [UP; RIGHT; DOWN; LEFT].

Definition ROTATIONS (t : TileType) : Z :=
  match t with
  | STRAIGHT => 2
  | ELBOW => 4
  | T_JUNCTION => 4
  | CROSS => 1
  | POWER_SOURCE => 4
  | LIGHT_BULB => 4
  | EMPTY => 1
  end.

Definition POWER_SOURCE_CONNECTIONS : list (list Direction) :=
  [ [RIGHT];
    [DOWN];
    [LEFT];
    [UP];
    [RIGHT; DOWN];
    [DOWN; LEFT];
    [LEFT; UP];
    [UP; RIGHT];
    [RIGHT; DOWN; LEFT];
    [UP; DOWN; LEFT];
    [UP; RIGHT; LEFT];
    [UP; RIGHT; DOWN];
    [UP; RIGHT; DOWN; LEFT] ].

Definition CONNECTION_MAPS (t : TileType) : list (list Direction) :=
  match t with
  | EMPTY => [ [] ]
  | STRAIGHT => [ [UP; DOWN]; [LEFT; RIGHT] ]
  | ELBOW => [ [DOWN; RIGHT]; [LEFT; DOWN]; [UP; LEFT]; [UP; RIGHT] ]
  | T_JUNCTION =>
      [ [LEFT; RIGHT; DOWN]; [UP; DOWN; LEFT]; [LEFT; RIGHT; UP]; [UP; DOWN; RIGHT] ]
  | CROSS => [ [UP; RIGHT; DOWN; LEFT] ]
  | POWER_SOURCE => [ [RIGHT]; [DOWN]; [LEFT]; [UP] ]
  | LIGHT_BULB => [ [UP]; [RIGHT]; [DOWN]; [LEFT] ]
  end.

(** ** Tile *)

Record Tile : Set := mkTile {
  tile_type : TileType;
  max_rotation : Z;
  rotation : Z;
  is_powered : bool;
  used_in_solution : bool;
  power_connection_pattern : option Z
}.

Definition set_tile_type (v : TileType) (t : Tile) : Tile :=
  mkTile v (max_rotation t) (rotation t) (is_powered t) (used_in_solution t)
         (power_connection_pattern t).
Definition set_max_rotation (v : Z) (t : Tile) : Tile :=
  mkTile (tile_type t) v (rotation t) (is_powered t) (used_in_solution t)
         (power_connection_pattern t).
Definition set_rotation (v : Z) (t : Tile) : Tile :=
  mkTile (tile_type t) (max_rotation t) v (is_powered t) (used_in_solution t)
         (power_connection_pattern t).
Definition set_is_powered (v : bool) (t : Tile) : Tile :=
  mkTile (tile_type t) (max_rotation t) (rotation t) v (used_in_solution t)
         (power_connection_pattern t).
Definition set_used_in_solution (v : bool) (t : Tile) : Tile :=
  mkTile (tile_type t) (max_rotation t) (rotation t) (is_powered t) v
         (power_connection_pattern t).
Definition set_power_connection_pattern (v : option Z) (t : Tile) : Tile :=
  mkTile (tile_type t) (max_rotation t) (rotation t) (is_powered t)
         (used_in_solution t) v.

(** [Tile.__init__], with the value drawn by [random.randint(0, 12)] for a
    power source passed in as [pattern]. *)
Definition Tile_make (tt : TileType) (rot : Z) (pattern : option Z) : Tile :=
  {| tile_type := tt;
     max_rotation := ROTATIONS tt;
     rotation := rot mod ROTATIONS tt;
     is_powered := bool_decide (tt = POWER_SOURCE);
     used_in_solution := false;
     power_connection_pattern := pattern |}.

(** [Tile.rotate]: the mutated tile and the returned flag. *)
Definition rotate (t : Tile) : Tile * bool :=
  if bool_decide (max_rotation t > 1)
  then (set_rotation ((rotation t + 1) mod max_rotation t) t, true)
  else (t, false).

(** [Tile.get_connections] *)
Definition get_connections (t : Tile) : res (list Direction) :=
  match bool_decide (tile_type t = POWER_SOURCE), power_connection_pattern t with
  | true, Some p =>
      base_directions ← py_get POWER_SOURCE_CONNECTIONS p;
      mapM_res (fun d => Direction_of_value ((Direction_value d + rotation t) mod 4))
               base_directions
  | _, _ => py_get (CONNECTION_MAPS (tile_type t)) (rotation t)
  end.

(** [Tile.is_connected_to] *)
Definition is_connected_to (t : Tile) (direction : Direction) : res bool :=
  cs ← get_connections t; Ok (bool_decide (direction ∈ cs)).

(** [n] calls of [rotate] in a row. *)
Fixpoint rotate_n (n : nat) (t : Tile) : Tile :=
  match n with
  | O => t
  | S n' => rotate_n n' (fst (rotate t))
  end.

(** The data-model invariant of a tile. *)
Definition tile_inv (t : Tile) : Prop :=
  max_rotation t = ROTATIONS (tile_type t) ∧
  0 ≤ rotation t < ROTATIONS (tile_type t).

(** ** PuzzleGame *)

Definition TILE_SIZE : Z := 60.

Definition pos : Type := Z * Z.

Record PuzzleGame : Type := mkGame {
  width : Z;
  height : Z;
  grid : list (list Tile);
  power_sources : list pos;
  bulbs : list pos;
  is_solved : bool
}.

Definition set_grid (g : list (list Tile)) (s : PuzzleGame) : PuzzleGame :=
  mkGame (width s) (height s) g (power_sources s) (bulbs s) (is_solved s).
Definition set_power_sources (v : list pos) (s : PuzzleGame) : PuzzleGame :=
  mkGame (width s) (height s) (grid s) v (bulbs s) (is_solved s).
Definition set_bulbs (v : list pos) (s : PuzzleGame) : PuzzleGame :=
  mkGame (width s) (height s) (grid s) (power_sources s) v (is_solved s).
Definition set_is_solved (v : bool) (s : PuzzleGame) : PuzzleGame :=
  mkGame (width s) (height s) (grid s) (power_sources s) (bulbs s) v.

(** [self.grid[y][x]] *)
Definition grid_get (g : list (list Tile)) (x y : Z) : res Tile :=
  row ← py_get g y; py_get row x.

(** An in-place change of the tile object [self.grid[y][x]]. *)
Definition grid_modify (f : Tile -> Tile) (g : list (list Tile)) (x y : Z)
  : res (list (list Tile)) :=
  j ← py_index (length g) y;
  match g !! j with
  | None => Raise IndexError
  | Some row =>
      i ← py_index (length row) x;
      match row !! i with
      | None => Raise IndexError
      | Some t => Ok (<[j := <[i := f t]> row]> g)
      end
  end.

(** [self.grid[y][x] = t] *)
Definition grid_set (t : Tile) (g : list (list Tile)) (x y : Z)
  : res (list (list Tile)) :=
  grid_modify (fun _ => t) g x y.

(** The cells in the order of
    [for y in range(height): for x in range(width)]. *)
Definition cells (w h : Z) : list pos :=
  flat_map (fun y => (fun x => (x, y)) <$> range w) (range h).

(** [PuzzleGame.__init__] (the grid and the lists). *)
Definition PuzzleGame_init (w h : Z) : PuzzleGame :=
  {| width := w;
     height := h;
     grid := (fun _ => (fun _ => Tile_make EMPTY 0 None) <$> range w) <$> range h;
     power_sources := [];
     bulbs := [];
     is_solved := false |}.

Definition is_valid_position (s : PuzzleGame) (x y : Z) : bool :=
  bool_decide (0 ≤ x < width s) && bool_decide (0 ≤ y < height s).

Definition get_neighbor_position (x y : Z) (direction : Direction) : pos :=
  match direction with
  | UP => (x, y - 1)
  | RIGHT => (x + 1, y)
  | DOWN => (x, y + 1)
  | LEFT => (x - 1, y)
  end.

Definition get_opposite_direction (direction : Direction) : Direction :=
  match direction with
  | UP => DOWN
  | RIGHT => LEFT
  | DOWN => UP
  | LEFT => RIGHT
  end.

(** [all(f(a) for a in l)]: stops at the first false element.  The same
    shape is a loop whose body does [return False] and which is followed
    by [return True]. *)
Fixpoint all_res {A : Type} (f : A -> res bool) (l : list A) : res bool :=
  match l with
  | [] => Ok true
  | a :: l' => b ← f a; if (b : bool) then all_res f l' else Ok false
  end.

(** *** The connectivity finalizer *)

(** The first loop of [fix_pipe_connections]: the list [neighbors]. *)
Definition connecting_step (s : PuzzleGame) (x y : Z)
    (neighbors : list Direction) (direction : Direction) : res (list Direction) :=
  let '(nx, ny) := get_neighbor_position x y direction in
  if is_valid_position s nx ny then
    neighbor ← grid_get (grid s) nx ny;
    let opposite_dir := get_opposite_direction direction in
    if bool_decide (tile_type neighbor ≠ EMPTY) then
      c ← is_connected_to neighbor opposite_dir;
      if (c : bool) then Ok (neighbors ++ [direction]) else Ok neighbors
    else Ok neighbors
  else Ok neighbors.

Definition connecting_neighbors (s : PuzzleGame) (x y : Z) : res (list Direction) :=
  foldM (connecting_step s x y) [] all_directions.

Definition has (d : Direction) (neighbors : list Direction) : bool :=
  bool_decide (d ∈ neighbors).

(** The rest of [fix_pipe_connections]: the rewrite of the tile from
    [neighbors]. *)
Definition reshape_tile (neighbors : list Direction) (tile : Tile) : Tile :=
  match neighbors with
  | [] => set_tile_type EMPTY tile
  | direction :: _ =>
      let num_connections := Z.of_nat (length neighbors) in
      if bool_decide (num_connections = 1) then
        let tile := set_tile_type LIGHT_BULB tile in
        let tile := set_max_rotation (ROTATIONS (tile_type tile)) tile in
        match direction with
        | UP => set_rotation 0 tile
        | RIGHT => set_rotation 1 tile
        | DOWN => set_rotation 2 tile
        | LEFT => set_rotation 3 tile
        end
      else if bool_decide (num_connections = 2) then
        let tile :=
          set_tile_type
            (if (has UP neighbors && has DOWN neighbors)
                || (has LEFT neighbors && has RIGHT neighbors)
             then STRAIGHT else ELBOW) tile in
        let tile := set_max_rotation (ROTATIONS (tile_type tile)) tile in
        if bool_decide (tile_type tile = STRAIGHT) then
          set_rotation (if has UP neighbors then 0 else 1) tile
        else
          if has DOWN neighbors && has RIGHT neighbors then set_rotation 0 tile
          else if has LEFT neighbors && has DOWN neighbors then set_rotation 1 tile
          else if has UP neighbors && has LEFT neighbors then set_rotation 2 tile
          else if has UP neighbors && has RIGHT neighbors then set_rotation 3 tile
          else tile
      else if bool_decide (num_connections = 3) then
        let tile := set_tile_type T_JUNCTION tile in
        let tile := set_max_rotation (ROTATIONS (tile_type tile)) tile in
        if has LEFT neighbors && has RIGHT neighbors && has DOWN neighbors
        then set_rotation 0 tile
        else if has UP neighbors && has DOWN neighbors && has LEFT neighbors
        then set_rotation 1 tile
        else if has LEFT neighbors && has RIGHT neighbors && has UP neighbors
        then set_rotation 2 tile
        else if has UP neighbors && has DOWN neighbors && has RIGHT neighbors
        then set_rotation 3 tile
        else tile
      else
        let tile := set_tile_type CROSS tile in
        let tile := set_max_rotation (ROTATIONS (tile_type tile)) tile in
        set_rotation 0 tile
  end.

Definition fix_pipe_connections (s : PuzzleGame) (x y : Z) : res PuzzleGame :=
  tile ← grid_get (grid s) x y;
  neighbors ← connecting_neighbors s x y;
  g ← grid_set (reshape_tile neighbors tile) (grid s) x y;
  Ok (set_grid g s).

Definition finalize_puzzle (s : PuzzleGame) : res PuzzleGame :=
  foldM (fun s '(x, y) =>
           tile ← grid_get (grid s) x y;
           if bool_decide (tile_type tile ∉ [POWER_SOURCE; LIGHT_BULB; EMPTY])
           then fix_pipe_connections s x y
           else Ok s)
        s (cells (width s) (height s)).

(** *** The power-flow solver *)

(** The reset loop at the head of [update_power_flow], for one cell. *)
Definition reset_cell (g : list (list Tile)) (c : pos) : res (list (list Tile)) :=
  let '(x, y) := c in
  tile ← grid_get g x y;
  g ← (if bool_decide (tile_type tile ≠ POWER_SOURCE)
       then grid_modify (set_is_powered false) g x y
       else Ok g);
  grid_modify (set_used_in_solution false) g x y.

(** The body of [for direction in current_tile.get_connections()]: it
    updates [queue] and [visited]. *)
Definition flow_step (s : PuzzleGame) (x y : Z)
    (qv : list pos * gset pos) (direction : Direction) : res (list pos * gset pos) :=
  let '(queue, visited) := qv in
  let '(nx, ny) := get_neighbor_position x y direction in
  if negb (is_valid_position s nx ny) || bool_decide ((nx, ny) ∈ visited) then Ok qv
  else
    neighbor_tile ← grid_get (grid s) nx ny;
    let opposite_dir := get_opposite_direction direction in
    c ← is_connected_to neighbor_tile opposite_dir;
    if (c : bool) then Ok (queue ++ [(nx, ny)], visited ∪ {[ (nx, ny) ]})
    else Ok qv.

(** [while queue: ...], run for at most [fuel] pops. *)
Fixpoint flow_loop (fuel : nat) (s : PuzzleGame) (queue : list pos)
    (visited : gset pos) {struct fuel} : res (PuzzleGame * gset pos) :=
  match queue with
  | [] => Ok (s, visited)
  | (x, y) :: queue =>
      match fuel with
      | O => OutOfFuel
      | S fuel =>
          current_tile ← grid_get (grid s) x y;
          g ← grid_modify (set_is_powered true) (grid s) x y;
          g ← grid_modify (set_used_in_solution true) g x y;
          let s := set_grid g s in
          connections ← get_connections current_tile;
          qv ← foldM (flow_step s x y) (queue, visited) connections;
          flow_loop fuel s (fst qv) (snd qv)
      end
  end.

(** The body of [for source_x, source_y in self.power_sources]. *)
Definition flow_from_source (fuel : nat) (sv : PuzzleGame * gset pos)
    (source : pos) : res (PuzzleGame * gset pos) :=
  let '(s, visited) := sv in
  flow_loop fuel s [source] (visited ∪ {[ source ]}).

Definition check_direction (s : PuzzleGame) (x y : Z) (direction : Direction)
  : res bool :=
  let '(nx, ny) := get_neighbor_position x y direction in
  if negb (is_valid_position s nx ny) then Ok false
  else
    neighbor ← grid_get (grid s) nx ny;
    let opposite_dir := get_opposite_direction direction in
    if bool_decide (tile_type neighbor = EMPTY) then Ok false
    else
      c ← is_connected_to neighbor opposite_dir;
      Ok (c : bool).

Definition check_cell (s : PuzzleGame) (c : pos) : res bool :=
  let '(x, y) := c in
  tile ← grid_get (grid s) x y;
  if is_powered tile then
    connections ← get_connections tile;
    all_res (check_direction s x y) connections
  else Ok true.

(** [PuzzleGame.check_no_leaks] *)
Definition check_no_leaks (s : PuzzleGame) : res bool :=
  all_res (check_cell s) (cells (width s) (height s)).

(** [PuzzleGame.update_power_flow]: the new state and the returned flag.
    [fuel] bounds the pops of each [while queue] loop. *)
Definition update_power_flow (fuel : nat) (s : PuzzleGame) : res (PuzzleGame * bool) :=
  g ← foldM reset_cell (grid s) (cells (width s) (height s));
  let s := set_grid g s in
  sv ← foldM (flow_from_source fuel) (s, ∅) (power_sources s);
  let s := fst sv in
  all_bulbs_lit ←
    all_res (fun '(x, y) => tile ← grid_get (grid s) x y; Ok (is_powered tile))
            (bulbs s);
  all_pipes_used ←
    all_res (fun '(x, y) =>
               tile ← grid_get (grid s) x y;
               Ok (used_in_solution tile || bool_decide (tile_type tile = EMPTY)))
            (cells (width s) (height s));
  no_leaks ← check_no_leaks s;
  let s := set_is_solved (all_bulbs_lit && all_pipes_used && no_leaks) s in
  Ok (s, is_solved s).

(** *** The click handler *)

(** [PuzzleGame.handle_click]: the new state and the value returned to
    the caller; every path of the Python function returns [None]. *)
Definition handle_click (fuel : nat) (s : PuzzleGame) (p : pos)
  : res (PuzzleGame * option bool) :=
  let x := fst p `div` TILE_SIZE in
  let y := snd p `div` TILE_SIZE in
  if negb (is_valid_position s x y) then Ok (s, None)
  else
    tile ← grid_get (grid s) x y;
    let '(tile, rotated) := rotate tile in
    g ← grid_set tile (grid s) x y;
    let s := set_grid g s in
    if (rotated : bool) then
      sb ← update_power_flow fuel s;
      Ok (fst sb, None)
    else Ok (s, None).

(** ** The random source and the generator's first phase *)

(** Python's module-level generator, as a stream of raw draws and a
    cursor into it. *)
Record rng : Type := mkRng { draws : nat -> Z; cursor : nat }.

Definition next_raw (r : rng) : Z * rng :=
  (draws r (cursor r), mkRng (draws r) (S (cursor r))).

(** [random.randint(a, b)]: an integer [N] with [a <= N <= b], here the
    next raw draw folded into the interval; [ValueError] on an empty
    interval. *)
Definition randint (a b : Z) (r : rng) : res (Z * rng) :=
  if bool_decide (a ≤ b) then
    let '(v, r) := next_raw r in Ok (a + v mod (b - a + 1), r)
  else Raise ValueError.

Definition swap {A : Type} (l : list A) (i j : nat) : list A :=
  match l !! i, l !! j with
  | Some a, Some b => <[j := a]> (<[i := b]> l)
  | _, _ => l
  end.

(** [random.shuffle(x)]:
    [for i in reversed(range(1, len(x))): j = randbelow(i + 1); x[i], x[j] = x[j], x[i]]. *)
Fixpoint shuffle_from {A : Type} (i : nat) (l : list A) (r : rng) : list A * rng :=
  match i with
  | O => (l, r)
  | S i' =>
      let '(v, r) := next_raw r in
      let j := Z.to_nat (v mod (Z.of_nat i + 1)) in
      shuffle_from i' (swap l i j) r
  end.

Definition shuffle {A : Type} (l : list A) (r : rng) : list A * rng :=
  shuffle_from (length l - 1) l r.

(** Lines 177-186 of [generate_puzzle]: the drawn [connections_count] and
    the [source_type] chosen for it. *)
Definition choose_source_type (r : rng) : res (Z * Z * rng) :=
  cr ← randint 1 4 r;
  let '(connections_count, r) := cr in
  sr ← (if bool_decide (connections_count = 1) then randint 0 3 r
        else if bool_decide (connections_count = 2) then randint 4 7 r
        else if bool_decide (connections_count = 3) then randint 8 11 r
        else Ok (12, r));
  let '(source_type, r) := sr in
  Ok (connections_count, source_type, r).

(** [Tile(tile_type, rotation)] with its draw for a power source. *)
Definition Tile_init (tt : TileType) (rot : Z) (r : rng) : res (Tile * rng) :=
  if bool_decide (tt = POWER_SOURCE) then
    pr ← randint 0 12 r;
    Ok (Tile_make tt rot (Some (fst pr)), snd pr)
  else Ok (Tile_make tt rot None, r).

(** The loop [for i in range(num_sources)] of [generate_puzzle], for [n]
    more rounds; an empty [available_positions] is the [break]. *)
Fixpoint place_sources (n : nat) (s : PuzzleGame) (available_positions : list pos)
    (power_source_positions : list pos) (r : rng)
  : res (PuzzleGame * list pos * list pos * rng) :=
  match n with
  | O => Ok (s, available_positions, power_source_positions, r)
  | S n' =>
      match available_positions with
      | [] => Ok (s, available_positions, power_source_positions, r)
      | (x, y) :: available_positions =>
          cs ← choose_source_type r;
          let '(_, source_type, r) := cs in
          tr ← Tile_init POWER_SOURCE 0 r;
          let '(tile, r) := tr in
          g ← grid_set tile (grid s) x y;
          g ← grid_modify (set_power_connection_pattern (Some source_type)) g x y;
          let s := set_power_sources (power_sources s ++ [(x, y)]) (set_grid g s) in
          place_sources n' s available_positions (power_source_positions ++ [(x, y)]) r
      end
  end.

(** [generate_puzzle] up to the end of the source placement (lines
    160-192): the state, the locals [available_positions],
    [power_source_positions] and [num_bulbs], and the random source. *)
Definition generate_sources (s : PuzzleGame) (difficulty : Z) (r : rng)
  : res (PuzzleGame * list pos * list pos * Z * rng) :=
  let s := set_power_sources []
             (set_bulbs [] (set_grid (grid (PuzzleGame_init (width s) (height s))) s)) in
  let num_sources := 1 + difficulty `div` 2 in
  let num_bulbs := 4 + difficulty * 10 in
  let available_positions := cells (width s) (height s) in
  let '(available_positions, r) := shuffle available_positions r in
  out ← place_sources (Z.to_nat num_sources) s available_positions [] r;
  let '(s, available_positions, power_source_positions, r) := out in
  Ok (s, available_positions, power_source_positions, num_bulbs, r).

(** *** The scramble *)

(** The body of the loops of [randomize_rotations], for one cell. *)
Definition randomize_cell (gr : list (list Tile) * rng) (c : pos)
  : res (list (list Tile) * rng) :=
  let '(g, r) := gr in
  let '(x, y) := c in
  tile ← grid_get g x y;
  if bool_decide (tile_type tile ∉ [EMPTY; POWER_SOURCE]) then
    g ← grid_modify (set_max_rotation (ROTATIONS (tile_type tile))) g x y;
    tile ← grid_get g x y;
    vr ← randint 0 (max_rotation tile - 1) r;
    g ← grid_modify (set_rotation (fst vr)) g x y;
    Ok (g, snd vr)
  else Ok (g, r).

(** [PuzzleGame.randomize_rotations] *)
Definition randomize_rotations (s : PuzzleGame) (r : rng) : res (PuzzleGame * rng) :=
  gr ← foldM randomize_cell (grid s, r) (cells (width s) (height s));
  Ok (set_grid (fst gr) s, snd gr).

(** ** Well-formed states *)

(** A tile whose [get_connections] does not raise. *)
Definition tile_okb (t : Tile) : bool :=
  match get_connections t with Ok _ => true | _ => false end.

(** The grid has [h] rows of [w] tiles, each with readable connections. *)
Definition grid_okb (w h : Z) (g : list (list Tile)) : bool :=
  bool_decide (Z.of_nat (length g) = h) &&
  forallb (fun row => bool_decide (Z.of_nat (length row) = w) && forallb tile_okb row) g.

Definition positions_okb (s : PuzzleGame) (l : list pos) : bool :=
  forallb (fun c => is_valid_position s (fst c) (snd c)) l.

Definition game_okb (s : PuzzleGame) : bool :=
  grid_okb (width s) (height s) (grid s) &&
  positions_okb s (power_sources s) && positions_okb s (bulbs s).

(** The open directions of the tile at a cell. *)
Definition conns (s : PuzzleGame) (c : pos) : res (list Direction) :=
  tile ← grid_get (grid s) (fst c) (snd c); get_connections tile.

(** A reciprocally open edge: the tile at [c] lists [d], the neighbour
    [c'] in direction [d] is in bounds and lists the opposite direction. *)
Definition reciprocal_edge (s : PuzzleGame) (c c' : pos) : Prop :=
  ∃ d ds ds',
    conns s c = Ok ds ∧ d ∈ ds ∧
    c' = get_neighbor_position (fst c) (snd c) d ∧
    is_valid_position s (fst c') (snd c') = true ∧
    conns s c' = Ok ds' ∧ get_opposite_direction d ∈ ds'.

Inductive reachable (s : PuzzleGame) : pos -> Prop :=
| reach_source c : c ∈ power_sources s -> reachable s c
| reach_edge c c' : reachable s c -> reciprocal_edge s c c' -> reachable s c'.

(** The shape of the grid alone. *)
Definition grid_dims (w h : Z) (g : list (list Tile)) : Prop :=
  Z.of_nat (length g) = h ∧ ∀ row, row ∈ g -> Z.of_nat (length row) = w.

Definition valid (s : PuzzleGame) (c : pos) : Prop :=
  (0 ≤ fst c < width s) ∧ (0 ≤ snd c < height s).

(** What the reset loop of [update_power_flow] does to one tile. *)
Definition reset_tile (t : Tile) : Tile :=
  set_used_in_solution false
    (if bool_decide (tile_type t ≠ POWER_SOURCE) then set_is_powered false t else t).

(** What a pop of the flow queue does to the popped tile. *)
Definition mark_tile (t : Tile) : Tile :=
  set_used_in_solution true (set_is_powered true t).

(** The number of grid cells not yet in [V]: the termination measure of
    the flow loop. *)
Definition unvisited (w h : Z) (V : gset pos) : nat :=
  length (filter (fun c => c ∉ V) (cells w h)).

(** The state of the solver while it runs on [s0]: same dimensions and
    lists, and every tile is the reset tile of [s0], marked where the cell
    is in [D]. *)
Definition flow_state (s0 s : PuzzleGame) (D : gset pos) : Prop :=
  width s = width s0 ∧ height s = height s0 ∧
  power_sources s = power_sources s0 ∧ bulbs s = bulbs s0 ∧
  grid_dims (width s0) (height s0) (grid s) ∧
  ∀ x y, valid s0 (x, y) ->
    ∃ t, grid_get (grid s0) x y = Ok t ∧
         grid_get (grid s) x y =
           Ok (if bool_decide ((x, y) ∈ D) then mark_tile (reset_tile t)
               else reset_tile t).

(** The invariant of [while queue]. *)
Definition flow_inv (s0 s : PuzzleGame) (queue : list pos) (visited D : gset pos)
  : Prop :=
  flow_state s0 s D ∧
  (∀ c, c ∈ visited ↔ c ∈ D ∨ c ∈ queue) ∧
  (∀ c, c ∈ visited -> valid s0 c ∧ reachable s0 c) ∧
  (∀ c c', c ∈ D -> reciprocal_edge s0 c c' -> c' ∈ visited).

(** The grid has the game's dimensions and every tile in it has readable
    connections. *)
Definition grid_wf (s : PuzzleGame) : Prop :=
  grid_dims (width s) (height s) (grid s) ∧
  ∀ c, valid s c -> ∃ ds, conns s c = Ok ds.

(** The open direction [d] of the cell [(x, y)] ends at an in-bounds,
    non-Empty neighbour that lists the opposite direction. *)
Definition dir_ok (s : PuzzleGame) (x y : Z) (d : Direction) : Prop :=
  let c' := get_neighbor_position x y d in
  valid s c' ∧
  ∃ n dsn, grid_get (grid s) (fst c') (snd c') = Ok n ∧
           tile_type n ≠ EMPTY ∧
           get_connections n = Ok dsn ∧ get_opposite_direction d ∈ dsn.

(** The open direction [d] of the cell [(x, y)] ends at the grid
    boundary, at an Empty tile or at a neighbour that does not
    reciprocate. *)
Definition dir_leak (s : PuzzleGame) (x y : Z) (d : Direction) : Prop :=
  let c' := get_neighbor_position x y d in
  ¬ valid s c' ∨
  ∃ n, grid_get (grid s) (fst c') (snd c') = Ok n ∧
       (tile_type n = EMPTY ∨
        ∃ dsn, get_connections n = Ok dsn ∧ get_opposite_direction d ∉ dsn).

Definition cell_ok (s : PuzzleGame) (c : pos) : Prop :=
  ∀ t ds d,
    grid_get (grid s) (fst c) (snd c) = Ok t -> is_powered t = true ->
    get_connections t = Ok ds -> d ∈ ds -> dir_ok s (fst c) (snd c) d.

Definition cell_leak (s : PuzzleGame) (c : pos) : Prop :=
  ∃ t ds d,
    grid_get (grid s) (fst c) (snd c) = Ok t ∧ is_powered t = true ∧
    get_connections t = Ok ds ∧ d ∈ ds ∧ dir_leak s (fst c) (snd c) d.

(** No powered tile leaks. *)
Definition no_leaks (s : PuzzleGame) : Prop := ∀ c, valid s c -> cell_ok s c.

(** Some powered tile leaks. *)
Definition has_leak (s : PuzzleGame) : Prop := ∃ c, valid s c ∧ cell_leak s c.

(** ** Subsets of the four directions *)

Definition pick (b : bool) (d : Direction) : list Direction :=
  if b then [d] else [].

(** The subset with the given members, in the order of [Direction]. *)
Definition subset_dirs (bu br bd bl : bool) : list Direction :=
  pick bu UP ++ pick br RIGHT ++ pick bd DOWN ++ pick bl LEFT.

(** The set holds a direction together with its opposite. *)
Definition opposite_pair (S : list Direction) : Prop :=
  ∃ d, d ∈ S ∧ get_opposite_direction d ∈ S.

(** What the finalizer promises for a non-empty set [S] of connecting
    directions: the tile's connections are [S] as a set, and the variant
    is the one of the size and kind of [S]. *)
Definition finalized (S : list Direction) (t' : Tile) : Prop :=
  (∃ ds, get_connections t' = Ok ds ∧ NoDup ds ∧ (∀ d, d ∈ ds ↔ d ∈ S)) ∧
  (length S = 1%nat -> tile_type t' = LIGHT_BULB) ∧
  (length S = 2%nat -> opposite_pair S -> tile_type t' = STRAIGHT) ∧
  (length S = 2%nat -> ¬ opposite_pair S -> tile_type t' = ELBOW) ∧
  (length S = 3%nat -> tile_type t' = T_JUNCTION) ∧
  (length S = 4%nat -> tile_type t' = CROSS ∧ rotation t' = 0).

(** A well-formed game: a well-formed grid, and the listed sources and
    bulbs are cells of the grid. *)
Definition game_ok (s : PuzzleGame) : Prop :=
  grid_wf s ∧
  (∀ c, c ∈ power_sources s -> valid s c) ∧
  (∀ c, c ∈ bulbs s -> valid s c).

(** The tile invariant as a check, and on every tile of a grid. *)
Definition tile_invb (t : Tile) : bool :=
  bool_decide (max_rotation t = ROTATIONS (tile_type t)) &&
  bool_decide (0 ≤ rotation t < ROTATIONS (tile_type t)).

Definition grid_invb (g : list (list Tile)) : bool :=
  forallb (forallb tile_invb) g.

(** The sub-range of pattern indices for a connection count. *)
Definition in_subrange (count p : Z) : Prop :=
  (count = 1 ∧ 0 ≤ p ≤ 3) ∨ (count = 2 ∧ 4 ≤ p ≤ 7) ∨
  (count = 3 ∧ 8 ≤ p ≤ 11) ∨ (count = 4 ∧ p = 12).

(** ** Sample states *)

(** A 3x1 board: a source open to the right, a horizontal pipe and a bulb
    facing left; flags as a fresh board has them. *)
Definition demo_game : PuzzleGame :=
  {| width := 3;
     height := 1;
     grid := [ [ Tile_make POWER_SOURCE 0 (Some 0);
                 Tile_make STRAIGHT 1 None;
                 Tile_make LIGHT_BULB 3 None ] ];
     power_sources := [(0, 0)];
     bulbs := [(2, 0)];
     is_solved := false |}.

(** The same board with every tile powered. *)
Definition demo_lit : PuzzleGame :=
  set_grid [ mark_tile <$> [ Tile_make POWER_SOURCE 0 (Some 0);
                             Tile_make STRAIGHT 1 None;
                             Tile_make LIGHT_BULB 3 None ] ] demo_game.

(** The lit board as the solver leaves it. *)
Definition demo_solved : PuzzleGame := set_is_solved true demo_lit.

(** A 2x2 board used with the finalizer: a source open to the right at
    (0,0), a stale Cross at (1,0), an Elbow open to Up and Right at
    (1,1). *)
Definition demo_pipes : PuzzleGame :=
  {| width := 2;
     height := 2;
     grid := [ [ Tile_make POWER_SOURCE 0 (Some 0); Tile_make CROSS 0 None ];
               [ Tile_make EMPTY 0 None; Tile_make ELBOW 3 None ] ];
     power_sources := [(0, 0)];
     bulbs := [];
     is_solved := false |}.

(** A sample random source: the draws 0, 1, 2, ... *)
Definition demo_rng : rng := mkRng Z.of_nat 0.

(** A 1x1 board holding an Elbow with no neighbour at all. *)
Definition lone_elbow : PuzzleGame :=
  {| width := 1;
     height := 1;
     grid := [ [ Tile_make ELBOW 3 None ] ];
     power_sources := [];
     bulbs := [];
     is_solved := false |}.

(** A 2x1 board: a source open to the left, off the board, next to an
    Elbow that nothing connects to. *)
Definition demo_stale : PuzzleGame :=
  {| width := 2;
     height := 1;
     grid := [ [ Tile_make POWER_SOURCE 0 (Some 2); Tile_make ELBOW 3 None ] ];
     power_sources := [(0, 0)];
     bulbs := [];
     is_solved := false |}.

(** ** Further predicates and operations *)

(** The tile at [c] is not Empty and lists [d]: what the code asks of a
    neighbour with
    [neighbor.tile_type != TileType.EMPTY and neighbor.is_connected_to(d)]. *)
Definition points (s : PuzzleGame) (c : pos) (d : Direction) : Prop :=
  ∃ t ds, grid_get (grid s) (fst c) (snd c) = Ok t ∧ tile_type t ≠ EMPTY ∧
          get_connections t = Ok ds ∧ d ∈ ds.

(** Two tiles that differ in their flags at most. *)
Definition same_shape (t t' : Tile) : Prop :=
  tile_type t' = tile_type t ∧ max_rotation t' = max_rotation t ∧
  rotation t' = rotation t ∧
  power_connection_pattern t' = power_connection_pattern t.

(** A well-formed game all of whose tiles satisfy the tile invariant. *)
Definition board_ok (s : PuzzleGame) : Prop :=
  game_ok s ∧
  ∀ x y t, valid s (x, y) -> grid_get (grid s) x y = Ok t -> tile_inv t.

(** The clicks of the event loop of [main], one [handle_click] per
    [MOUSEBUTTONDOWN] position. *)
Definition click_all (fuel : nat) (s : PuzzleGame) (clicks : list pos) : res PuzzleGame :=
  foldM (fun s p => sr ← handle_click fuel s p; Ok (fst sr)) s clicks.

(** A tile that is Empty or whose [get_connections] does not raise. *)
Definition tile_okwb (t : Tile) : bool :=
  bool_decide (tile_type t = EMPTY) || tile_okb t.

(** The grid has [h] rows of [w] tiles, and every tile that is not Empty
    has readable connections. *)
Definition grid_okwb (w h : Z) (g : list (list Tile)) : bool :=
  bool_decide (Z.of_nat (length g) = h) &&
  forallb (fun row => bool_decide (Z.of_nat (length row) = w) && forallb tile_okwb row) g.

Definition grid_wfw (s : PuzzleGame) : Prop :=
  grid_dims (width s) (height s) (grid s) ∧
  ∀ x y t, valid s (x, y) -> grid_get (grid s) x y = Ok t ->
           tile_type t ≠ EMPTY -> ∃ ds, get_connections t = Ok ds.

(** The tiles [finalize_puzzle] hands to [fix_pipe_connections]. *)
Definition is_pipe (t : Tile) : Prop :=
  tile_type t ∉ [POWER_SOURCE; LIGHT_BULB; EMPTY].

(** The tile at [c] is open exactly toward the in-bounds, non-Empty
    neighbours that are open toward [c]. *)
Definition settled (s : PuzzleGame) (c : pos) : Prop :=
  ∀ d, points s c d ↔ dir_ok s (fst c) (snd c) d.

(** *** The tail of [generate_puzzle] *)

(** [all(self.grid[y][x].used_in_solution for x, y in power_source_positions)] *)
Definition sources_used (s : PuzzleGame) (power_source_positions : list pos) : res bool :=
  all_res (fun '(x, y) => tile ← grid_get (grid s) x y; Ok (used_in_solution tile))
          power_source_positions.

(** The body of [for _ in range(3)]. *)
Definition repair_round (fuel : nat) (power_source_positions : list pos)
    (s : PuzzleGame) (_ : Z) : res PuzzleGame :=
  used ← sources_used s power_source_positions;
  if negb used then
    s ← finalize_puzzle s;
    sb ← update_power_flow fuel s;
    Ok (fst sb)
  else Ok s.

(** Lines 254-260 of [generate_puzzle]: finalize, solve, the three repair
    rounds. *)
Definition generate_finish (fuel : nat) (s : PuzzleGame)
    (power_source_positions : list pos) : res PuzzleGame :=
  s ← finalize_puzzle s;
  sb ← update_power_flow fuel s;
  foldM (repair_round fuel power_source_positions) (fst sb) (range 3).

(** Lines 262-263 of [generate_puzzle]: scramble, solve. *)
Definition scramble (fuel : nat) (s : PuzzleGame) (r : rng) : res (PuzzleGame * rng) :=
  sr ← randomize_rotations s r;
  sb ← update_power_flow fuel (fst sr);
  Ok (fst sb, snd sr).

(** Sample outcomes of the two floating-point draws of the growth loop,
    each read off one raw draw: a bulb three times in ten, and the pipe
    variants with the weights 4, 4, 2, 1. *)
Definition demo_coin (r : rng) : bool * rng :=
  let '(v, r) := next_raw r in (bool_decide (v mod 10 < 3), r).

Definition demo_pick (r : rng) : TileType * rng :=
  let '(v, r) := next_raw r in
  let k := v mod 11 in
  (if bool_decide (k < 4) then STRAIGHT
   else if bool_decide (k < 8) then ELBOW
   else if bool_decide (k < 10) then T_JUNCTION
   else CROSS, r).

(** *** The growth loop and the whole of [generate_puzzle] *)

(** [random.choice(seq)]: [seq[randbelow(len(seq))]], [IndexError] on an
    empty sequence. *)
Definition choice {A : Type} (l : list A) (r : rng) : res (A * rng) :=
  match l with
  | [] => Raise IndexError
  | _ :: _ =>
      let '(v, r) := next_raw r in
      match l !! Z.to_nat (v mod Z.of_nat (length l)) with
      | Some a => Ok (a, r)
      | None => Raise IndexError
      end
  end.

(** [l.remove(x)]: drops the first occurrence, [ValueError] if there is
    none. *)
Fixpoint list_remove {A : Type} `{EqDecision A} (x : A) (l : list A) : res (list A) :=
  match l with
  | [] => Raise ValueError
  | a :: l' =>
      if decide (a = x) then Ok l'
      else l'' ← list_remove x l'; Ok (a :: l'')
  end.

(** The locals of the growth loop, next to the game. *)
Record growth : Type := mkGrowth {
  g_game : PuzzleGame;
  g_available : list pos;
  g_connected : gset pos;
  g_frontier : list pos;
  g_bulb_positions : list pos;
  g_rng : rng
}.

(** The body of the loop that fills [possible_connections]. *)
Definition possible_step (s : PuzzleGame) (connected : gset pos) (x y : Z)
    (possible_connections : list (Direction * Z * Z)) (direction : Direction)
  : list (Direction * Z * Z) :=
  let '(nx, ny) := get_neighbor_position x y direction in
  if is_valid_position s nx ny && negb (bool_decide ((nx, ny) ∈ connected))
  then possible_connections ++ [(direction, nx, ny)]
  else possible_connections.

Definition bulb_rotation_for (opposite_dir : Direction) : Z :=
  match opposite_dir with
  | UP => 0
  | RIGHT => 1
  | DOWN => 2
  | LEFT => 3
  end.

(** The body of [for rot in range(ROTATIONS[pipe_type])]. *)
Definition try_rotation (nx ny : Z) (opposite_dir : Direction)
    (acc : PuzzleGame * list Z) (rot : Z) : res (PuzzleGame * list Z) :=
  let '(s, valid_rotations) := acc in
  g ← grid_modify (set_rotation rot) (grid s) nx ny;
  let s := set_grid g s in
  tile ← grid_get (grid s) nx ny;
  c ← is_connected_to tile opposite_dir;
  Ok (s, if (c : bool) then valid_rotations ++ [rot] else valid_rotations).

Definition GRID_SIZE : Z * Z := (16, 16).

(** The keys [main] tells apart, and the events it reacts to. *)
Inductive Key : Set := K_r | K_1 | K_2 | K_3 | K_other.

Inductive Event : Type :=
| QUIT
| MOUSEBUTTONDOWN (button : Z) (p : pos)
| KEYDOWN (key : Key)
| OTHER.

Section generator.

(** The two draws of the growth loop that go through floating point are
    left open: [random.random() < 0.3] and
    [random.choices(pipe_types, weights=pipe_weights)[0]]. *)
Variable random_lt_03 : rng -> bool * rng.
Variable choices_pipe : rng -> TileType * rng.

(** The placement of a tile at the chosen neighbour (lines 220-252). *)
Definition place_tile (num_bulbs : Z) (st : growth) (direction : Direction)
    (nx ny : Z) : res growth :=
  let s := g_game st in
  let r := g_rng st in
  let opposite_dir := get_opposite_direction direction in
  let '(place_bulb, r) :=
    if bool_decide (Z.of_nat (length (g_bulb_positions st)) < num_bulbs)
    then random_lt_03 r else (false, r) in
  if (place_bulb : bool) then
    let bulb_rotation := bulb_rotation_for opposite_dir in
    tr ← Tile_init LIGHT_BULB bulb_rotation r;
    g ← grid_set (fst tr) (grid s) nx ny;
    let s := set_bulbs (bulbs s ++ [(nx, ny)]) (set_grid g s) in
    Ok (mkGrowth s (g_available st) (g_connected st) (g_frontier st)
                 (g_bulb_positions st ++ [(nx, ny)]) (snd tr))
  else
    let '(pipe_type, r) := choices_pipe r in
    tr ← Tile_init pipe_type 0 r;
    g ← grid_set (fst tr) (grid s) nx ny;
    let s := set_grid g s in
    let r := snd tr in
    sv ← foldM (try_rotation nx ny opposite_dir) (s, []) (range (ROTATIONS pipe_type));
    let '(s, valid_rotations) := sv in
    match valid_rotations with
    | [] => Ok (mkGrowth s (g_available st) (g_connected st) (g_frontier st)
                         (g_bulb_positions st) r)
    | _ :: _ =>
        cr ← choice valid_rotations r;
        g ← grid_modify (set_rotation (fst cr)) (grid s) nx ny;
        Ok (mkGrowth (set_grid g s) (g_available st) (g_connected st) (g_frontier st)
                     (g_bulb_positions st) (snd cr))
    end.

(** One round of the [while] loop (lines 199-252). *)
Definition grow_step (num_bulbs : Z) (st : growth) : res growth :=
  let s := g_game st in
  cr ← choice (g_frontier st) (g_rng st);
  let '((x, y), r) := cr in
  current_tile ← grid_get (grid s) x y;
  connections ← get_connections current_tile;
  let possible_connections :=
    fold_left (possible_step s (g_connected st) x y) connections [] in
  match possible_connections with
  | [] =>
      frontier ← list_remove (x, y) (g_frontier st);
      Ok (mkGrowth s (g_available st) (g_connected st) frontier
                   (g_bulb_positions st) r)
  | _ :: _ =>
      pr ← choice possible_connections r;
      let '((direction, nx, ny), r) := pr in
      let connected := g_connected st ∪ {[ (nx, ny) ]} in
      available ← (if bool_decide ((nx, ny) ∈ g_available st)
                   then list_remove (nx, ny) (g_available st)
                   else Ok (g_available st));
      let frontier := g_frontier st ++ [(nx, ny)] in
      place_tile num_bulbs
                 (mkGrowth s available connected frontier (g_bulb_positions st) r)
                 direction nx ny
  end.

(** [while len(bulb_positions) < num_bulbs and frontier and
    available_positions], for at most [fuel] rounds. *)
Fixpoint grow (fuel : nat) (num_bulbs : Z) (st : growth) {struct fuel} : res growth :=
  if bool_decide (Z.of_nat (length (g_bulb_positions st)) < num_bulbs)
     && negb (bool_decide (g_frontier st = []))
     && negb (bool_decide (g_available st = []))
  then
    match fuel with
    | O => OutOfFuel
    | S fuel => st ← grow_step num_bulbs st; grow fuel num_bulbs st
    end
  else Ok st.

(** [generate_puzzle] up to the end of the repair rounds (lines 160-260):
    the board before it is scrambled. [fuel] bounds the rounds of the
    growth loop and the pops of each flow loop. *)
Definition generate_solution (fuel : nat) (s : PuzzleGame) (difficulty : Z) (r : rng)
  : res (PuzzleGame * rng) :=
  out ← generate_sources s difficulty r;
  let '(s, available_positions, power_source_positions, num_bulbs, r) := out in
  st ← grow fuel num_bulbs
          (mkGrowth s available_positions (list_to_set power_source_positions)
                    power_source_positions [] r);
  s ← generate_finish fuel (g_game st) power_source_positions;
  Ok (s, g_rng st).

(** [PuzzleGame.generate_puzzle] *)
Definition generate_puzzle (fuel : nat) (s : PuzzleGame) (difficulty : Z) (r : rng)
  : res (PuzzleGame * rng) :=
  sr ← generate_solution fuel s difficulty r;
  scramble fuel (fst sr) (snd sr).

(** [main]: the game state, the random source and [running]. One event
    of the inner [for] loop; drawing is left out, it reads the game and
    writes none of its fields. *)
Definition handle_event (fuel : nat) (g : PuzzleGame * rng * bool) (event : Event)
  : res (PuzzleGame * rng * bool) :=
  let '(game, r, running) := g in
  match event with
  | QUIT => Ok (game, r, false)
  | MOUSEBUTTONDOWN button p =>
      if bool_decide (button = 1) then
        sr ← handle_click fuel game p; Ok (fst sr, r, running)
      else Ok g
  | KEYDOWN K_r => gr ← generate_puzzle fuel game 1 r; Ok (fst gr, snd gr, running)
  | KEYDOWN K_1 => gr ← generate_puzzle fuel game 2 r; Ok (fst gr, snd gr, running)
  | KEYDOWN K_2 => gr ← generate_puzzle fuel game 4 r; Ok (fst gr, snd gr, running)
  | KEYDOWN K_3 => gr ← generate_puzzle fuel game 6 r; Ok (fst gr, snd gr, running)
  | KEYDOWN K_other => Ok g
  | OTHER => Ok g
  end.

(** [while running], over the batches of events that
    [pygame.event.get()] returns frame by frame: the batch in which
    [QUIT] arrives is still handled to its end. *)
Fixpoint main_loop (fuel : nat) (g : PuzzleGame * rng * bool) (frames : list (list Event))
  : res (PuzzleGame * rng * bool) :=
  if snd g then
    match frames with
    | [] => Ok g
    | events :: frames =>
        g ← foldM (handle_event fuel) g events; main_loop fuel g frames
    end
  else Ok g.

(** [main] up to [pygame.quit()]. *)
Definition main (fuel : nat) (r : rng) (frames : list (list Event))
  : res (PuzzleGame * rng * bool) :=
  let game := PuzzleGame_init (fst GRID_SIZE) (snd GRID_SIZE) in
  gr ← generate_puzzle fuel game 1 r;
  main_loop fuel (fst gr, snd gr, true) frames.

End generator.

(** The population of [random.choices] in the growth loop. *)
Definition pipe_types : list TileType := [STRAIGHT; ELBOW; T_JUNCTION; CROSS].

(** The cell [c] and its neighbour in direction [d] point at each other. *)
Definition mutual (s : PuzzleGame) (c : pos) (d : Direction) : Prop :=
  points s c d ∧ dir_ok s (fst c) (snd c) d.

(** Every pipe of the board has a neighbour it is mutually connected to. *)
Definition anchored (s : PuzzleGame) : Prop :=
  ∀ x y t, valid s (x, y) -> grid_get (grid s) x y = Ok t -> is_pipe t ->
           ∃ d, mutual s (x, y) d.

(** The termination measure of the growth loop. *)
Definition grow_measure (w h : Z) (st : growth) : nat :=
  2 * unvisited w h (g_connected st) + length (g_frontier st).

(** The invariant of the growth loop on a [w] x [h] board whose sources
    were placed at [P]. *)
Definition grow_inv (w h : Z) (P : list pos) (num_bulbs : Z) (st : growth) : Prop :=
  let s := g_game st in
  width s = w ∧ height s = h ∧ power_sources s = P ∧
  bulbs s = g_bulb_positions st ∧
  board_ok s ∧
  (∀ c, c ∈ g_connected st -> valid s c) ∧
  (∀ c, c ∈ g_frontier st -> c ∈ g_connected st) ∧
  (∀ x y, (x, y) ∈ P ->
     (x, y) ∈ g_connected st ∧
     ∃ t, grid_get (grid s) x y = Ok t ∧ tile_type t = POWER_SOURCE) ∧
  (∀ x y, valid s (x, y) -> (x, y) ∉ g_connected st ->
     grid_get (grid s) x y = Ok (Tile_make EMPTY 0 None)) ∧
  (∀ x y, (x, y) ∈ g_connected st -> (x, y) ∉ P ->
     ∃ t, grid_get (grid s) x y = Ok t ∧
          (tile_type t ∉ [POWER_SOURCE; EMPTY]) ∧ (∃ d, mutual s (x, y) d)) ∧
  (∀ x y, (x, y) ∈ g_bulb_positions st ->
     (x, y) ∈ g_connected st ∧ ((x, y) ∉ P) ∧
     ∃ t, grid_get (grid s) x y = Ok t ∧ tile_type t = LIGHT_BULB) ∧
  NoDup (g_bulb_positions st) ∧
  Z.of_nat (length (g_bulb_positions st)) ≤ Z.max 0 num_bulbs ∧
  (∀ c, c ∈ g_connected st -> reachable s c).

(** What the growth loop hands to the finalizer: the tile invariant
    holds everywhere; every tile that is neither Empty nor a power source
    is mutually connected to a neighbour; every non-Empty tile is
    reachable from a source; the listed bulbs hold bulbs, and the power
    source tiles are exactly the listed sources. *)
Definition grown (s : PuzzleGame) : Prop :=
  board_ok s ∧
  (∀ x y t, valid s (x, y) -> grid_get (grid s) x y = Ok t ->
     tile_type t ∉ [POWER_SOURCE; EMPTY] -> ∃ d, mutual s (x, y) d) ∧
  (∀ x y t, valid s (x, y) -> grid_get (grid s) x y = Ok t ->
     tile_type t ≠ EMPTY -> reachable s (x, y)) ∧
  (∀ x y, (x, y) ∈ bulbs s ->
     ∃ t, grid_get (grid s) x y = Ok t ∧ tile_type t = LIGHT_BULB) ∧
  (∀ x y t, valid s (x, y) -> grid_get (grid s) x y = Ok t ->
     (tile_type t = POWER_SOURCE ↔ (x, y) ∈ power_sources s)).

(** The cell a click at the pixel [p] lands on. *)
Definition clicked_cell (p : pos) : pos :=
  (fst p `div` TILE_SIZE, snd p `div` TILE_SIZE).

(** [Tile.__init__] powers a power source and nothing ever switches it
    off: the check that every power source tile of a grid is powered. *)
Definition source_poweredb (t : Tile) : bool :=
  implb (bool_decide (tile_type t = POWER_SOURCE)) (is_powered t).

Definition sources_poweredb (g : list (list Tile)) : bool :=
  forallb (forallb source_poweredb) g.

(** The state after [k] clicks at the cell [c] of [s], up to the two
    flags: the tile at [c] is turned [k] times, every other tile is as in
    [s], and the power sources are powered. *)
Definition turned (s : PuzzleGame) (c : pos) (k : Z) (s' : PuzzleGame) : Prop :=
  width s' = width s ∧ height s' = height s ∧
  power_sources s' = power_sources s ∧ bulbs s' = bulbs s ∧
  board_ok s' ∧
  ∀ x y, valid s (x, y) ->
    ∃ t t', grid_get (grid s) x y = Ok t ∧ grid_get (grid s') x y = Ok t' ∧
      (tile_type t' = POWER_SOURCE -> is_powered t' = true) ∧
      reset_tile t' =
        reset_tile (if bool_decide ((x, y) = c)
                    then set_rotation ((rotation t + k) mod max_rotation t) t
                    else t).

(** The draws of the placement loop of [generate_puzzle], read off
    [place_sources]: for each round the popped position, the drawn
    [connections_count] and the [source_type] chosen for it, in the order
    of the rounds. The stream moves on as in the loop, past the draw that
    [Tile.__init__] makes for a power source. *)
Fixpoint source_draws (n : nat) (available_positions : list pos) (r : rng)
  : res (list (pos * Z * Z)) :=
  match n with
  | O => Ok []
  | S n' =>
      match available_positions with
      | [] => Ok []
      | (x, y) :: available_positions =>
          cs ← choose_source_type r;
          let '(connections_count, source_type, r) := cs in
          tr ← Tile_init POWER_SOURCE 0 r;
          rest ← source_draws n' available_positions (snd tr);
          Ok ((x, y, connections_count, source_type) :: rest)
      end
  end.

(** A sequence of clicks with the value each [handle_click] returned. *)
Definition click_results (fuel : nat) (s : PuzzleGame) (clicks : list pos)
  : res (PuzzleGame * list (option bool)) :=
  foldM (fun so p =>
           sr ← handle_click fuel (fst so) p;
           Ok (fst sr, snd so ++ [snd sr]))
        (s, []) clicks.

(** * Properties *)

(** ** The result monad and loops *)

Lemma bind_Ok {A B : Type} (m : res A) (f : A -> res B) (b : B) :
  m ≫= f = Ok b ↔ ∃ a, m = Ok a ∧ f a = Ok b.
Proof.
  destruct m; simpl; split; intros H.
  - eauto.
  - destruct H as (a' & [= ->] & H). exact H.
  - discriminate.
  - destruct H as (? & [=] & _).
  - discriminate.
  - destruct H as (? & [=] & _).
Qed.



(** A loop invariant indexed by the prefix already iterated over. *)
Lemma foldM_inv {A S : Type} (f : S -> A -> res S) (I : list A -> S -> Prop) l s :
  I [] s ->
  (∀ pre a s, a ∈ l -> I pre s -> ∃ s', f s a = Ok s' ∧ I (pre ++ [a]) s') ->
  ∃ s', foldM f s l = Ok s' ∧ I l s'.
Proof.
  intros H0 Hstep.
  assert (G : ∀ l2 l1 s, l = l1 ++ l2 -> I l1 s ->
              ∃ s', foldM f s l2 = Ok s' ∧ I l s').
  { induction l2 as [|a l2 IH]; intros l1 s1 El HI; simpl.
    - rewrite app_nil_r in El. subst. eauto.
    - destruct (Hstep l1 a s1) as (s2 & E2 & I2); [|done|].
      + subst l. set_solver.
      + rewrite E2. simpl. apply (IH (l1 ++ [a])); [|done].
        by rewrite <- app_assoc. }
  by apply (G l []).
Qed.

Lemma all_res_spec {A : Type} (f : A -> res bool) (P : A -> Prop) l :
  (∀ a, a ∈ l -> ∃ b, f a = Ok b ∧ (b = true ↔ P a)) ->
  ∃ b, all_res f l = Ok b ∧ (b = true ↔ ∀ a, a ∈ l -> P a).
Proof.
  induction l as [|a l IH]; intros H; simpl.
  - exists true. split; [done|]. split; [|done]. intros _ a Ha. set_solver.
  - destruct (H a) as (b & Eb & Hb); [set_solver|]. rewrite Eb. simpl.
    destruct b.
    + destruct IH as (b' & Eb' & Hb'); [intros; apply H; set_solver|].
      exists b'. split; [done|]. rewrite Hb'. split.
      * intros Hall a' Ha'. apply elem_of_cons in Ha' as [->|Ha']; [by apply Hb|by apply Hall].
      * intros Hall a' Ha'. apply Hall. set_solver.
    + exists false. split; [done|]. split; [done|].
      intros Hall. apply Hb, Hall. set_solver.
Qed.

(** ** Indexing *)

Lemma py_index_valid n i : 0 ≤ i < Z.of_nat n -> py_index n i = Ok (Z.to_nat i).
Proof. intros H. unfold py_index. by rewrite bool_decide_eq_true_2. Qed.

Lemma py_get_valid {A : Type} (l : list A) i a :
  0 ≤ i -> l !! Z.to_nat i = Some a -> py_get l i = Ok a.
Proof.
  intros Hi Hl. unfold py_get. rewrite py_index_valid.
  - simpl. by rewrite Hl.
  - apply lookup_lt_Some in Hl. lia.
Qed.

Lemma elem_of_range n i : i ∈ range n ↔ 0 ≤ i < n.
Proof.
  unfold range. rewrite list_elem_of_fmap. split.
  - intros (k & -> & Hk). apply elem_of_seq in Hk. lia.
  - intros H. exists (Z.to_nat i). split; [lia|]. apply elem_of_seq. lia.
Qed.

Lemma elem_of_cells w h x y : (x, y) ∈ cells w h ↔ 0 ≤ x < w ∧ 0 ≤ y < h.
Proof.
  unfold cells. rewrite list_elem_of_In, in_flat_map. split.
  - intros (y' & Hy & Hx). apply list_elem_of_In, elem_of_range in Hy.
    apply list_elem_of_In, list_elem_of_fmap in Hx as (x' & [= -> ->] & Hx).
    apply elem_of_range in Hx. lia.
  - intros [Hx Hy]. exists y. split.
    + by apply list_elem_of_In, elem_of_range.
    + apply list_elem_of_In, list_elem_of_fmap. exists x. split; [done|].
      by apply elem_of_range.
Qed.

(** ** The grid *)

Lemma is_valid_position_true s x y :
  is_valid_position s x y = true ↔ valid s (x, y).
Proof.
  unfold is_valid_position, valid. simpl.
  rewrite andb_true_iff, !bool_decide_eq_true. tauto.
Qed.

Lemma is_valid_position_false s x y :
  is_valid_position s x y = false ↔ ¬ valid s (x, y).
Proof. rewrite <- is_valid_position_true. destruct (is_valid_position s x y); naive_solver. Qed.

Lemma elem_of_cells_valid s c : c ∈ cells (width s) (height s) ↔ valid s c.
Proof. destruct c as [x y]. apply elem_of_cells. Qed.

Lemma grid_get_lookup g x y row t :
  0 ≤ x -> 0 ≤ y ->
  g !! Z.to_nat y = Some row -> row !! Z.to_nat x = Some t ->
  grid_get g x y = Ok t.
Proof.
  intros Hx Hy Hr Ht. unfold grid_get.
  rewrite (py_get_valid g y row) by done. simpl. by apply py_get_valid.
Qed.

Lemma grid_dims_lookup w h g x y :
  grid_dims w h g -> 0 ≤ x < w -> 0 ≤ y < h ->
  ∃ row t, g !! Z.to_nat y = Some row ∧ row !! Z.to_nat x = Some t.
Proof.
  intros [Hh Hw] Hx Hy.
  destruct (lookup_lt_is_Some_2 g (Z.to_nat y)) as [row Hr]; [lia|].
  assert (Hl : Z.of_nat (length row) = w).
  { apply Hw. eapply list_elem_of_lookup_2. exact Hr. }
  destruct (lookup_lt_is_Some_2 row (Z.to_nat x)) as [t Ht]; [lia|].
  eauto.
Qed.

Lemma grid_get_dims w h g x y :
  grid_dims w h g -> 0 ≤ x < w -> 0 ≤ y < h -> ∃ t, grid_get g x y = Ok t.
Proof.
  intros Hd Hx Hy.
  destruct (grid_dims_lookup w h g x y) as (row & t & Hr & Ht); [done..|].
  exists t. apply (grid_get_lookup g x y row t); [lia|lia|done|done].
Qed.

Lemma grid_get_inv g x y t :
  0 ≤ x -> 0 ≤ y -> grid_get g x y = Ok t ->
  ∃ row, g !! Z.to_nat y = Some row ∧ row !! Z.to_nat x = Some t.
Proof.
  intros Hx Hy. unfold grid_get, py_get, py_index.
  intros H. apply bind_Ok in H as (row & H1 & H2).
  apply bind_Ok in H1 as (j & H1 & H1').
  apply bind_Ok in H2 as (i & H2 & H2').
  repeat case_bool_decide; simplify_eq; try lia.
  exists row. destruct (g !! Z.to_nat y) eqn:E1; [|done].
  destruct (row !! Z.to_nat x) eqn:E2; [|done]. by simplify_eq.
Qed.

(** The effect of an in-place change of one tile. *)
Lemma grid_modify_dims f w h g x y :
  grid_dims w h g -> 0 ≤ x < w -> 0 ≤ y < h ->
  ∃ t g',
    grid_get g x y = Ok t ∧ grid_modify f g x y = Ok g' ∧
    grid_dims w h g' ∧ grid_get g' x y = Ok (f t) ∧
    ∀ x' y', 0 ≤ x' < w -> 0 ≤ y' < h -> (x', y') ≠ (x, y) ->
             grid_get g' x' y' = grid_get g x' y'.
Proof.
  intros Hd Hx Hy.
  destruct (grid_dims_lookup w h g x y) as (row & t & Hr & Ht); [done..|].
  pose proof Hd as [Hh Hw].
  exists t, (<[Z.to_nat y := <[Z.to_nat x := f t]> row]> g).
  assert (Hlr : Z.of_nat (length row) = w).
  { apply Hw. eapply list_elem_of_lookup_2. exact Hr. }
  split; [apply (grid_get_lookup g x y row t); (lia || done)|].
  split.
  { unfold grid_modify. rewrite py_index_valid by lia. simpl. rewrite Hr.
    rewrite py_index_valid by lia. simpl. by rewrite Ht. }
  split.
  { split; [by rewrite length_insert|].
    intros row' Hin. apply list_elem_of_lookup in Hin as [k Hk].
    destruct (decide (k = Z.to_nat y)) as [->|Hne].
    - rewrite list_lookup_insert_eq in Hk by (apply lookup_lt_Some in Hr; lia).
      simplify_eq. by rewrite length_insert.
    - rewrite list_lookup_insert_ne in Hk by done.
      apply Hw. eapply list_elem_of_lookup_2. exact Hk. }
  split.
  { apply (grid_get_lookup _ x y (<[Z.to_nat x := f t]> row)); [lia|lia| |].
    - apply list_lookup_insert_eq. apply lookup_lt_Some in Hr. lia.
    - apply list_lookup_insert_eq. apply lookup_lt_Some in Ht. lia. }
  intros x' y' Hx' Hy' Hne.
  destruct (grid_dims_lookup w h g x' y') as (row' & t' & Hr' & Ht'); [done..|].
  rewrite (grid_get_lookup g x' y' row' t') by (lia || done).
  destruct (decide (Z.to_nat y' = Z.to_nat y)) as [Ey|Ny].
  - assert (y' = y) by lia. subst y'. simplify_eq.
    assert (Z.to_nat x ≠ Z.to_nat x') by (intros E; apply Hne; f_equal; lia).
    apply (grid_get_lookup _ x' y (<[Z.to_nat x := f t]> row)); [lia|lia| |].
    + apply list_lookup_insert_eq. apply lookup_lt_Some in Hr. lia.
    + by rewrite list_lookup_insert_ne.
  - apply (grid_get_lookup _ x' y' row'); [lia|lia| |done].
    by rewrite list_lookup_insert_ne.
Qed.

Lemma grid_okb_dims w h g : grid_okb w h g = true -> grid_dims w h g.
Proof.
  unfold grid_okb. rewrite andb_true_iff, bool_decide_eq_true, forallb_forall.
  intros [Hh Hrows]. split; [done|].
  intros row Hin. apply list_elem_of_In, Hrows in Hin.
  apply andb_true_iff in Hin as [Hin _]. by apply bool_decide_eq_true in Hin.
Qed.

Lemma grid_okb_tile w h g x y t :
  grid_okb w h g = true -> 0 ≤ x -> 0 ≤ y -> grid_get g x y = Ok t ->
  ∃ ds, get_connections t = Ok ds.
Proof.
  unfold grid_okb. rewrite andb_true_iff, forallb_forall.
  intros [_ Hrows] Hx Hy Hg.
  apply grid_get_inv in Hg as (row & Hr & Ht); [|done..].
  apply list_elem_of_lookup_2, list_elem_of_In, Hrows in Hr.
  apply andb_true_iff in Hr as [_ Hr]. rewrite forallb_forall in Hr.
  apply list_elem_of_lookup_2, list_elem_of_In, Hr in Ht.
  unfold tile_okb in Ht. destruct (get_connections t); [eauto|done..].
Qed.

Lemma positions_okb_valid s l c :
  positions_okb s l = true -> c ∈ l -> valid s c.
Proof.
  unfold positions_okb. rewrite forallb_forall. intros H Hin.
  apply list_elem_of_In, H in Hin. destruct c. by apply is_valid_position_true.
Qed.

Lemma game_okb_inv s :
  game_okb s = true ->
  grid_okb (width s) (height s) (grid s) = true ∧
  (∀ c, c ∈ power_sources s -> valid s c) ∧
  (∀ c, c ∈ bulbs s -> valid s c).
Proof.
  unfold game_okb. rewrite !andb_true_iff. intros [[H1 H2] H3].
  split; [done|]. split; intros c; by apply positions_okb_valid.
Qed.

Lemma grid_okb_wf s : grid_okb (width s) (height s) (grid s) = true -> grid_wf s.
Proof.
  intros Hg. pose proof (grid_okb_dims _ _ _ Hg) as Hd. split; [done|].
  intros [x y] [Hx Hy]. simpl in *.
  destruct (grid_get_dims _ _ _ x y Hd Hx Hy) as [t Ht].
  destruct (grid_okb_tile _ _ _ x y t Hg) as [ds Hds]; [lia|lia|done|].
  exists ds. unfold conns. simpl. by rewrite Ht.
Qed.

Lemma game_okb_ok s : game_okb s = true -> game_ok s.
Proof.
  intros Hok. destruct (game_okb_inv s Hok) as (Hg & Hs & Hb).
  split; [by apply grid_okb_wf|done].
Qed.

(** ** Tiles: flags do not touch the shape *)



Lemma get_connections_reset t : get_connections (reset_tile t) = get_connections t.
Proof. unfold reset_tile. by case_bool_decide. Qed.

Lemma get_connections_mark t : get_connections (mark_tile t) = get_connections t.
Proof. reflexivity. Qed.

Lemma reset_tile_idemp t : reset_tile (reset_tile t) = reset_tile t.
Proof. unfold reset_tile. destruct t as [[] ? ? ? ? ?]; reflexivity. Qed.


(** ** The reset loop *)

Lemma reset_cell_spec w h g x y :
  grid_dims w h g -> 0 ≤ x < w -> 0 ≤ y < h ->
  ∃ t g',
    grid_get g x y = Ok t ∧ reset_cell g (x, y) = Ok g' ∧
    grid_dims w h g' ∧ grid_get g' x y = Ok (reset_tile t) ∧
    ∀ x' y', 0 ≤ x' < w -> 0 ≤ y' < h -> (x', y') ≠ (x, y) ->
             grid_get g' x' y' = grid_get g x' y'.
Proof.
  intros Hd Hx Hy. unfold reset_cell.
  destruct (grid_modify_dims (set_is_powered false) w h g x y)
    as (t & g1 & Ht & Hm1 & Hd1 & Hg1 & Ho1); [done..|].
  exists t. rewrite Ht. simpl. unfold reset_tile.
  case_bool_decide as Hty.
  - rewrite Hm1. simpl.
    destruct (grid_modify_dims (set_used_in_solution false) w h g1 x y)
      as (t1 & g2 & Ht1 & Hm2 & Hd2 & Hg2 & Ho2); [done..|].
    exists g2. rewrite Hg1 in Ht1. simplify_eq.
    split_and!; [done..|].
    intros x' y' Hx' Hy' Hne. rewrite Ho2, Ho1; done.
  - simpl.
    destruct (grid_modify_dims (set_used_in_solution false) w h g x y)
      as (t1 & g2 & Ht1 & Hm2 & Hd2 & Hg2 & Ho2); [done..|].
    exists g2. rewrite Ht in Ht1. simplify_eq.
    by split_and!.
Qed.

Lemma reset_phase w h g :
  grid_dims w h g ->
  ∃ g', foldM reset_cell g (cells w h) = Ok g' ∧
        grid_dims w h g' ∧
        ∀ x y, 0 ≤ x < w -> 0 ≤ y < h ->
               ∃ t, grid_get g x y = Ok t ∧ grid_get g' x y = Ok (reset_tile t).
Proof.
  intros Hd.
  destruct (foldM_inv reset_cell
    (fun pre g' =>
       grid_dims w h g' ∧
       ∀ x y, 0 ≤ x < w -> 0 ≤ y < h ->
              ∃ t, grid_get g x y = Ok t ∧
                   grid_get g' x y =
                     Ok (if bool_decide ((x, y) ∈ pre) then reset_tile t else t))
    (cells w h) g) as (g' & Hf & Hd' & Hg').
  - split; [done|]. intros x y Hx Hy.
    destruct (grid_get_dims w h g x y) as [t Ht]; [done..|].
    exists t. split; [done|]. rewrite bool_decide_eq_false_2; [done|set_solver].
  - intros pre [x y] g1 Hin [Hd1 Hg1]. apply elem_of_cells in Hin as [Hx Hy].
    destruct (reset_cell_spec w h g1 x y)
      as (t1 & g2 & Ht1 & Hr & Hd2 & Hg2 & Ho2); [done..|].
    exists g2. split; [done|]. split; [done|].
    intros x' y' Hx' Hy'.
    destruct (Hg1 x' y') as (t & Ht & Ht'); [done..|].
    exists t. split; [done|].
    destruct (decide ((x', y') = (x, y))) as [E|Hne].
    + simplify_eq. rewrite Hg2. f_equal.
      rewrite bool_decide_eq_true_2 by set_solver.
      rewrite Ht1 in Ht'. simplify_eq.
      case_bool_decide; [apply reset_tile_idemp|done].
    + rewrite Ho2 by done. rewrite Ht'. f_equal.
      rewrite (bool_decide_ext ((x', y') ∈ pre ++ [(x, y)]) ((x', y') ∈ pre)); [done|].
      set_solver.
  - exists g'. split; [done|]. split; [done|].
    intros x y Hx Hy. destruct (Hg' x y) as (t & Ht & Ht'); [done..|].
    exists t. split; [done|]. rewrite Ht'.
    rewrite bool_decide_eq_true_2; [done|]. by apply elem_of_cells.
Qed.

(** ** The flow loop *)

Lemma unvisited_le w h V : (unvisited w h V ≤ length (cells w h))%nat.
Proof. unfold unvisited. apply length_filter. Qed.

Lemma filter_not_elem_mono (l : list pos) (V : gset pos) c :
  (length (filter (fun c' => c' ∉ V ∪ {[c]}) l) ≤ length (filter (fun c' => c' ∉ V) l))%nat.
Proof.
  induction l as [|a l IH]; [done|].
  rewrite !filter_cons. repeat case_decide; simpl; try lia.
  exfalso. set_solver.
Qed.

Lemma filter_not_elem_lt (l : list pos) (V : gset pos) c :
  c ∈ l -> c ∉ V ->
  (length (filter (fun c' => c' ∉ V ∪ {[c]}) l) < length (filter (fun c' => c' ∉ V) l))%nat.
Proof.
  intros Hin Hc. induction l as [|a l IH]; [by apply elem_of_nil in Hin|].
  rewrite !filter_cons. pose proof (filter_not_elem_mono l V c) as Hm.
  apply elem_of_cons in Hin as [<-|Hin].
  - rewrite decide_False by set_solver. rewrite decide_True by done. simpl. lia.
  - specialize (IH Hin). repeat case_decide; simpl; try lia.
    exfalso. set_solver.
Qed.

Lemma unvisited_insert w h V c :
  c ∈ cells w h -> c ∉ V -> (unvisited w h (V ∪ {[c]}) < unvisited w h V)%nat.
Proof. apply filter_not_elem_lt. Qed.

Lemma get_neighbor_position_inj x y d d' :
  get_neighbor_position x y d = get_neighbor_position x y d' -> d = d'.
Proof. destruct d, d'; simpl; intros [=]; first [done | lia]. Qed.

Section flow.
Variable s0 : PuzzleGame.
Hypothesis Hok : game_ok s0.

Lemma s0_tile x y :
  valid s0 (x, y) ->
  ∃ t ds, grid_get (grid s0) x y = Ok t ∧ get_connections t = Ok ds.
Proof using Hok.
  intros Hv. destruct Hok as [[_ Ht] _].
  destruct (Ht _ Hv) as [ds Hc]. unfold conns in Hc. simpl in Hc.
  apply bind_Ok in Hc as (t & Hg & Hc). eauto.
Qed.

Lemma flow_state_valid s D x y :
  flow_state s0 s D -> is_valid_position s x y = is_valid_position s0 x y.
Proof. intros (Hw & Hh & _). unfold is_valid_position. by rewrite Hw, Hh. Qed.

Lemma flow_state_conns s D c :
  flow_state s0 s D -> valid s0 c -> conns s c = conns s0 c.
Proof.
  intros (_ & _ & _ & _ & _ & Hg) Hv. destruct c as [x y].
  destruct (Hg x y Hv) as (t & Ht & Ht'). unfold conns. simpl.
  rewrite Ht, Ht'. simpl.
  case_bool_decide; by rewrite ?get_connections_mark, get_connections_reset.
Qed.

Lemma flow_state_tile s D x y :
  flow_state s0 s D -> valid s0 (x, y) ->
  ∃ t0 t ds,
    grid_get (grid s0) x y = Ok t0 ∧ grid_get (grid s) x y = Ok t ∧
    t = (if bool_decide ((x, y) ∈ D) then mark_tile (reset_tile t0)
         else reset_tile t0) ∧
    get_connections t = Ok ds ∧ conns s0 (x, y) = Ok ds.
Proof using Hok.
  intros (_ & _ & _ & _ & _ & Hg) Hv.
  destruct (Hg x y Hv) as (t0 & Ht0 & Ht).
  destruct (s0_tile x y Hv) as (t0' & ds & Ht0' & Hds).
  rewrite Ht0 in Ht0'. simplify_eq.
  eexists t0', _, ds. split_and!; [done|exact Ht|done| |].
  - case_bool_decide; by rewrite ?get_connections_mark, get_connections_reset.
  - unfold conns. simpl. by rewrite Ht0.
Qed.

(** One direction of the popped cell [(x, y)]: either nothing changes
    and the neighbour is not a fresh reciprocating cell, or the
    neighbour is fresh, reciprocates and is appended. *)
Lemma flow_step_spec s D x y ds queue visited d :
  flow_state s0 s D -> valid s0 (x, y) ->
  conns s0 (x, y) = Ok ds -> d ∈ ds ->
  let c' := get_neighbor_position x y d in
  (flow_step s x y (queue, visited) d = Ok (queue, visited) ∧
   (reciprocal_edge s0 (x, y) c' -> c' ∈ visited))
  ∨
  (flow_step s x y (queue, visited) d = Ok (queue ++ [c'], visited ∪ {[c']}) ∧
   valid s0 c' ∧ (c' ∉ visited) ∧ reciprocal_edge s0 (x, y) c').
Proof using Hok.
  intros Hst Hv Hds Hd c'. subst c'. unfold flow_step.
  destruct (get_neighbor_position x y d) as [nx ny] eqn:Ec'.
  rewrite (flow_state_valid s D) by done.
  destruct (is_valid_position s0 nx ny) eqn:Hval; simpl.
  2:{ left. split; [done|]. intros (d' & ? & ? & _ & _ & Hc & Hv' & _).
      simpl in Hv'. congruence. }
  pose proof Hval as Hval'. apply is_valid_position_true in Hval'.
  case_bool_decide as Hvis; [left; by split|].
  destruct (flow_state_tile s D nx ny Hst Hval')
    as (t0 & t & ds' & Ht0 & Ht & _ & Hgc & Hc).
  rewrite Ht. simpl. unfold is_connected_to. rewrite Hgc. simpl.
  case_bool_decide as Hopp.
  - right. split; [done|]. split; [done|]. split; [done|].
    exists d, ds, ds'. simpl. by rewrite Ec'.
  - left. split; [done|].
    intros (d' & ds1 & ds2 & _ & _ & Hn & _ & Hc2 & Hin). exfalso.
    rewrite Hc in Hc2. simplify_eq. simpl in Hn. rewrite <- Ec' in Hn.
    apply get_neighbor_position_inj in Hn. by subst d'.
Qed.
Lemma mark_step s D x y :
  flow_state s0 s D -> valid s0 (x, y) ->
  ∃ t g1 g2 ds,
    grid_get (grid s) x y = Ok t ∧
    grid_modify (set_is_powered true) (grid s) x y = Ok g1 ∧
    grid_modify (set_used_in_solution true) g1 x y = Ok g2 ∧
    get_connections t = Ok ds ∧ conns s0 (x, y) = Ok ds ∧
    flow_state s0 (set_grid g2 s) (D ∪ {[ (x, y) ]}).
Proof using Hok.
  intros Hst Hv.
  destruct (flow_state_tile s D x y Hst Hv) as (t0 & t & ds & Ht0 & Ht & Et & Hgc & Hc).
  destruct Hst as (Hw & Hh & Hps & Hb & Hd & Hg).
  destruct Hv as [Hx Hy]. simpl in Hx, Hy.
  destruct (grid_modify_dims (set_is_powered true) _ _ (grid s) x y Hd Hx Hy)
    as (t1 & g1 & Ht1 & Hm1 & Hd1 & Hg1 & Ho1).
  destruct (grid_modify_dims (set_used_in_solution true) _ _ g1 x y Hd1 Hx Hy)
    as (t2 & g2 & Ht2 & Hm2 & Hd2 & Hg2 & Ho2).
  rewrite Ht in Ht1. rewrite Hg1 in Ht2. simplify_eq.
  eexists _, g1, g2, ds. split_and!; try done.
  unfold flow_state. simpl. split_and!; try done.
  intros x' y' Hv'. destruct (Hg x' y' Hv') as (t' & Ht' & Hs').
  exists t'. split; [done|]. simpl.
  destruct (decide ((x', y') = (x, y))) as [E|Hne].
  - simplify_eq. rewrite Hg2. f_equal.
    rewrite (bool_decide_eq_true_2 ((x, y) ∈ D ∪ {[(x, y)]})) by set_solver.
    assert (t' = t0) by congruence. subst t'.
    by case_bool_decide.
  - destruct Hv' as [Hx' Hy']. simpl in Hx', Hy'.
    rewrite Ho2, Ho1 by done. rewrite Hs'. f_equal.
    rewrite (bool_decide_ext ((x', y') ∈ D ∪ {[(x, y)]}) ((x', y') ∈ D)); [done|].
    set_solver.
Qed.

(** The loop over the open directions of the popped cell. *)
Lemma flow_dirs_spec s D x y ds queue visited :
  flow_state s0 s D -> valid s0 (x, y) -> conns s0 (x, y) = Ok ds ->
  ∃ new,
    foldM (flow_step s x y) (queue, visited) ds
      = Ok (queue ++ new, visited ∪ list_to_set new) ∧
    (∀ c', c' ∈ new -> valid s0 c' ∧ reciprocal_edge s0 (x, y) c') ∧
    (length new + unvisited (width s0) (height s0) (visited ∪ list_to_set new)
       ≤ unvisited (width s0) (height s0) visited)%nat ∧
    (∀ c', reciprocal_edge s0 (x, y) c' -> c' ∈ visited ∪ list_to_set new).
Proof using Hok.
  intros Hst Hv Hds.
  destruct (foldM_inv (flow_step s x y)
    (fun pre qv =>
       ∃ new, qv = (queue ++ new, visited ∪ list_to_set new) ∧
         (∀ c', c' ∈ new -> valid s0 c' ∧ reciprocal_edge s0 (x, y) c') ∧
         (length new + unvisited (width s0) (height s0) (visited ∪ list_to_set new)
            ≤ unvisited (width s0) (height s0) visited)%nat ∧
         (∀ d, d ∈ pre -> reciprocal_edge s0 (x, y) (get_neighbor_position x y d) ->
               get_neighbor_position x y d ∈ visited ∪ list_to_set new))
    ds (queue, visited)) as (qv & Hf & new & -> & Hnew & Hm & Hcl).
  - exists []. simpl. rewrite app_nil_r, (right_id_L ∅ (∪)).
    split_and!; [done| |lia|]; intros ? Hin; by apply elem_of_nil in Hin.
  - intros pre d qv Hd (new & -> & Hnew & Hm & Hcl).
    destruct (flow_step_spec s D x y ds (queue ++ new) (visited ∪ list_to_set new) d
                Hst Hv Hds Hd) as [[Hs Hin]|(Hs & Hv' & Hnin & He)].
    + eexists. split; [exact Hs|]. exists new. split_and!; try done.
      intros d' Hd'. apply elem_of_app in Hd' as [Hd'|Hd']; [by apply Hcl|].
      apply list_elem_of_singleton in Hd'. by subst d'.
    + eexists. split; [exact Hs|].
      exists (new ++ [get_neighbor_position x y d]).
      split_and!.
      * f_equal; [by rewrite app_assoc|]. set_solver.
      * intros c' Hc'. apply elem_of_app in Hc' as [Hc'|Hc']; [by apply Hnew|].
        apply list_elem_of_singleton in Hc'. by subst c'.
      * rewrite length_app. simpl.
        replace (visited ∪ list_to_set (new ++ [get_neighbor_position x y d]))
          with ((visited ∪ list_to_set new) ∪ {[get_neighbor_position x y d]})
          by set_solver.
        pose proof (unvisited_insert (width s0) (height s0) _ _
                      (proj2 (elem_of_cells_valid s0 _) Hv') Hnin).
        lia.
      * intros d' Hd' He'. apply elem_of_app in Hd' as [Hd'|Hd'].
        -- specialize (Hcl d' Hd' He'). set_solver.
        -- apply list_elem_of_singleton in Hd'. subst d'. set_solver.
  - exists new. split_and!; try done.
    intros c' He. pose proof He as (d & ds1 & ds2 & Hc1 & Hd & Hn & _).
    rewrite Hds in Hc1. simplify_eq. simpl in *. by apply Hcl.
Qed.
(** [while queue]: with enough fuel the loop ends, with the queue
    empty and the invariant kept. *)
Lemma flow_loop_spec fuel : ∀ s queue visited D,
  flow_inv s0 s queue visited D ->
  (length queue + unvisited (width s0) (height s0) visited ≤ fuel)%nat ->
  ∃ s' visited' D',
    flow_loop fuel s queue visited = Ok (s', visited') ∧
    flow_inv s0 s' [] visited' D' ∧ visited ⊆ visited'.
Proof using Hok.
  induction fuel as [|fuel IH]; intros s queue visited D Hinv Hfuel.
  - destruct queue as [|[x y] queue]; [|simpl in Hfuel; lia].
    exists s, visited, D. simpl. by split_and!.
  - destruct queue as [|[x y] queue].
    { exists s, visited, D. simpl. by split_and!. }
    destruct Hinv as (Hst & Hvq & Hvr & Hcl).
    assert (Hcv : (x, y) ∈ visited) by (apply Hvq; right; set_solver).
    destruct (Hvr _ Hcv) as [Hv Hreach].
    destruct (mark_step s D x y Hst Hv)
      as (t & g1 & g2 & ds & Ht & Hm1 & Hm2 & Hgc & Hc & Hst2).
    destruct (flow_dirs_spec (set_grid g2 s) _ x y ds queue visited Hst2 Hv Hc)
      as (new & Hf & Hnew & Hm & Hedges).
    destruct (IH (set_grid g2 s) (queue ++ new) (visited ∪ list_to_set new)
                 (D ∪ {[ (x, y) ]})) as (s' & visited' & D' & Hl & Hinv' & Hsub).
    + split_and!; [done| | |].
      * intros c. specialize (Hvq c). set_solver.
      * intros c Hc'. apply elem_of_union in Hc' as [Hc'|Hc']; [by apply Hvr|].
        apply elem_of_list_to_set in Hc'. destruct (Hnew c Hc') as [Hvc Hec].
        split; [done|]. by apply (reach_edge s0 (x, y)).
      * intros c c' Hc' He. apply elem_of_union in Hc' as [Hc'|Hc'].
        -- apply elem_of_union_l. by apply (Hcl c).
        -- apply elem_of_singleton in Hc'. subst c. by apply Hedges.
    + rewrite length_app. simpl in Hfuel. lia.
    + exists s', visited', D'. split_and!; [|done|set_solver].
      simpl. rewrite Ht. simpl. rewrite Hm1. simpl. rewrite Hm2. simpl.
      rewrite Hgc. simpl. rewrite Hf. simpl. exact Hl.
Qed.

(** The loop over the power sources. *)
Lemma flow_sources_spec fuel s :
  flow_state s0 s ∅ ->
  (length (cells (width s0) (height s0)) < fuel)%nat ->
  ∃ s' D,
    foldM (flow_from_source fuel) (s, ∅) (power_sources s0) = Ok (s', D) ∧
    flow_state s0 s' D ∧ ∀ c, c ∈ D ↔ reachable s0 c.
Proof using Hok.
  intros Hst Hfuel.
  destruct (foldM_inv (flow_from_source fuel)
    (fun pre sv =>
       ∃ D, flow_inv s0 (fst sv) [] (snd sv) D ∧ ∀ c, c ∈ pre -> c ∈ snd sv)
    (power_sources s0) (s, ∅)) as ([s' V] & Hf & D & Hinv & Hsrc).
  - exists ∅. simpl. split; [|intros c Hc; by apply elem_of_nil in Hc].
    split_and!; [done|set_solver|set_solver|set_solver].
  - intros pre c [s1 V1] Hc (D1 & (Hst1 & Hvq & Hvr & Hcl) & Hpre). simpl in *.
    destruct (flow_loop_spec fuel s1 [c] (V1 ∪ {[c]}) D1)
      as (s2 & V2 & D2 & Hl & Hinv2 & Hsub).
    + split_and!; [done| | |].
      * intros c'. specialize (Hvq c'). set_solver.
      * intros c' Hc'. apply elem_of_union in Hc' as [Hc'|Hc']; [by apply Hvr|].
        apply elem_of_singleton in Hc'. subst c'.
        split; [|by apply reach_source].
        destruct Hok as (_ & Hs & _). by apply Hs.
      * intros c1 c2 Hc1 He. apply elem_of_union_l. by apply (Hcl c1).
    + pose proof (unvisited_le (width s0) (height s0) (V1 ∪ {[c]})). simpl. lia.
    + exists (s2, V2). split; [exact Hl|]. exists D2. simpl. split; [done|].
      intros c' Hc'. apply elem_of_app in Hc' as [Hc'|Hc'].
      * apply Hsub, elem_of_union_l. by apply Hpre.
      * apply list_elem_of_singleton in Hc'. subst c'. set_solver.
  - simpl in *. destruct Hinv as (Hst' & Hvq & Hvr & Hcl).
    assert (HVD : ∀ c, c ∈ V ↔ c ∈ D).
    { intros c. rewrite Hvq. set_solver. }
    exists s', V. split; [done|]. split.
    + destruct Hst' as (? & ? & ? & ? & ? & Hg). split_and!; try done.
      intros x y Hv. destruct (Hg x y Hv) as (t & Ht & Ht'). exists t.
      split; [done|]. rewrite Ht'. f_equal.
      by rewrite (bool_decide_ext _ _ (HVD (x, y))).
    + intros c. split; [intros Hc; by apply Hvr|].
      induction 1 as [c Hc|c c' Hr IHr He]; [by apply Hsrc|].
      apply (Hcl c); [by apply HVD|done].
Qed.
End flow.

(** ** Leaks *)

Lemma all_res_spec2 {A : Type} (f : A -> res bool) (P Q : A -> Prop) l :
  (∀ a, a ∈ l -> ∃ b, f a = Ok b ∧ (b = true ↔ P a) ∧ (b = false ↔ Q a)) ->
  ∃ b, all_res f l = Ok b ∧
       (b = true ↔ ∀ a, a ∈ l -> P a) ∧
       (b = false ↔ ∃ a, a ∈ l ∧ Q a).
Proof.
  induction l as [|a l IH]; intros H; simpl.
  - exists true. split_and!; [done| |].
    + split; [|done]. intros _ a Ha. by apply elem_of_nil in Ha.
    + split; [done|]. intros (a & Ha & _). by apply elem_of_nil in Ha.
  - assert (Ha : a ∈ a :: l) by apply list_elem_of_here.
    destruct (H a Ha) as (b & Eb & HP & HQ). rewrite Eb. simpl.
    destruct b.
    + destruct IH as (b' & Eb' & HP' & HQ').
      { intros a' Ha'. apply H. by apply list_elem_of_further. }
      exists b'. split_and!; [done| |].
      * rewrite HP'. split.
        -- intros Hall a' Ha'. apply elem_of_cons in Ha' as [->|Ha'].
           ++ by apply HP.
           ++ by apply Hall.
        -- intros Hall a' Ha'. apply Hall. by apply list_elem_of_further.
      * rewrite HQ'. split.
        -- intros (a' & Ha' & Hq). exists a'. split; [by apply list_elem_of_further|done].
        -- intros (a' & Ha' & Hq). apply elem_of_cons in Ha' as [->|Ha'].
           ++ apply HQ in Hq. discriminate.
           ++ by exists a'.
    + exists false. split_and!; [done| |].
      * split; [done|]. intros Hall. by apply HP, Hall.
      * split; [|done]. intros _. exists a. split; [done|]. by apply HQ.
Qed.

Lemma check_direction_spec s x y d :
  grid_wf s ->
  ∃ b, check_direction s x y d = Ok b ∧
       (b = true ↔ dir_ok s x y d) ∧ (b = false ↔ dir_leak s x y d).
Proof.
  intros [Hd Ht]. unfold check_direction, dir_ok, dir_leak.
  destruct (get_neighbor_position x y d) as [nx ny]. simpl.
  destruct (is_valid_position s nx ny) eqn:Hv; simpl.
  2:{ apply is_valid_position_false in Hv. exists false. split_and!; [done| |].
      - split; [done|]. by intros [? _].
      - split; [|done]. intros _. by left. }
  apply is_valid_position_true in Hv.
  destruct (Ht _ Hv) as [dsn Hc]. unfold conns in Hc. simpl in Hc.
  apply bind_Ok in Hc as (n & Hn & Hc). rewrite Hn. simpl.
  case_bool_decide as Hty.
  - exists false. split_and!; [done| |].
    + split; [done|]. intros (_ & n' & ? & Hn' & Hne & _).
      by simplify_eq.
    + split; [|done]. intros _. right. exists n. split; [done|]. by left.
  - unfold is_connected_to. rewrite Hc. simpl.
    eexists. split; [done|]. split.
    + rewrite bool_decide_eq_true. split.
      * intros Hin. split; [done|]. by exists n, dsn.
      * intros (_ & n' & dsn' & Hn' & _ & Hc' & Hin).
        simplify_eq. rewrite Hc in Hc'. by simplify_eq.
    + rewrite bool_decide_eq_false. split.
      * intros Hin. right. exists n. split; [done|]. right. by exists dsn.
      * intros [Hnv|(n' & Hn' & [He|(dsn' & Hc' & Hin)])]; [done| |]; simplify_eq.
        rewrite Hc in Hc'. by simplify_eq.
Qed.

Lemma check_cell_spec s c :
  grid_wf s -> valid s c ->
  ∃ b, check_cell s c = Ok b ∧ (b = true ↔ cell_ok s c) ∧ (b = false ↔ cell_leak s c).
Proof.
  intros Hwf Hv. pose proof Hwf as [Hd Ht]. destruct c as [x y].
  unfold check_cell, cell_ok, cell_leak. simpl.
  destruct (Ht _ Hv) as [ds Hc]. unfold conns in Hc. simpl in Hc.
  apply bind_Ok in Hc as (t & Hg & Hc). rewrite Hg. simpl.
  destruct (is_powered t) eqn:Hp.
  - rewrite Hc. simpl.
    destruct (all_res_spec2 (check_direction s x y) (dir_ok s x y) (dir_leak s x y) ds)
      as (b & Eb & HP & HQ).
    { intros d _. by apply check_direction_spec. }
    exists b. split; [done|]. split.
    + rewrite HP. split.
      * intros Hall t' ds' d Ht' _ Hc' Hin.
        simplify_eq. rewrite Hc in Hc'. simplify_eq. by apply Hall.
      * intros Hall d Hin. by apply (Hall t ds d).
    + rewrite HQ. split.
      * intros (d & Hin & Hl). by exists t, ds, d.
      * intros (t' & ds' & d & Ht' & _ & Hc' & Hin & Hl).
        simplify_eq. rewrite Hc in Hc'. simplify_eq. by exists d.
  - exists true. split; [done|]. split.
    + split; [|done]. intros _ t' ds' d Ht' Hp'.
      simplify_eq. congruence.
    + split; [done|]. intros (t' & ds' & d & Ht' & Hp' & _).
      simplify_eq. congruence.
Qed.

Lemma check_no_leaks_spec s :
  grid_wf s ->
  ∃ b, check_no_leaks s = Ok b ∧ (b = true ↔ no_leaks s) ∧ (b = false ↔ has_leak s).
Proof.
  intros Hwf. unfold check_no_leaks, no_leaks, has_leak.
  destruct (all_res_spec2 (check_cell s) (cell_ok s) (cell_leak s)
              (cells (width s) (height s))) as (b & Eb & HP & HQ).
  { intros c Hc. apply check_cell_spec; [done|]. by apply elem_of_cells_valid. }
  exists b. split; [done|]. split.
  - rewrite HP. split; intros H c Hc; apply H; by apply elem_of_cells_valid.
  - rewrite HQ. split; intros (c & Hc & Hl); exists c;
      (split; [by apply elem_of_cells_valid|done]).
Qed.

(** ** The solver as a whole *)

Lemma flow_state_grid_wf s0 s D :
  game_ok s0 -> flow_state s0 s D -> grid_wf s.
Proof.
  intros Hok Hst. pose proof Hst as (Hw & Hh & _ & _ & Hd & _). split.
  - by rewrite Hw, Hh.
  - intros c Hv. assert (Hv0 : valid s0 c).
    { unfold valid in *. by rewrite <- Hw, <- Hh. }
    rewrite (flow_state_conns s0 s D c Hst Hv0).
    destruct c as [x y]. destruct (s0_tile s0 Hok x y Hv0) as (t & ds & Ht & Hds).
    exists ds. unfold conns. simpl. by rewrite Ht.
Qed.

(** The whole of [update_power_flow]: with fuel above the number of
    cells it returns; the tiles are the reset tiles of the input, marked
    exactly on the cells reachable from a source; [is_solved] is the
    conjunction of the three predicates on that final grid. *)
Lemma update_power_flow_spec fuel s0 :
  game_ok s0 ->
  (length (cells (width s0) (height s0)) < fuel)%nat ->
  ∃ s' D,
    update_power_flow fuel s0 = Ok (s', is_solved s') ∧
    flow_state s0 s' D ∧ (∀ c, c ∈ D ↔ reachable s0 c) ∧
    (is_solved s' = true ↔
       (∀ c, c ∈ bulbs s' ->
             ∃ t, grid_get (grid s') (fst c) (snd c) = Ok t ∧ is_powered t = true) ∧
       (∀ c, valid s' c ->
             ∃ t, grid_get (grid s') (fst c) (snd c) = Ok t ∧
                  (used_in_solution t = true ∨ tile_type t = EMPTY)) ∧
       check_no_leaks s' = Ok true).
Proof.
  intros Hok Hfuel. pose proof Hok as ([Hg _] & Hsrc & Hbulbs).
  destruct (reset_phase _ _ (grid s0) Hg) as (g1 & Hr & Hd1 & Hg1).
  assert (Hst1 : flow_state s0 (set_grid g1 s0) ∅).
  { split_and!; try done. intros x y [Hx Hy]. simpl in *.
    destruct (Hg1 x y Hx Hy) as (t & Ht & Ht'). exists t. split; [done|].
    rewrite Ht'. by rewrite bool_decide_eq_false_2 by set_solver. }
  destruct (flow_sources_spec s0 Hok fuel _ Hst1 Hfuel) as (s2 & D & Hf & Hst2 & HD).
  pose proof Hst2 as (Hw2 & Hh2 & Hps2 & Hb2 & Hd2 & Hg2).
  pose proof (flow_state_grid_wf s0 s2 D Hok Hst2) as Hwf2.
  assert (Hget : ∀ c, valid s0 c -> ∃ t, grid_get (grid s2) (fst c) (snd c) = Ok t).
  { intros [x y] Hv. destruct (Hg2 x y Hv) as (t & _ & Ht). eauto. }
  destruct (all_res_spec
    (fun '(x, y) => tile ← grid_get (grid s2) x y; Ok (is_powered tile))
    (fun c => ∃ t, grid_get (grid s2) (fst c) (snd c) = Ok t ∧ is_powered t = true)
    (bulbs s2)) as (b1 & Eb1 & Hb1).
  { intros [x y] Hc. rewrite Hb2 in Hc. destruct (Hget _ (Hbulbs _ Hc)) as [t Ht].
    simpl in Ht. rewrite Ht. simpl. eexists. split; [done|]. split.
    - intros Hp. by exists t.
    - intros (t' & Ht' & Hp). simpl in Ht'. congruence. }
  destruct (all_res_spec
    (fun '(x, y) =>
       tile ← grid_get (grid s2) x y;
       Ok (used_in_solution tile || bool_decide (tile_type tile = EMPTY)))
    (fun c => ∃ t, grid_get (grid s2) (fst c) (snd c) = Ok t ∧
                   (used_in_solution t = true ∨ tile_type t = EMPTY))
    (cells (width s2) (height s2))) as (b2 & Eb2 & Hb2').
  { intros [x y] Hc. apply elem_of_cells_valid in Hc.
    assert (Hv0 : valid s0 (x, y)) by (unfold valid in *; by rewrite <- Hw2, <- Hh2).
    destruct (Hget _ Hv0) as [t Ht]. simpl in Ht. rewrite Ht. simpl.
    eexists. split; [done|]. rewrite orb_true_iff, bool_decide_eq_true. split.
    - intros Hp. by exists t.
    - intros (t' & Ht' & Hp). simpl in Ht'. congruence. }
  destruct (check_no_leaks_spec s2 Hwf2) as (b3 & Eb3 & _).
  exists (set_is_solved (b1 && b2 && b3) s2), D. split_and!.
  - unfold update_power_flow. rewrite Hr. simpl.
    rewrite Hf. simpl. rewrite Eb1. simpl. rewrite Eb2. simpl. rewrite Eb3. done.
  - done.
  - done.
  - change (check_no_leaks (set_is_solved (b1 && b2 && b3) s2)) with (check_no_leaks s2).
    simpl. rewrite !andb_true_iff, Hb1, Hb2', Eb3.
    split.
    + intros [[Hl Hu] ->]. split_and!; [done| |done].
      intros c Hc. apply Hu. by apply elem_of_cells_valid.
    + intros (Hl & Hu & [= ->]). split_and!; [done| |done].
      intros c Hc. apply Hu. by apply elem_of_cells_valid in Hc.
Qed.

(** Reachability only depends on the board and on the set of sources. *)
Lemma reachable_ext s1 s2 c :
  width s1 = width s2 -> height s1 = height s2 -> grid s1 = grid s2 ->
  (∀ c, c ∈ power_sources s1 -> c ∈ power_sources s2) ->
  reachable s1 c -> reachable s2 c.
Proof.
  intros Hw Hh Hg Hs. induction 1 as [c Hc|c c' Hr IH He].
  - apply reach_source. by apply Hs.
  - apply (reach_edge s2 c c'); [done|].
    destruct He as (d & ds & ds' & H1 & H2 & H3 & H4 & H5 & H6).
    exists d, ds, ds'. unfold conns, is_valid_position in *.
    rewrite <- Hw, <- Hh, <- Hg. by split_and!.
Qed.

(** The tile that [update_power_flow] leaves at a cell. *)
Lemma flow_state_flags s0 s D x y :
  flow_state s0 s D -> valid s0 (x, y) ->
  ∃ t0 t, grid_get (grid s0) x y = Ok t0 ∧ grid_get (grid s) x y = Ok t ∧
    tile_type t = tile_type t0 ∧
    (used_in_solution t = true ↔ (x, y) ∈ D) ∧
    (tile_type t ≠ POWER_SOURCE -> is_powered t = used_in_solution t) ∧
    ((x, y) ∈ D -> is_powered t = true).
Proof.
  intros (_ & _ & _ & _ & _ & Hg) Hv. destruct (Hg x y Hv) as (t0 & Ht0 & Ht).
  eexists t0, _. split; [done|]. split; [exact Ht|].
  unfold reset_tile. case_bool_decide as HD; case_bool_decide as Hty; simpl;
    split_and!; try done; try (split; done).
Qed.

(** ** Reachability, the win condition and the flags *)

(** C1. After [update_power_flow] on a well-formed game, the tile of a
    cell has [used_in_solution] set exactly when the cell is reachable
    from a power-source cell along reciprocally open edges; hence the
    resulting grid is the same for every order of the source list. *)
Theorem update_power_flow_reachable (fuel : nat) (s : PuzzleGame) :
  game_okb s = true ->
  (length (cells (width s) (height s)) < fuel)%nat ->
  ∃ s' b,
    update_power_flow fuel s = Ok (s', b) ∧
    (∀ x y, valid s (x, y) ->
       ∃ t, grid_get (grid s') x y = Ok t ∧
            (used_in_solution t = true ↔ reachable s (x, y))) ∧
    (∀ sources2, sources2 ≡ₚ power_sources s ->
       ∃ s2' b2,
         update_power_flow fuel (set_power_sources sources2 s) = Ok (s2', b2) ∧
         ∀ x y, valid s (x, y) ->
                grid_get (grid s2') x y = grid_get (grid s') x y).
Proof.
  intros Hok Hfuel. apply game_okb_ok in Hok.
  destruct (update_power_flow_spec fuel s Hok Hfuel) as (s' & D & Hu & Hst & HD & _).
  exists s', (is_solved s'). split; [done|]. split.
  - intros x y Hv.
    destruct (flow_state_flags s s' D x y Hst Hv) as (t0 & t & _ & Ht & _ & Hused & _).
    exists t. split; [done|]. by rewrite Hused, HD.
  - intros sources2 Hperm.
    assert (Hok2 : game_ok (set_power_sources sources2 s)).
    { destruct Hok as (Hwf & Hs & Hb). split_and!; [done| |done].
      simpl. intros c Hc. apply Hs. by rewrite <- Hperm. }
    destruct (update_power_flow_spec fuel _ Hok2 Hfuel)
      as (s2' & D2 & Hu2 & Hst2 & HD2 & _).
    exists s2', (is_solved s2'). split; [done|].
    intros x y Hv.
    destruct Hst as (_ & _ & _ & _ & _ & Hg).
    destruct Hst2 as (_ & _ & _ & _ & _ & Hg2).
    destruct (Hg x y Hv) as (t & Ht & ->).
    destruct (Hg2 x y Hv) as (t2 & Ht2 & ->). simpl in Ht2.
    rewrite Ht in Ht2. simplify_eq. f_equal.
    rewrite (bool_decide_ext ((x, y) ∈ D2) ((x, y) ∈ D)); [done|].
    rewrite HD, HD2. split; apply reachable_ext; try done; simpl; intros c Hc.
    + by rewrite <- Hperm.
    + by rewrite Hperm.
Qed.

Lemma update_power_flow_reachable_witness :
  ∃ s' b,
    update_power_flow 4 demo_game = Ok (s', b) ∧
    (∀ x y, valid demo_game (x, y) ->
       ∃ t, grid_get (grid s') x y = Ok t ∧
            (used_in_solution t = true ↔ reachable demo_game (x, y))) ∧
    (∀ sources2, sources2 ≡ₚ power_sources demo_game ->
       ∃ s2' b2,
         update_power_flow 4 (set_power_sources sources2 demo_game) = Ok (s2', b2) ∧
         ∀ x y, valid demo_game (x, y) ->
                grid_get (grid s2') x y = grid_get (grid s') x y).
Proof.
  apply (update_power_flow_reachable 4 demo_game); [reflexivity|cbv; lia].
Defined.

(** C2. [check_no_leaks] returns true exactly when every open direction
    of every powered tile points to an in-bounds, non-Empty neighbour that
    lists the opposite direction; it returns false exactly when some
    powered tile has an open direction ending at the boundary, at an Empty
    tile or at a neighbour that does not reciprocate. *)
Theorem check_no_leaks_iff (s : PuzzleGame) :
  grid_okb (width s) (height s) (grid s) = true ->
  ∃ b, check_no_leaks s = Ok b ∧
       (b = true ↔
          ∀ x y t ds d,
            valid s (x, y) -> grid_get (grid s) x y = Ok t -> is_powered t = true ->
            get_connections t = Ok ds -> d ∈ ds -> dir_ok s x y d) ∧
       (b = false ↔
          ∃ x y t ds d,
            valid s (x, y) ∧ grid_get (grid s) x y = Ok t ∧ is_powered t = true ∧
            get_connections t = Ok ds ∧ d ∈ ds ∧ dir_leak s x y d).
Proof.
  intros Hg. destruct (check_no_leaks_spec s (grid_okb_wf s Hg)) as (b & Eb & HP & HQ).
  exists b. split; [done|]. split.
  - rewrite HP. unfold no_leaks, cell_ok. split.
    + intros H x y t ds d Hv Ht Hp Hc Hd. by apply (H (x, y) Hv t ds d).
    + intros H [x y] Hv t ds d Ht Hp Hc Hd. by apply (H x y t ds d).
  - rewrite HQ. unfold has_leak, cell_leak. split.
    + intros ([x y] & Hv & t & ds & d & H). by exists x, y, t, ds, d.
    + intros (x & y & t & ds & d & Hv & H). exists (x, y). split; [done|].
      by exists t, ds, d.
Qed.

Lemma check_no_leaks_iff_witness :
  ∃ b, check_no_leaks demo_lit = Ok b ∧
       (b = true ↔
          ∀ x y t ds d,
            valid demo_lit (x, y) -> grid_get (grid demo_lit) x y = Ok t ->
            is_powered t = true ->
            get_connections t = Ok ds -> d ∈ ds -> dir_ok demo_lit x y d) ∧
       (b = false ↔
          ∃ x y t ds d,
            valid demo_lit (x, y) ∧ grid_get (grid demo_lit) x y = Ok t ∧
            is_powered t = true ∧
            get_connections t = Ok ds ∧ d ∈ ds ∧ dir_leak demo_lit x y d).
Proof. apply (check_no_leaks_iff demo_lit). reflexivity. Defined.

(** C3. [update_power_flow] returns and stores [is_solved]. The state it
    returns is the propagation result of the input: same dimensions,
    source list and bulb list, and every tile is the input tile with its
    flags reset and then set where the cell is reachable from a listed
    source. On that state [is_solved] is true exactly when every bulb cell
    is powered, every tile is Empty or used in the solution, and
    [check_no_leaks] returns true. *)
Theorem update_power_flow_is_solved (fuel : nat) (s : PuzzleGame) :
  game_okb s = true ->
  (length (cells (width s) (height s)) < fuel)%nat ->
  ∃ s' b,
    update_power_flow fuel s = Ok (s', b) ∧ is_solved s' = b ∧
    width s' = width s ∧ height s' = height s ∧
    power_sources s' = power_sources s ∧ bulbs s' = bulbs s ∧
    (∀ x y, valid s (x, y) ->
       ∃ t t', grid_get (grid s) x y = Ok t ∧ grid_get (grid s') x y = Ok t' ∧
               (reachable s (x, y) -> t' = mark_tile (reset_tile t)) ∧
               (¬ reachable s (x, y) -> t' = reset_tile t)) ∧
    (b = true ↔
       (∀ c, c ∈ bulbs s' ->
             ∃ t, grid_get (grid s') (fst c) (snd c) = Ok t ∧ is_powered t = true) ∧
       (∀ c, valid s' c ->
             ∃ t, grid_get (grid s') (fst c) (snd c) = Ok t ∧
                  (used_in_solution t = true ∨ tile_type t = EMPTY)) ∧
       check_no_leaks s' = Ok true).
Proof.
  intros Hok Hfuel. apply game_okb_ok in Hok.
  destruct (update_power_flow_spec fuel s Hok Hfuel) as (s' & D & Hu & Hst & HD & Hs).
  pose proof Hst as (Hw & Hh & Hps & Hb & _ & Hg).
  exists s', (is_solved s'). split_and!; try done.
  intros x y Hv. destruct (Hg x y Hv) as (t & Ht & Ht').
  eexists t, _. split_and!; [done|exact Ht'| |].
  - intros Hr. by rewrite bool_decide_eq_true_2 by (by apply HD).
  - intros Hr. rewrite bool_decide_eq_false_2; [done|]. intros Hin. by apply Hr, HD.
Qed.

Lemma update_power_flow_is_solved_witness :
  ∃ s' b,
    update_power_flow 4 demo_game = Ok (s', b) ∧ is_solved s' = b ∧
    width s' = width demo_game ∧ height s' = height demo_game ∧
    power_sources s' = power_sources demo_game ∧ bulbs s' = bulbs demo_game ∧
    (∀ x y, valid demo_game (x, y) ->
       ∃ t t', grid_get (grid demo_game) x y = Ok t ∧ grid_get (grid s') x y = Ok t' ∧
               (reachable demo_game (x, y) -> t' = mark_tile (reset_tile t)) ∧
               (¬ reachable demo_game (x, y) -> t' = reset_tile t)) ∧
    (b = true ↔
       (∀ c, c ∈ bulbs s' ->
             ∃ t, grid_get (grid s') (fst c) (snd c) = Ok t ∧ is_powered t = true) ∧
       (∀ c, valid s' c ->
             ∃ t, grid_get (grid s') (fst c) (snd c) = Ok t ∧
                  (used_in_solution t = true ∨ tile_type t = EMPTY)) ∧
       check_no_leaks s' = Ok true).
Proof.
  apply (update_power_flow_is_solved 4 demo_game); [reflexivity|cbv; lia].
Defined.

(** C10. Right after [update_power_flow], a tile that is not a power
    source has [is_powered] equal to [used_in_solution], both set exactly
    on the cells the propagation reached; the tiles of the cells listed in
    [power_sources] have both flags set. *)
Theorem update_power_flow_flags (fuel : nat) (s : PuzzleGame) :
  game_okb s = true ->
  (length (cells (width s) (height s)) < fuel)%nat ->
  ∃ s' b,
    update_power_flow fuel s = Ok (s', b) ∧
    (∀ x y, valid s (x, y) ->
       ∃ t, grid_get (grid s') x y = Ok t ∧
            (tile_type t ≠ POWER_SOURCE ->
             is_powered t = used_in_solution t ∧
             (used_in_solution t = true ↔ reachable s (x, y)))) ∧
    (∀ x y, (x, y) ∈ power_sources s ->
       ∃ t, grid_get (grid s') x y = Ok t ∧
            is_powered t = true ∧ used_in_solution t = true).
Proof.
  intros Hok Hfuel. apply game_okb_ok in Hok.
  destruct (update_power_flow_spec fuel s Hok Hfuel) as (s' & D & Hu & Hst & HD & _).
  exists s', (is_solved s'). split; [done|]. split.
  - intros x y Hv.
    destruct (flow_state_flags s s' D x y Hst Hv)
      as (t0 & t & _ & Ht & _ & Hused & Heq & _).
    exists t. split; [done|]. intros Hty. split; [by apply Heq|].
    by rewrite Hused, HD.
  - intros x y Hsrc.
    assert (Hv : valid s (x, y)).
    { destruct Hok as (_ & Hs & _). by apply Hs. }
    destruct (flow_state_flags s s' D x y Hst Hv)
      as (t0 & t & _ & Ht & _ & Hused & _ & Hpow).
    assert (HinD : (x, y) ∈ D) by (apply HD; by apply reach_source).
    exists t. split; [done|]. split; [by apply Hpow|by apply Hused].
Qed.

Lemma update_power_flow_flags_witness :
  ∃ s' b,
    update_power_flow 4 demo_game = Ok (s', b) ∧
    (∀ x y, valid demo_game (x, y) ->
       ∃ t, grid_get (grid s') x y = Ok t ∧
            (tile_type t ≠ POWER_SOURCE ->
             is_powered t = used_in_solution t ∧
             (used_in_solution t = true ↔ reachable demo_game (x, y)))) ∧
    (∀ x y, (x, y) ∈ power_sources demo_game ->
       ∃ t, grid_get (grid s') x y = Ok t ∧
            is_powered t = true ∧ used_in_solution t = true).
Proof.
  apply (update_power_flow_flags 4 demo_game); [reflexivity|cbv; lia].
Defined.

(** ** Tiles *)

Lemma ROTATIONS_pos tt : ROTATIONS tt = 1 ∨ ROTATIONS tt > 1.
Proof. destruct tt; simpl; lia. Qed.

Lemma set_rotation_same t : set_rotation (rotation t) t = t.
Proof. by destruct t. Qed.

Lemma rotate_tile_inv t : tile_inv t -> tile_inv (fst (rotate t)).
Proof.
  intros [Hm Hr]. unfold rotate. case_bool_decide; [|done]. simpl.
  split; simpl; [done|]. rewrite Hm. apply Z.mod_pos_bound. lia.
Qed.

Lemma rotate_n_many n : ∀ t,
  max_rotation t > 1 -> 0 ≤ rotation t < max_rotation t ->
  rotate_n n t = set_rotation ((rotation t + Z.of_nat n) mod max_rotation t) t.
Proof.
  induction n as [|n IH]; intros t Hm Hr.
  - simpl. rewrite Z.add_0_r, Z.mod_small by done. by rewrite set_rotation_same.
  - cbn [rotate_n]. unfold rotate. rewrite bool_decide_eq_true_2 by done.
    cbn [fst]. rewrite IH; cbn [max_rotation rotation set_rotation]; [|done|].
    + unfold set_rotation. simpl. f_equal.
      rewrite Zplus_mod_idemp_l. f_equal. lia.
    + apply Z.mod_pos_bound. lia.
Qed.

Lemma rotate_n_fixed n : ∀ t, ¬ max_rotation t > 1 -> rotate_n n t = t.
Proof.
  induction n as [|n IH]; intros t Hm; [done|].
  cbn [rotate_n]. unfold rotate. rewrite bool_decide_eq_false_2 by done.
  by apply IH.
Qed.

(** C6. On a tile that satisfies the data-model invariant, [rotate]
    advances the rotation by one modulo the variant's cardinality and
    returns true when the cardinality exceeds 1, and changes nothing and
    returns false when it is 1; as many calls as the cardinality restore
    the tile, hence its rotation and its open directions. *)
Theorem rotate_closure (t : Tile) :
  tile_inv t ->
  (ROTATIONS (tile_type t) > 1 ->
   rotate t = (set_rotation ((rotation t + 1) mod ROTATIONS (tile_type t)) t, true)) ∧
  (ROTATIONS (tile_type t) = 1 -> rotate t = (t, false)) ∧
  rotation (rotate_n (Z.to_nat (ROTATIONS (tile_type t))) t) = rotation t ∧
  get_connections (rotate_n (Z.to_nat (ROTATIONS (tile_type t))) t) = get_connections t ∧
  rotate_n (Z.to_nat (ROTATIONS (tile_type t))) t = t.
Proof.
  intros [Hm Hr].
  assert (Hcycle : rotate_n (Z.to_nat (ROTATIONS (tile_type t))) t = t).
  { destruct (ROTATIONS_pos (tile_type t)) as [H1|Hgt].
    - apply rotate_n_fixed. lia.
    - rewrite rotate_n_many by lia. rewrite Hm, Z2Nat.id by lia.
      rewrite <- (Z.mul_1_l (ROTATIONS (tile_type t))) at 1.
      rewrite Z.mod_add by lia. rewrite Z.mod_small by done.
      by rewrite set_rotation_same. }
  split_and!.
  - intros Hgt. unfold rotate. rewrite Hm. by rewrite bool_decide_eq_true_2.
  - intros H1. unfold rotate. rewrite Hm, H1. by rewrite bool_decide_eq_false_2.
  - by rewrite Hcycle.
  - by rewrite Hcycle.
  - done.
Qed.

Lemma rotate_closure_witness :
  let t := Tile_make ELBOW 3 None in
  (ROTATIONS (tile_type t) > 1 ->
   rotate t = (set_rotation ((rotation t + 1) mod ROTATIONS (tile_type t)) t, true)) ∧
  (ROTATIONS (tile_type t) = 1 -> rotate t = (t, false)) ∧
  rotation (rotate_n (Z.to_nat (ROTATIONS (tile_type t))) t) = rotation t ∧
  get_connections (rotate_n (Z.to_nat (ROTATIONS (tile_type t))) t) = get_connections t ∧
  rotate_n (Z.to_nat (ROTATIONS (tile_type t))) t = t.
Proof.
  apply (rotate_closure (Tile_make ELBOW 3 None)).
  split; [reflexivity|]. change (0 ≤ 3 < 4). lia.
Defined.

(** Case analysis on an integer known to lie in a literal interval. *)
Ltac enum_Z x :=
  match goal with
  | H : ?a ≤ x ≤ ?b |- _ =>
      first
        [ exfalso; lia
        | destruct (decide (x = a)) as [->|?];
          [ clear H
          | let a' := eval compute in (a + 1) in
            assert (a' ≤ x ≤ b) by lia; clear H; enum_Z x ] ]
  end.

Lemma get_connections_other t entry :
  tile_type t ≠ POWER_SOURCE -> 0 ≤ rotation t ->
  CONNECTION_MAPS (tile_type t) !! Z.to_nat (rotation t) = Some entry ->
  get_connections t = Ok entry.
Proof.
  intros Hty Hr He. unfold get_connections.
  rewrite bool_decide_eq_false_2 by done. by apply py_get_valid.
Qed.

(** C7. A power source with pattern [p] in 0..12 and rotation [r] in
    0..3 has as connections the directions of base pattern [p], each
    turned by [(d + r) mod 4] on the ordinals Up=0, Right=1, Down=2,
    Left=3; any other tile has the table entry of its variant and
    rotation; the opposite of [d] is [(d + 2) mod 4]. *)
Theorem get_connections_tables (t : Tile) (d : Direction) :
  (∀ p, tile_type t = POWER_SOURCE -> power_connection_pattern t = Some p ->
        0 ≤ p ≤ 12 -> 0 ≤ rotation t ≤ 3 ->
        ∃ base ds,
          POWER_SOURCE_CONNECTIONS !! Z.to_nat p = Some base ∧
          get_connections t = Ok ds ∧
          Direction_value <$> ds =
            (fun d' => (Direction_value d' + rotation t) mod 4) <$> base) ∧
  (∀ entry, tile_type t ≠ POWER_SOURCE -> 0 ≤ rotation t ->
            CONNECTION_MAPS (tile_type t) !! Z.to_nat (rotation t) = Some entry ->
            get_connections t = Ok entry) ∧
  Direction_value (get_opposite_direction d) = (Direction_value d + 2) mod 4.
Proof.
  split_and!.
  - intros p Hty Hp Hpr Hr. destruct t as [tt m r pw us pat]. simpl in *. subst.
    unfold get_connections. simpl.
    enum_Z p; enum_Z r; (eexists _, _; split_and!; reflexivity).
  - intros entry. apply get_connections_other.
  - by destruct d.
Qed.

Lemma get_connections_tables_witness :
  (∃ base ds,
     POWER_SOURCE_CONNECTIONS !! Z.to_nat 9 = Some base ∧
     get_connections (set_rotation 3 (Tile_make POWER_SOURCE 0 (Some 9))) = Ok ds ∧
     Direction_value <$> ds = (fun d' => (Direction_value d' + 3) mod 4) <$> base) ∧
  get_connections (Tile_make T_JUNCTION 2 None) = Ok [LEFT; RIGHT; UP].
Proof.
  split.
  - apply (proj1 (get_connections_tables
                    (set_rotation 3 (Tile_make POWER_SOURCE 0 (Some 9))) UP) 9);
      [reflexivity|reflexivity|lia|simpl; lia].
  - apply (proj1 (proj2 (get_connections_tables (Tile_make T_JUNCTION 2 None) UP)));
      [discriminate|by vm_compute|reflexivity].
Defined.

(** ** The connectivity finalizer *)

Lemma connecting_step_spec s x y acc d :
  grid_wf s ->
  ∃ b, connecting_step s x y acc d = Ok (acc ++ pick b d) ∧
       (b = true ↔ dir_ok s x y d).
Proof.
  intros [Hd Ht]. unfold connecting_step, dir_ok.
  destruct (get_neighbor_position x y d) as [nx ny]. simpl.
  destruct (is_valid_position s nx ny) eqn:Hv.
  2:{ apply is_valid_position_false in Hv. exists false. simpl.
      rewrite app_nil_r. split; [done|]. split; [done|]. by intros [? _]. }
  apply is_valid_position_true in Hv.
  destruct (Ht _ Hv) as [dsn Hc]. unfold conns in Hc. simpl in Hc.
  apply bind_Ok in Hc as (n & Hn & Hc). rewrite Hn. simpl.
  case_bool_decide as Hty.
  - unfold is_connected_to. rewrite Hc. simpl.
    exists (bool_decide (get_opposite_direction d ∈ dsn)). split.
    + case_bool_decide; simpl; [done|by rewrite app_nil_r].
    + rewrite bool_decide_eq_true. split.
      * intros Hin. split; [done|]. by exists n, dsn.
      * intros (_ & n' & dsn' & Hn' & _ & Hc' & Hin). simplify_eq.
        rewrite Hc in Hc'. by simplify_eq.
  - exists false. simpl. rewrite app_nil_r. split; [done|]. split; [done|].
    intros (_ & n' & dsn' & Hn' & Hne & _). by simplify_eq.
Qed.

Lemma connecting_neighbors_spec s x y :
  grid_wf s ->
  ∃ bu br bd bl,
    connecting_neighbors s x y = Ok (subset_dirs bu br bd bl) ∧
    (bu = true ↔ dir_ok s x y UP) ∧ (br = true ↔ dir_ok s x y RIGHT) ∧
    (bd = true ↔ dir_ok s x y DOWN) ∧ (bl = true ↔ dir_ok s x y LEFT).
Proof.
  intros Hwf. unfold connecting_neighbors, all_directions, subset_dirs.
  destruct (connecting_step_spec s x y [] UP Hwf) as (bu & E1 & H1).
  destruct (connecting_step_spec s x y ([] ++ pick bu UP) RIGHT Hwf) as (br & E2 & H2).
  destruct (connecting_step_spec s x y (([] ++ pick bu UP) ++ pick br RIGHT) DOWN Hwf)
    as (bd & E3 & H3).
  destruct (connecting_step_spec s x y
              ((([] ++ pick bu UP) ++ pick br RIGHT) ++ pick bd DOWN) LEFT Hwf)
    as (bl & E4 & H4).
  exists bu, br, bd, bl. split; [|done].
  cbn [foldM]. rewrite E1. cbn [mbind res_bind]. rewrite E2. cbn [mbind res_bind].
  rewrite E3. cbn [mbind res_bind]. rewrite E4. cbn [mbind res_bind].
  by rewrite app_nil_l, <- !app_assoc.
Qed.

Lemma elem_of_subset_dirs bu br bd bl d :
  d ∈ subset_dirs bu br bd bl ↔
  match d with UP => bu | RIGHT => br | DOWN => bd | LEFT => bl end = true.
Proof. destruct bu, br, bd, bl, d; simpl; set_solver. Qed.

(** The rewrite is a round trip on every non-empty subset, with the
    variant fixed by the size and kind of the subset. *)
Lemma reshape_tile_roundtrip bu br bd bl t :
  let S := subset_dirs bu br bd bl in
  S ≠ [] -> tile_inv (reshape_tile S t) ∧ finalized S (reshape_tile S t).
Proof.
  intros S HS. subst S. unfold finalized.
  destruct bu, br, bd, bl; try done; clear HS;
    (split; [split; [reflexivity|by vm_compute]|]);
    (split; [eexists; split; [reflexivity|];
             split; [repeat constructor; set_solver|intros []; set_solver]|]);
    (split_and!; simpl; try done; intros _ H; exfalso).
  all: try (destruct H as ([] & H1 & H2); simpl in *; set_solver).
  all: try (apply H; first [ by (exists UP; simpl; set_solver)
                           | by (exists RIGHT; simpl; set_solver) ]).
Qed.

(** The variant and rotation written depend on the subset alone. *)
Lemma reshape_tile_determined bu br bd bl t1 t2 :
  let S := subset_dirs bu br bd bl in
  S ≠ [] ->
  tile_type (reshape_tile S t1) = tile_type (reshape_tile S t2) ∧
  rotation (reshape_tile S t1) = rotation (reshape_tile S t2).
Proof. intros S HS. subst S. by destruct bu, br, bd, bl. Qed.

(** C4. [fix_pipe_connections] on an in-bounds cell computes the set [S]
    of directions with a connecting neighbour (in bounds, non-Empty, open
    toward the cell) and rewrites the tile of the cell only: to Empty when
    [S] is empty, and otherwise to the variant and rotation, determined by
    [S] alone, whose connections are exactly [S] (one direction: LightBulb;
    an opposite pair: Straight; an adjacent pair: Elbow; three: TJunction;
    four: Cross at rotation 0).  The rewrite is such a round trip on every
    non-empty subset of the four directions. *)
Theorem fix_pipe_connections_roundtrip (s : PuzzleGame) (x y : Z) :
  grid_okb (width s) (height s) (grid s) = true ->
  valid s (x, y) ->
  (∃ bu br bd bl t s',
     let S := subset_dirs bu br bd bl in
     (∀ d, d ∈ S ↔ dir_ok s x y d) ∧
     connecting_neighbors s x y = Ok S ∧
     grid_get (grid s) x y = Ok t ∧
     fix_pipe_connections s x y = Ok s' ∧
     grid_get (grid s') x y = Ok (reshape_tile S t) ∧
     (∀ x' y', valid s (x', y') -> (x', y') ≠ (x, y) ->
               grid_get (grid s') x' y' = grid_get (grid s) x' y') ∧
     (S = [] -> tile_type (reshape_tile S t) = EMPTY) ∧
     (S ≠ [] -> finalized S (reshape_tile S t))) ∧
  (∀ bu br bd bl t1 t2,
     let S := subset_dirs bu br bd bl in
     S ≠ [] ->
     finalized S (reshape_tile S t1) ∧
     tile_type (reshape_tile S t1) = tile_type (reshape_tile S t2) ∧
     rotation (reshape_tile S t1) = rotation (reshape_tile S t2)).
Proof.
  intros Hg Hv. split.
  - pose proof (grid_okb_wf s Hg) as Hwf. pose proof Hwf as [Hd _].
    destruct (connecting_neighbors_spec s x y Hwf)
      as (bu & br & bd & bl & Hn & Hu & Hr & Hdn & Hl).
    destruct Hv as [Hx Hy]. simpl in Hx, Hy.
    destruct (grid_get_dims _ _ (grid s) x y Hd Hx Hy) as [t Ht].
    destruct (grid_modify_dims
                (fun _ => reshape_tile (subset_dirs bu br bd bl) t)
                _ _ (grid s) x y Hd Hx Hy)
      as (t0 & g' & _ & Hm & Hd' & Hg' & Ho).
    exists bu, br, bd, bl, t, (set_grid g' s). cbn zeta. split_and!.
    + intros d. rewrite elem_of_subset_dirs. by destruct d.
    + done.
    + done.
    + unfold fix_pipe_connections. rewrite Ht. simpl. rewrite Hn. simpl.
      unfold grid_set. by rewrite Hm.
    + done.
    + intros x' y' [Hx' Hy'] Hne. simpl in *. by apply Ho.
    + by intros ->.
    + intros HS. by apply reshape_tile_roundtrip.
  - intros bu br bd bl t1 t2 S HS. split.
    + by apply reshape_tile_roundtrip.
    + by apply reshape_tile_determined.
Qed.

Lemma fix_pipe_connections_roundtrip_witness :
  ∃ bu br bd bl t s',
    let S := subset_dirs bu br bd bl in
    (∀ d, d ∈ S ↔ dir_ok demo_pipes 1 0 d) ∧
    connecting_neighbors demo_pipes 1 0 = Ok S ∧
    grid_get (grid demo_pipes) 1 0 = Ok t ∧
    fix_pipe_connections demo_pipes 1 0 = Ok s' ∧
    grid_get (grid s') 1 0 = Ok (reshape_tile S t) ∧
    (∀ x' y', valid demo_pipes (x', y') -> (x', y') ≠ (1, 0) ->
              grid_get (grid s') x' y' = grid_get (grid demo_pipes) x' y') ∧
    (S = [] -> tile_type (reshape_tile S t) = EMPTY) ∧
    (S ≠ [] -> finalized S (reshape_tile S t)).
Proof.
  apply (proj1 (fix_pipe_connections_roundtrip demo_pipes 1 0 eq_refl
                  (conj (conj (Z.le_0_1) eq_refl) (conj (Z.le_refl 0) eq_refl)))).
Defined.

Example fix_pipe_connections_demo :
  (s' ← fix_pipe_connections demo_pipes 1 0; grid_get (grid s') 1 0)
  = Ok (Tile_make ELBOW 1 None).
Proof. reflexivity. Qed.

(** ** The click handler *)

Lemma tile_invb_inv t : tile_invb t = true -> tile_inv t.
Proof.
  unfold tile_invb, tile_inv. rewrite andb_true_iff, !bool_decide_eq_true. tauto.
Qed.

Lemma grid_invb_tile g x y t :
  grid_invb g = true -> 0 ≤ x -> 0 ≤ y -> grid_get g x y = Ok t -> tile_inv t.
Proof.
  unfold grid_invb. rewrite forallb_forall. intros Hrows Hx Hy Hg.
  apply grid_get_inv in Hg as (row & Hr & Ht); [|done..].
  apply list_elem_of_lookup_2, list_elem_of_In, Hrows in Hr.
  rewrite forallb_forall in Hr.
  apply list_elem_of_lookup_2, list_elem_of_In, Hr in Ht.
  by apply tile_invb_inv.
Qed.

Lemma Direction_of_value_mod z : ∃ d, Direction_of_value (z mod 4) = Ok d.
Proof.
  pose proof (Z.mod_pos_bound z 4 ltac:(lia)) as H.
  set (v := z mod 4) in *. assert (Hv : 0 ≤ v ≤ 3) by lia. clearbody v. clear H.
  enum_Z v; eauto.
Qed.

Lemma mapM_res_total {A B : Type} (f : A -> res B) l :
  (∀ a, ∃ b, f a = Ok b) -> ∃ bs, mapM_res f l = Ok bs.
Proof.
  intros Hf. induction l as [|a l [bs IH]]; simpl; [eauto|].
  destruct (Hf a) as [b ->]. simpl. rewrite IH. simpl. eauto.
Qed.

(** A rotation keeps the connections readable. *)
Lemma rotate_readable t ds :
  tile_inv t -> get_connections t = Ok ds ->
  ∃ ds', get_connections (fst (rotate t)) = Ok ds'.
Proof.
  intros [Hm Hr] Hc. unfold rotate. case_bool_decide as Hgt; [|eauto].
  cbn [fst]. destruct t as [tt m r pw us pat]. simpl in *. subst m.
  unfold get_connections in *. simpl in *.
  pose proof (Z.mod_pos_bound (r + 1) (ROTATIONS tt) ltac:(lia)) as Hb.
  set (r' := (r + 1) mod ROTATIONS tt) in *. clearbody r'.
  assert (Hb' : 0 ≤ r' ≤ ROTATIONS tt - 1) by lia. clear Hb.
  destruct tt; simpl in *; try lia.
  1-3,5: enum_Z r'; eauto.
  destruct pat as [p|].
  - destruct (py_get POWER_SOURCE_CONNECTIONS p) as [base| |]; try done. simpl.
    apply mapM_res_total. intros d. apply Direction_of_value_mod.
  - enum_Z r'; eauto.
Qed.

Lemma grid_set_same g x y t :
  0 ≤ x -> 0 ≤ y -> grid_get g x y = Ok t -> grid_set t g x y = Ok g.
Proof.
  intros Hx Hy Hg. apply grid_get_inv in Hg as (row & Hr & Ht); [|done..].
  unfold grid_set, grid_modify.
  rewrite py_index_valid by (apply lookup_lt_Some in Hr; lia). simpl. rewrite Hr.
  rewrite py_index_valid by (apply lookup_lt_Some in Ht; lia). simpl. rewrite Ht.
  by rewrite (list_insert_id row), (list_insert_id g).
Qed.

Lemma set_grid_same s : set_grid (grid s) s = s.
Proof. by destruct s. Qed.

Lemma game_ok_set_tile s x y t' g' ds :
  game_ok s -> valid s (x, y) -> get_connections t' = Ok ds ->
  grid_set t' (grid s) x y = Ok g' -> game_ok (set_grid g' s).
Proof.
  intros ([Hd Ht] & Hs & Hb) [Hx Hy] Hc Hset. simpl in Hx, Hy.
  destruct (grid_modify_dims (fun _ => t') _ _ (grid s) x y Hd Hx Hy)
    as (t & g'' & Hg & Hm & Hd' & Hg' & Ho).
  unfold grid_set in Hset. rewrite Hm in Hset. simplify_eq.
  split_and!; [split; [done|]|done|done].
  intros [x' y'] Hv. unfold conns. simpl.
  destruct (decide ((x', y') = (x, y))) as [E|Hne].
  - simplify_eq. rewrite Hg'. simpl. eauto.
  - destruct Hv as [Hx' Hy']. simpl in *. rewrite Ho by done.
    by apply (Ht (x', y')).
Qed.

(** C5 (as the code has it).  [handle_click] never fails and always
    returns [None].  A click outside the grid changes nothing.  A click on
    a tile that cannot rotate changes nothing and does not run the solver.
    A click on a tile that can rotate stores the rotated tile and runs
    [update_power_flow], whose state, with the new [is_solved], is the
    result. *)
Theorem handle_click_spec (fuel : nat) (s : PuzzleGame) (p : pos) :
  game_okb s = true ->
  grid_invb (grid s) = true ->
  (length (cells (width s) (height s)) < fuel)%nat ->
  let x := fst p `div` TILE_SIZE in
  let y := snd p `div` TILE_SIZE in
  (¬ valid s (x, y) -> handle_click fuel s p = Ok (s, None)) ∧
  (valid s (x, y) ->
   ∃ t, grid_get (grid s) x y = Ok t ∧
     (ROTATIONS (tile_type t) = 1 -> handle_click fuel s p = Ok (s, None)) ∧
     (ROTATIONS (tile_type t) > 1 ->
      ∃ g1 s' b,
        grid_set (set_rotation ((rotation t + 1) mod ROTATIONS (tile_type t)) t)
                 (grid s) x y = Ok g1 ∧
        update_power_flow fuel (set_grid g1 s) = Ok (s', b) ∧
        is_solved s' = b ∧
        handle_click fuel s p = Ok (s', None))).
Proof.
  intros Hokb Hinv Hfuel x y. pose proof (game_okb_ok s Hokb) as Hok. split.
  - intros Hv. apply is_valid_position_false in Hv.
    unfold handle_click. fold x y. by rewrite Hv.
  - intros Hv. pose proof Hv as [Hx Hy]. simpl in Hx, Hy.
    destruct (s0_tile s Hok x y Hv) as (t & ds & Ht & Hds).
    pose proof (grid_invb_tile _ x y t Hinv ltac:(lia) ltac:(lia) Ht) as Hti.
    pose proof Hti as [Hm Hr].
    exists t. split; [done|].
    assert (Hval : is_valid_position s x y = true) by by apply is_valid_position_true.
    split.
    + intros H1. unfold handle_click. fold x y. rewrite Hval. simpl. rewrite Ht. simpl.
      unfold rotate. rewrite bool_decide_eq_false_2 by lia.
      rewrite (grid_set_same (grid s) x y t) by (lia || done). simpl.
      by rewrite set_grid_same.
    + intros Hgt.
      destruct (rotate_readable t ds Hti Hds) as [ds' Hds'].
      unfold rotate in Hds'. rewrite bool_decide_eq_true_2 in Hds' by lia.
      cbn [fst] in Hds'. rewrite Hm in Hds'.
      destruct Hok as ([Hd Htl] & Hs & Hb).
      destruct (grid_modify_dims
                  (fun _ => set_rotation ((rotation t + 1) mod ROTATIONS (tile_type t)) t)
                  _ _ (grid s) x y Hd Hx Hy) as (t1 & g1 & _ & Hm1 & _).
      assert (Hok1 : game_ok (set_grid g1 s)).
      { eapply game_ok_set_tile; [by apply game_okb_ok|exact Hv|exact Hds'|exact Hm1]. }
      destruct (update_power_flow_spec fuel (set_grid g1 s) Hok1 Hfuel)
        as (s' & D & Hu & _).
      exists g1, s', (is_solved s'). split_and!; [done|done|done|].
      unfold handle_click. fold x y. rewrite Hval. simpl. rewrite Ht. simpl.
      unfold rotate. rewrite bool_decide_eq_true_2 by lia. rewrite Hm.
      unfold grid_set in *. rewrite Hm1. simpl. by rewrite Hu.
Qed.

Lemma handle_click_spec_witness :
  (¬ valid demo_game (70 `div` TILE_SIZE, 10 `div` TILE_SIZE) ->
   handle_click 4 demo_game (70, 10) = Ok (demo_game, None)) ∧
  (valid demo_game (70 `div` TILE_SIZE, 10 `div` TILE_SIZE) ->
   ∃ t, grid_get (grid demo_game) (70 `div` TILE_SIZE) (10 `div` TILE_SIZE) = Ok t ∧
     (ROTATIONS (tile_type t) = 1 ->
      handle_click 4 demo_game (70, 10) = Ok (demo_game, None)) ∧
     (ROTATIONS (tile_type t) > 1 ->
      ∃ g1 s' b,
        grid_set (set_rotation ((rotation t + 1) mod ROTATIONS (tile_type t)) t)
                 (grid demo_game) (70 `div` TILE_SIZE) (10 `div` TILE_SIZE) = Ok g1 ∧
        update_power_flow 4 (set_grid g1 demo_game) = Ok (s', b) ∧
        is_solved s' = b ∧
        handle_click 4 demo_game (70, 10) = Ok (s', None))).
Proof.
  apply (handle_click_spec 4 demo_game (70, 10)); [reflexivity|reflexivity|cbv; lia].
Defined.

(** C5 as stated fails: a click outside the grid returns normally, with
    the state unchanged, instead of failing; and a click that rotates a
    tile returns [None], not the new [is_solved]. *)
Lemma handle_click_counterexample :
  is_valid_position demo_game (200 `div` TILE_SIZE) (0 `div` TILE_SIZE) = false ∧
  handle_click 4 demo_game (200, 0) = Ok (demo_game, None) ∧
  (∀ e, handle_click 4 demo_game (200, 0) ≠ Raise e) ∧
  (∃ s', handle_click 4 demo_game (70, 10) = Ok (s', None) ∧
         is_solved s' = false ∧
         handle_click 4 demo_game (70, 10) ≠ Ok (s', Some (is_solved s'))).
Proof.
  split_and!; [reflexivity|reflexivity|done|].
  eexists. split; [reflexivity|]. split; [reflexivity|discriminate].
Qed.

(** The scenario of the 3x1 board: turning the pipe once cuts the bulb
    off, turning it again lights the bulb and solves the puzzle. *)
Example scramble_then_solve :
  (r1 ← handle_click 4 demo_game (70, 10);
   bulb1 ← grid_get (grid (fst r1)) 2 0;
   r2 ← handle_click 4 (fst r1) (70, 10);
   bulb2 ← grid_get (grid (fst r2)) 2 0;
   Ok (is_powered bulb1, is_solved (fst r1), is_powered bulb2, is_solved (fst r2)))
  = Ok (false, false, true, true).
Proof. reflexivity. Qed.

(** ** The tile invariant under the operations *)

Lemma Tile_make_inv tt rot pat : tile_inv (Tile_make tt rot pat).
Proof.
  split; [done|]. simpl. apply Z.mod_pos_bound. destruct tt; simpl; lia.
Qed.

Lemma Tile_init_pattern tt rot r t r' :
  Tile_init tt rot r = Ok (t, r') ->
  tile_inv t ∧ (is_Some (power_connection_pattern t) ↔ tile_type t = POWER_SOURCE).
Proof.
  unfold Tile_init. case_bool_decide as Hty.
  - intros H. apply bind_Ok in H as ([p r1] & _ & [= <- <-]).
    split; [apply Tile_make_inv|]. simpl. split; [done|]. intros _. by eexists.
  - intros [= <- <-]. split; [apply Tile_make_inv|]. simpl. split; [|done].
    by intros [? [=]].
Qed.

(** C8 (the failing case).  On a board whose only tile is an Elbow at
    rotation 3, which satisfies the invariant, [fix_pipe_connections]
    (also through [finalize_puzzle]) sets the variant to Empty and returns
    before touching [max_rotation] and [rotation]: the tile is left Empty
    with rotation 3 and [max_rotation] 4, against
    [rotation < cardinality], and its connections can no longer be read. *)
Theorem fix_pipe_connections_stale_rotation :
  grid_invb (grid lone_elbow) = true ∧
  ∃ s' t',
    fix_pipe_connections lone_elbow 0 0 = Ok s' ∧
    finalize_puzzle lone_elbow = Ok s' ∧
    grid_get (grid s') 0 0 = Ok t' ∧
    tile_type t' = EMPTY ∧ rotation t' = 3 ∧ max_rotation t' = 4 ∧
    ROTATIONS (tile_type t') = 1 ∧
    tile_invb t' = false ∧ ¬ tile_inv t' ∧
    get_connections t' = Raise IndexError.
Proof.
  split; [reflexivity|].
  eexists _, _. split_and!; try reflexivity.
  intros [_ [_ Hr]]. vm_compute in Hr. discriminate.
Qed.

(** The failure this leads to: after [finalize_puzzle] on a board where
    a source sits next to such a pipe, turning the source toward the stale
    Empty tile makes the solver raise. *)
Example stale_rotation_crash :
  (s1 ← finalize_puzzle demo_stale;
   r1 ← handle_click 3 s1 (0, 0);
   r2 ← handle_click 3 (fst r1) (0, 0);
   Ok (fst r2)) = Raise IndexError.
Proof. reflexivity. Qed.

(** ** The generator's source placement *)

Lemma randint_spec a b r :
  a ≤ b -> ∃ v r', randint a b r = Ok (v, r') ∧ a ≤ v ≤ b.
Proof.
  intros Hab. unfold randint. rewrite bool_decide_eq_true_2 by done. simpl.
  eexists _, _. split; [done|].
  pose proof (Z.mod_pos_bound (draws r (cursor r)) (b - a + 1) ltac:(lia)). lia.
Qed.

Lemma in_subrange_table count p :
  1 ≤ count ≤ 4 -> in_subrange count p ->
  ∃ base, POWER_SOURCE_CONNECTIONS !! Z.to_nat p = Some base ∧
          Z.of_nat (length base) = count.
Proof.
  intros Hc [[-> Hp]|[[-> Hp]|[[-> Hp]|[-> ->]]]]; [enum_Z p..|]; by eexists.
Qed.

Lemma choose_source_type_spec r :
  ∃ count p r',
    choose_source_type r = Ok (count, p, r') ∧ 1 ≤ count ≤ 4 ∧ in_subrange count p.
Proof.
  unfold choose_source_type.
  destruct (randint_spec 1 4 r ltac:(lia)) as (count & r1 & -> & Hc). simpl.
  repeat case_bool_decide.
  - destruct (randint_spec 0 3 r1 ltac:(lia)) as (p & r2 & -> & Hp). simpl.
    eexists _, _, _. split; [done|]. split; [done|]. left. by split.
  - destruct (randint_spec 4 7 r1 ltac:(lia)) as (p & r2 & -> & Hp). simpl.
    eexists _, _, _. split; [done|]. split; [done|]. right. left. by split.
  - destruct (randint_spec 8 11 r1 ltac:(lia)) as (p & r2 & -> & Hp). simpl.
    eexists _, _, _. split; [done|]. split; [done|]. right. right. left. by split.
  - simpl. eexists _, _, _. split; [done|]. split; [done|]. right. right. right.
    split; [lia|done].
Qed.

Lemma swap_length {A : Type} (l : list A) i j : length (swap l i j) = length l.
Proof. unfold swap. repeat case_match; by rewrite ?length_insert. Qed.

Lemma swap_Forall {A : Type} (P : A -> Prop) (l : list A) i j :
  Forall P l -> Forall P (swap l i j).
Proof.
  intros H. unfold swap. destruct (l !! i) as [a|] eqn:Ha; [|done].
  destruct (l !! j) as [b|] eqn:Hb; [|done].
  rewrite Forall_forall in H.
  apply Forall_insert; [apply Forall_insert|].
  - by apply Forall_forall.
  - eapply H, list_elem_of_lookup_2. exact Hb.
  - eapply H, list_elem_of_lookup_2. exact Ha.
Qed.

Lemma shuffle_from_spec {A : Type} (P : A -> Prop) i : ∀ (l : list A) r,
  Forall P l ->
  length (fst (shuffle_from i l r)) = length l ∧ Forall P (fst (shuffle_from i l r)).
Proof.
  induction i as [|i IH]; intros l r H; [done|].
  cbn [shuffle_from next_raw].
  destruct (IH (swap l (S i) (Z.to_nat (draws r (cursor r) mod (Z.of_nat (S i) + 1))))
              (mkRng (draws r) (S (cursor r)))) as [Hl Hf].
  - by apply swap_Forall.
  - split; [|done]. by rewrite Hl, swap_length.
Qed.

Lemma length_range n : length (range n) = Z.to_nat n.
Proof. unfold range. by rewrite length_fmap, length_seq. Qed.

Lemma length_flat_map_const {A B : Type} (f : A -> list B) (k : nat) l :
  (∀ a, length (f a) = k) -> length (flat_map f l) = (length l * k)%nat.
Proof.
  intros Hf. induction l as [|a l IH]; [done|].
  simpl. rewrite length_app, IH, Hf. lia.
Qed.

Lemma length_cells w h : length (cells w h) = (Z.to_nat h * Z.to_nat w)%nat.
Proof.
  unfold cells. rewrite (length_flat_map_const _ (Z.to_nat w)).
  - by rewrite length_range.
  - intros y. by rewrite length_fmap, length_range.
Qed.

Lemma PuzzleGame_init_dims w h :
  0 ≤ w -> 0 ≤ h -> grid_dims w h (grid (PuzzleGame_init w h)).
Proof.
  intros Hw Hh. split; simpl.
  - rewrite length_fmap, length_range. lia.
  - intros row Hrow. apply list_elem_of_fmap in Hrow as (y & -> & _).
    rewrite length_fmap, length_range. lia.
Qed.

(** ** The scramble *)

Lemma randomize_cell_spec w h g r x y :
  grid_dims w h g -> 0 ≤ x < w -> 0 ≤ y < h ->
  ∃ t t' g' r',
    grid_get g x y = Ok t ∧ randomize_cell (g, r) (x, y) = Ok (g', r') ∧
    grid_dims w h g' ∧ grid_get g' x y = Ok t' ∧
    (∀ x' y', 0 ≤ x' < w -> 0 ≤ y' < h -> (x', y') ≠ (x, y) ->
              grid_get g' x' y' = grid_get g x' y') ∧
    tile_type t' = tile_type t ∧
    power_connection_pattern t' = power_connection_pattern t ∧
    (tile_type t ∉ [EMPTY; POWER_SOURCE] -> tile_inv t') ∧
    (tile_type t ∈ [EMPTY; POWER_SOURCE] -> t' = t).
Proof.
  intros Hd Hx Hy. unfold randomize_cell.
  destruct (grid_get_dims w h g x y Hd Hx Hy) as [t Ht]. rewrite Ht. simpl.
  case_bool_decide as Hty.
  - destruct (grid_modify_dims (set_max_rotation (ROTATIONS (tile_type t)))
                w h g x y Hd Hx Hy) as (t0 & g1 & Ht0 & -> & Hd1 & Hg1 & Ho1).
    rewrite Ht in Ht0. simplify_eq. simpl. rewrite Hg1. simpl.
    destruct (randint_spec 0 (ROTATIONS (tile_type t0) - 1) r) as (v & r' & -> & Hv).
    { destruct (ROTATIONS_pos (tile_type t0)); lia. }
    simpl.
    destruct (grid_modify_dims (set_rotation v) w h g1 x y Hd1 Hx Hy)
      as (t1 & g2 & Ht1 & -> & Hd2 & Hg2 & Ho2).
    rewrite Hg1 in Ht1. simplify_eq. simpl.
    eexists t0, _, g2, r'. split_and!; try done.
    + intros x' y' Hx' Hy' Hne. by rewrite Ho2, Ho1.
    + intros _. split; simpl; [done|lia].
  - exists t, t, g, r. split_and!; try done.
Qed.

(** [randomize_rotations] returns, keeps variants and patterns, leaves
    Empty and power-source tiles alone and puts every other tile inside
    the invariant. *)
Lemma randomize_rotations_spec s r :
  grid_dims (width s) (height s) (grid s) ->
  ∃ s' r',
    randomize_rotations s r = Ok (s', r') ∧
    ∀ x y, valid s (x, y) ->
      ∃ t t', grid_get (grid s) x y = Ok t ∧ grid_get (grid s') x y = Ok t' ∧
        tile_type t' = tile_type t ∧
        power_connection_pattern t' = power_connection_pattern t ∧
        (tile_type t ∉ [EMPTY; POWER_SOURCE] -> tile_inv t') ∧
        (tile_type t ∈ [EMPTY; POWER_SOURCE] -> t' = t).
Proof.
  intros Hd. unfold randomize_rotations.
  destruct (foldM_inv randomize_cell
    (fun pre gr =>
       grid_dims (width s) (height s) (fst gr) ∧
       ∀ x y, valid s (x, y) ->
         ∃ t t', grid_get (grid s) x y = Ok t ∧ grid_get (fst gr) x y = Ok t' ∧
           tile_type t' = tile_type t ∧
           power_connection_pattern t' = power_connection_pattern t ∧
           ((x, y) ∈ pre -> tile_type t ∉ [EMPTY; POWER_SOURCE] -> tile_inv t') ∧
           (tile_type t ∈ [EMPTY; POWER_SOURCE] -> t' = t))
    (cells (width s) (height s)) (grid s, r)) as ([g' r'] & Hf & Hd' & Hg').
  - split; [done|]. intros x y [Hx Hy]. simpl in *.
    destruct (grid_get_dims _ _ _ x y Hd Hx Hy) as [t Ht].
    exists t, t. split_and!; try done. intros Hin. by apply elem_of_nil in Hin.
  - intros pre [x y] [g1 r1] Hin [Hd1 Hg1]. simpl in Hd1, Hg1.
    apply elem_of_cells in Hin as [Hx Hy].
    destruct (randomize_cell_spec _ _ g1 r1 x y Hd1 Hx Hy)
      as (t1 & t2 & g2 & r2 & Ht1 & Hrun & Hd2 & Ht2 & Ho & Hty & Hpat & Hinv & Hsame).
    exists (g2, r2). split; [done|]. simpl. split; [done|].
    intros x' y' Hv. destruct (Hg1 x' y' Hv) as (t & t' & Ht & Ht' & Hty' & Hpat' & Hi' & Hs').
    destruct (decide ((x', y') = (x, y))) as [E|Hne].
    + simplify_eq. rewrite Ht1 in Ht'. simplify_eq.
      exists t, t2. split_and!; try done.
      * by rewrite Hty.
      * by rewrite Hpat.
      * intros _ Hnot. apply Hinv. by rewrite Hty'.
      * intros Hin. rewrite Hsame by (by rewrite Hty'). by apply Hs'.
    + destruct Hv as [Hx' Hy']. simpl in Hx', Hy'.
      exists t, t'. rewrite Ho by done. split_and!; try done.
      intros Hin. apply Hi'. set_solver.
  - exists (set_grid g' s), r'. rewrite Hf. simpl. split; [done|].
    intros x y Hv. destruct (Hg' x y Hv) as (t & t' & Ht & Ht' & Hty & Hpat & Hi & Hs).
    exists t, t'. split_and!; try done.
    apply Hi. by apply elem_of_cells.
Qed.

(** * Further properties *)

(** ** Neighbours and edges *)

Lemma get_opposite_direction_involutive d :
  get_opposite_direction (get_opposite_direction d) = d.
Proof. by destruct d. Qed.

Lemma get_neighbor_position_back x y d :
  get_neighbor_position (fst (get_neighbor_position x y d))
                        (snd (get_neighbor_position x y d))
                        (get_opposite_direction d) = (x, y).
Proof. destruct d; simpl; f_equal; lia. Qed.

(** X1. A reciprocally open edge can be walked both ways: if the edge
    from an in-bounds cell [c] to [c'] is reciprocally open then so is the
    edge from [c'] to [c]. *)
Theorem reciprocal_edge_sym (s : PuzzleGame) (c c' : pos) :
  valid s c -> reciprocal_edge s c c' -> reciprocal_edge s c' c.
Proof.
  intros Hv (d & ds & ds' & Hc & Hd & -> & Hv' & Hc' & Hd').
  exists (get_opposite_direction d), ds', ds. split_and!; try done.
  - destruct c as [x y]. simpl. by rewrite get_neighbor_position_back.
  - destruct c as [x y]. by apply is_valid_position_true.
  - by rewrite get_opposite_direction_involutive.
Qed.

Lemma reciprocal_edge_sym_witness :
  reciprocal_edge demo_game (1, 0) (0, 0).
Proof.
  apply (reciprocal_edge_sym demo_game (0, 0) (1, 0)).
  - split; simpl; lia.
  - exists RIGHT, [RIGHT], [LEFT; RIGHT]. split_and!; try reflexivity; set_solver.
Defined.

(** ** Construction and rotation of tiles *)

Lemma Tile_make_readable tt rot :
  tt ≠ POWER_SOURCE -> ∃ ds, get_connections (Tile_make tt rot None) = Ok ds.
Proof.
  intros Hty. unfold get_connections. simpl.
  pose proof (Tile_make_inv tt rot None) as [_ Hr]. simpl in Hr.
  set (r := rot mod ROTATIONS tt) in *. clearbody r.
  assert (Hr' : 0 ≤ r ≤ ROTATIONS tt - 1) by lia. clear Hr.
  destruct tt; simpl in *; try done; enum_Z r; eauto.
Qed.

(** X2. [Tile(tile_type, rotation)] never fails, for any integer
    rotation, negative ones included: the new tile satisfies the tile
    invariant, carries a pattern exactly when it is a power source, is
    powered exactly when it is a power source, is not used in the
    solution, and its connections can be read. *)
Theorem Tile_init_ok (tt : TileType) (rot : Z) (r : rng) :
  ∃ t r' ds,
    Tile_init tt rot r = Ok (t, r') ∧
    tile_type t = tt ∧ tile_inv t ∧
    (is_Some (power_connection_pattern t) ↔ tt = POWER_SOURCE) ∧
    is_powered t = bool_decide (tt = POWER_SOURCE) ∧
    used_in_solution t = false ∧
    get_connections t = Ok ds.
Proof.
  unfold Tile_init. case_bool_decide as Hty.
  - destruct (randint_spec 0 12 r ltac:(lia)) as (p & r' & -> & Hp). simpl.
    assert (Hds : ∃ ds, get_connections (Tile_make tt rot (Some p)) = Ok ds).
    { subst tt. unfold get_connections.
      cbn [tile_type power_connection_pattern Tile_make rotation].
      rewrite bool_decide_eq_true_2 by done.
      assert (Hb : ∃ base, py_get POWER_SOURCE_CONNECTIONS p = Ok base)
        by (enum_Z p; eauto).
      destruct Hb as [base ->]. cbn [mbind res_bind].
      apply mapM_res_total. intros d. apply Direction_of_value_mod. }
    destruct Hds as [ds Hds]. eexists _, r', ds. split_and!; try done.
    + apply Tile_make_inv.
    + simpl. by rewrite bool_decide_eq_true_2.
  - destruct (Tile_make_readable tt rot Hty) as [ds Hds].
    eexists _, r, ds. split_and!; try done.
    + apply Tile_make_inv.
    + simpl. split; [|done]. by intros [? [=]].
    + simpl. by rewrite bool_decide_eq_false_2.
Qed.

(** X3. Rotating a tile that satisfies the invariant and has readable
    connections keeps both, and touches nothing but the rotation. *)
Theorem rotate_keeps_tile (t : Tile) (ds : list Direction) :
  tile_inv t -> get_connections t = Ok ds ->
  let t' := fst (rotate t) in
  tile_inv t' ∧ (∃ ds', get_connections t' = Ok ds') ∧
  tile_type t' = tile_type t ∧ max_rotation t' = max_rotation t ∧
  power_connection_pattern t' = power_connection_pattern t ∧
  is_powered t' = is_powered t ∧ used_in_solution t' = used_in_solution t.
Proof.
  intros Hi Hc t'. subst t'. split_and!.
  - by apply rotate_tile_inv.
  - by apply (rotate_readable t ds).
  - unfold rotate. by case_bool_decide.
  - unfold rotate. by case_bool_decide.
  - unfold rotate. by case_bool_decide.
  - unfold rotate. by case_bool_decide.
  - unfold rotate. by case_bool_decide.
Qed.

Lemma rotate_keeps_tile_witness :
  let t' := fst (rotate (Tile_make STRAIGHT 1 None)) in
  tile_inv t' ∧ (∃ ds', get_connections t' = Ok ds') ∧
  tile_type t' = tile_type (Tile_make STRAIGHT 1 None) ∧
  max_rotation t' = max_rotation (Tile_make STRAIGHT 1 None) ∧
  power_connection_pattern t' = power_connection_pattern (Tile_make STRAIGHT 1 None) ∧
  is_powered t' = is_powered (Tile_make STRAIGHT 1 None) ∧
  used_in_solution t' = used_in_solution (Tile_make STRAIGHT 1 None).
Proof.
  apply (rotate_keeps_tile (Tile_make STRAIGHT 1 None) [LEFT; RIGHT]);
    [apply Tile_make_inv|reflexivity].
Defined.

(** ** The solver: what it keeps, idempotence, the win condition *)

Lemma flow_state_shape s0 s D x y :
  flow_state s0 s D -> valid s0 (x, y) ->
  ∃ t t', grid_get (grid s0) x y = Ok t ∧ grid_get (grid s) x y = Ok t' ∧
          same_shape t t'.
Proof.
  intros (_ & _ & _ & _ & _ & Hg) Hv. destruct (Hg x y Hv) as (t & Ht & Ht').
  eexists t, _. split; [done|]. split; [exact Ht'|].
  unfold same_shape, reset_tile, mark_tile.
  repeat case_bool_decide; simpl; by split_and!.
Qed.

Lemma flow_state_game_ok s0 s D :
  game_ok s0 -> flow_state s0 s D -> game_ok s.
Proof.
  intros Hok Hst. pose proof Hst as (Hw & Hh & Hps & Hb & _).
  pose proof Hok as (_ & Hs & Hbu).
  split; [by apply (flow_state_grid_wf s0 s D)|].
  unfold valid. rewrite Hw, Hh, Hps, Hb. by split.
Qed.

(** X6. [update_power_flow] only writes the two flags and [is_solved]:
    the dimensions, the source and bulb lists, and the variant,
    [max_rotation], rotation and pattern of every tile are as before, and
    the game stays well formed. *)
Theorem update_power_flow_frame (fuel : nat) (s : PuzzleGame) :
  game_okb s = true ->
  (length (cells (width s) (height s)) < fuel)%nat ->
  ∃ s' b,
    update_power_flow fuel s = Ok (s', b) ∧
    width s' = width s ∧ height s' = height s ∧
    power_sources s' = power_sources s ∧ bulbs s' = bulbs s ∧
    game_ok s' ∧
    ∀ x y, valid s (x, y) ->
      ∃ t t', grid_get (grid s) x y = Ok t ∧ grid_get (grid s') x y = Ok t' ∧
              same_shape t t'.
Proof.
  intros Hok Hfuel. apply game_okb_ok in Hok.
  destruct (update_power_flow_spec fuel s Hok Hfuel) as (s' & D & Hu & Hst & _).
  pose proof Hst as (Hw & Hh & Hps & Hb & _).
  exists s', (is_solved s'). split_and!; try done.
  - by apply (flow_state_game_ok s s' D).
  - intros x y Hv. by apply (flow_state_shape s s' D).
Qed.

Lemma update_power_flow_frame_witness :
  ∃ s' b,
    update_power_flow 4 demo_game = Ok (s', b) ∧
    width s' = width demo_game ∧ height s' = height demo_game ∧
    power_sources s' = power_sources demo_game ∧ bulbs s' = bulbs demo_game ∧
    game_ok s' ∧
    ∀ x y, valid demo_game (x, y) ->
      ∃ t t', grid_get (grid demo_game) x y = Ok t ∧ grid_get (grid s') x y = Ok t' ∧
              same_shape t t'.
Proof.
  apply (update_power_flow_frame 4 demo_game); [reflexivity|cbv; lia].
Defined.

(** Two grids of the same dimensions with the same tiles are equal. *)
Lemma grid_ext w h g g' :
  grid_dims w h g -> grid_dims w h g' ->
  (∀ x y, 0 ≤ x < w -> 0 ≤ y < h -> grid_get g x y = grid_get g' x y) ->
  g = g'.
Proof.
  intros [Hh Hw] [Hh' Hw'] Hget. apply list_eq. intros j.
  destruct (g !! j) as [row|] eqn:Hr.
  - pose proof (lookup_lt_Some _ _ _ Hr) as Hj.
    destruct (lookup_lt_is_Some_2 g' j) as [row' Hr']; [lia|].
    rewrite Hr'. f_equal. apply list_eq. intros i.
    pose proof (Hw _ (list_elem_of_lookup_2 _ _ _ Hr)) as Hl.
    pose proof (Hw' _ (list_elem_of_lookup_2 _ _ _ Hr')) as Hl'.
    destruct (row !! i) as [t|] eqn:Ht.
    + pose proof (lookup_lt_Some _ _ _ Ht) as Hi.
      destruct (lookup_lt_is_Some_2 row' i) as [t' Ht']; [lia|].
      rewrite Ht'. f_equal.
      specialize (Hget (Z.of_nat i) (Z.of_nat j) ltac:(lia) ltac:(lia)).
      rewrite (grid_get_lookup g _ _ row t) in Hget
        by (first [lia | by rewrite Nat2Z.id]).
      rewrite (grid_get_lookup g' _ _ row' t') in Hget
        by (first [lia | by rewrite Nat2Z.id]).
      by simplify_eq.
    + apply lookup_ge_None in Ht. symmetry. apply lookup_ge_None. lia.
  - apply lookup_ge_None in Hr. symmetry. apply lookup_ge_None. lia.
Qed.

Lemma reset_mark_reset t (D2 D1 : Prop) `{!Decision D2, !Decision D1} :
  (D2 ↔ D1) ->
  (if bool_decide D2
   then mark_tile (reset_tile (if bool_decide D1 then mark_tile (reset_tile t)
                               else reset_tile t))
   else reset_tile (if bool_decide D1 then mark_tile (reset_tile t)
                    else reset_tile t))
  = (if bool_decide D1 then mark_tile (reset_tile t) else reset_tile t).
Proof.
  intros HD. rewrite (bool_decide_ext D2 D1 HD).
  unfold mark_tile, reset_tile. destruct t as [tt m r pw us pat].
  by repeat (case_bool_decide; simpl in *).
Qed.

Lemma reachable_flow s0 s D c :
  game_ok s0 -> flow_state s0 s D -> (reachable s c ↔ reachable s0 c).
Proof.
  intros Hok Hst. pose proof Hst as (Hw & Hh & Hps & Hb & _).
  pose proof Hok as (_ & Hsrc & _).
  assert (Hedge : ∀ a b, valid s0 a ->
            (reciprocal_edge s a b ↔ reciprocal_edge s0 a b) ∧
            (reciprocal_edge s0 a b -> valid s0 b)).
  { intros a b Ha.
    assert (Hb' : ∀ d, is_valid_position s0 (fst (get_neighbor_position (fst a) (snd a) d))
                         (snd (get_neighbor_position (fst a) (snd a) d)) = true ->
                       valid s0 (get_neighbor_position (fst a) (snd a) d)).
    { intros d H. apply is_valid_position_true in H.
      by destruct (get_neighbor_position (fst a) (snd a) d). }
    split; [split|].
    - intros (d & ds & ds' & H1 & H2 & -> & H4 & H5 & H6).
      rewrite (flow_state_valid s0 s D) in H4 by done.
      rewrite (flow_state_conns s0 s D) in H1, H5 by (first [done | by apply Hb']).
      by exists d, ds, ds'.
    - intros (d & ds & ds' & H1 & H2 & -> & H4 & H5 & H6).
      exists d, ds, ds'.
      rewrite (flow_state_valid s0 s D),
        !(flow_state_conns s0 s D) by (first [done | by apply Hb']).
      done.
    - intros (d & ds & ds' & H1 & H2 & -> & H4 & H5 & H6). by apply Hb'. }
  split.
  - intros H. cut (reachable s0 c ∧ valid s0 c); [tauto|].
    induction H as [c Hc|c c' Hr [IH1 IH2] He].
    + rewrite Hps in Hc. split; [by apply reach_source|by apply Hsrc].
    + destruct (Hedge c c' IH2) as [Hiff Hval]. apply Hiff in He.
      split; [by apply (reach_edge s0 c c')|by apply Hval].
  - intros H. cut (reachable s c ∧ valid s0 c); [tauto|].
    induction H as [c Hc|c c' Hr [IH1 IH2] He].
    + split; [apply reach_source; by rewrite Hps|by apply Hsrc].
    + destruct (Hedge c c' IH2) as [Hiff Hval].
      split; [apply (reach_edge s c c'); [done|by apply Hiff]|by apply Hval].
Qed.

(** X5. Solving is idempotent: a second [update_power_flow] on the state
    the first one returned gives that same state and the same flag. *)
Theorem update_power_flow_idempotent (fuel : nat) (s : PuzzleGame) :
  game_okb s = true ->
  (length (cells (width s) (height s)) < fuel)%nat ->
  ∃ s' b,
    update_power_flow fuel s = Ok (s', b) ∧
    update_power_flow fuel s' = Ok (s', b).
Proof.
  intros Hok Hfuel. apply game_okb_ok in Hok.
  destruct (update_power_flow_spec fuel s Hok Hfuel) as (s1 & D1 & Hu1 & Hst1 & HD1 & Hs1).
  pose proof (flow_state_game_ok s s1 D1 Hok Hst1) as Hok1.
  pose proof Hst1 as (Hw1 & Hh1 & Hps1 & Hb1 & Hd1 & Hg1).
  assert (Hfuel1 : (length (cells (width s1) (height s1)) < fuel)%nat)
    by (by rewrite Hw1, Hh1).
  destruct (update_power_flow_spec fuel s1 Hok1 Hfuel1)
    as (s2 & D2 & Hu2 & Hst2 & HD2 & Hs2).
  pose proof Hst2 as (Hw2 & Hh2 & Hps2 & Hb2 & Hd2 & Hg2).
  assert (HD : ∀ c, c ∈ D2 ↔ c ∈ D1).
  { intros c. by rewrite HD1, HD2, (reachable_flow s s1 D1). }
  assert (Hgrid : grid s2 = grid s1).
  { apply (grid_ext (width s1) (height s1)); [done|by rewrite Hw1, Hh1|].
    intros x y Hx Hy.
    assert (Hv1 : valid s1 (x, y)) by done.
    assert (Hv : valid s (x, y)) by (unfold valid; by rewrite <- Hw1, <- Hh1).
    destruct (Hg1 x y Hv) as (t & Ht & Ht1).
    destruct (Hg2 x y Hv1) as (t1 & Ht1' & Ht2).
    rewrite Ht1 in Ht1'. simplify_eq. rewrite Ht2, Ht1. f_equal.
    apply reset_mark_reset, HD. }
  exists s1, (is_solved s1). split; [done|]. rewrite Hu2.
  assert (His : is_solved s2 = is_solved s1).
  { destruct s1 as [w1 h1 g1 ps1 b1 i1], s2 as [w2 h2 g2 ps2 b2 i2].
    simpl in *. subst.
    destruct i1, i2; try done.
    - apply (proj2 Hs2). exact (proj1 Hs1 eq_refl).
    - symmetry. apply (proj2 Hs1). exact (proj1 Hs2 eq_refl). }
  destruct s1 as [w1 h1 g1 ps1 b1 i1], s2 as [w2 h2 g2 ps2 b2 i2].
  simpl in *. by subst.
Qed.

Lemma update_power_flow_idempotent_witness :
  ∃ s' b,
    update_power_flow 4 demo_game = Ok (s', b) ∧
    update_power_flow 4 s' = Ok (s', b).
Proof.
  apply (update_power_flow_idempotent 4 demo_game); [reflexivity|cbv; lia].
Defined.

Lemma flow_state_dir_ok s0 s D x y d :
  game_ok s0 -> flow_state s0 s D -> (dir_ok s x y d ↔ dir_ok s0 x y d).
Proof.
  intros Hok Hst. pose proof Hst as (Hw & Hh & _).
  unfold dir_ok. destruct (get_neighbor_position x y d) as [nx ny]. simpl.
  assert (Hval : valid s (nx, ny) ↔ valid s0 (nx, ny))
    by (unfold valid; by rewrite Hw, Hh).
  split.
  - intros (Hv & n & dsn & Hn & Hty & Hc & Hd). apply Hval in Hv.
    split; [done|].
    destruct (flow_state_flags s0 s D nx ny Hst Hv) as (t0 & t & Ht0 & Ht & Hty' & _).
    rewrite Hn in Ht. simplify_eq.
    pose proof (flow_state_conns s0 s D (nx, ny) Hst Hv) as Hcs.
    unfold conns in Hcs. simpl in Hcs. rewrite Hn, Ht0 in Hcs. simpl in Hcs.
    exists t0, dsn. split_and!; try done; congruence.
  - intros (Hv & n & dsn & Hn & Hty & Hc & Hd).
    split; [by apply Hval|].
    destruct (flow_state_flags s0 s D nx ny Hst Hv) as (t0 & t & Ht0 & Ht & Hty' & _).
    rewrite Hn in Ht0. simplify_eq.
    pose proof (flow_state_conns s0 s D (nx, ny) Hst Hv) as Hcs.
    unfold conns in Hcs. simpl in Hcs. rewrite Hn, Ht in Hcs. simpl in Hcs.
    exists t, dsn. split_and!; try done; congruence.
Qed.

(** The win condition read on the board given to the solver. *)
Lemma is_solved_spec fuel s :
  game_ok s ->
  (length (cells (width s) (height s)) < fuel)%nat ->
  ∃ s' b,
    update_power_flow fuel s = Ok (s', b) ∧
    (b = true ↔
       (∀ c, c ∈ bulbs s -> reachable s c) ∧
       (∀ x y t, valid s (x, y) -> grid_get (grid s) x y = Ok t ->
                 tile_type t = EMPTY ∨ reachable s (x, y)) ∧
       (∀ x y ds d, reachable s (x, y) -> conns s (x, y) = Ok ds -> d ∈ ds ->
                    dir_ok s x y d)).
Proof.
  intros Hok Hfuel.
  destruct (update_power_flow_spec fuel s Hok Hfuel) as (s' & D & Hu & Hst & HD & Hs).
  pose proof (flow_state_grid_wf s s' D Hok Hst) as Hwf'.
  destruct (check_no_leaks_spec s' Hwf') as (b3 & Eb3 & Hb3 & _).
  pose proof Hst as (Hw & Hh & Hps & Hb & _).
  pose proof Hok as (_ & Hsrc & Hbulbs).
  assert (Hval : ∀ c, valid s' c ↔ valid s c) by (intros c; unfold valid; by rewrite Hw, Hh).
  assert (Hrv : ∀ c, reachable s c -> valid s c).
  { intros c Hr. apply HD in Hr.
    induction (proj1 (HD c) Hr) as [c Hc|c c' _ IH (d & ? & ? & _ & _ & -> & Hv & _)].
    - by apply Hsrc.
    - apply is_valid_position_true in Hv.
      by destruct (get_neighbor_position c.1 c.2 d). }
  exists s', (is_solved s'). split; [done|]. rewrite Hs, Eb3. split.
  - intros (HA & HB & HC). assert (b3 = true) by congruence. subst b3.
    pose proof (proj1 Hb3 eq_refl) as Hnl. clear HC Hb3.
    split_and!.
    + intros [x y] Hc. rewrite <- Hb in Hc.
      destruct (HA _ Hc) as (t' & Ht' & Hp). simpl in Ht'.
      assert (Hv : valid s (x, y)) by (apply Hbulbs; by rewrite <- Hb).
      destruct (flow_state_flags s s' D x y Hst Hv)
        as (t0 & t & Ht0 & Ht & Hty & Hused & Heq & _).
      rewrite Ht' in Ht. simplify_eq.
      destruct (HB (x, y) (proj2 (Hval _) Hv)) as (t2 & Ht2 & [Hu2|He]);
        simpl in Ht2; rewrite Ht' in Ht2; simplify_eq.
      * by apply HD, Hused.
      * apply HD, Hused. rewrite <- Heq; [done|]. by rewrite He.
    + intros x y t0 Hv Ht0.
      destruct (flow_state_flags s s' D x y Hst Hv)
        as (t0' & t & Ht0' & Ht & Hty & Hused & _).
      rewrite Ht0 in Ht0'. simplify_eq.
      destruct (HB (x, y) (proj2 (Hval _) Hv)) as (t2 & Ht2 & [Hu2|He]);
        simpl in Ht2; rewrite Ht in Ht2; simplify_eq.
      * right. by apply HD, Hused.
      * left. by rewrite <- Hty.
    + intros x y ds d Hr Hc Hd.
      pose proof (Hrv _ Hr) as Hv.
      destruct (flow_state_flags s s' D x y Hst Hv)
        as (t0 & t & Ht0 & Ht & Hty & Hused & _ & Hpow).
      apply (flow_state_dir_ok s s' D x y d Hok Hst).
      rewrite <- (flow_state_conns s s' D (x, y) Hst Hv) in Hc.
      unfold conns in Hc. simpl in Hc. rewrite Ht in Hc. simpl in Hc.
      apply (Hnl (x, y) (proj2 (Hval _) Hv) t ds d); try done.
      apply Hpow. by apply HD.
  - intros (HA & HB & HC). split_and!.
    + intros [x y] Hc. rewrite Hb in Hc.
      pose proof (Hbulbs _ Hc) as Hv.
      destruct (flow_state_flags s s' D x y Hst Hv)
        as (t0 & t & Ht0 & Ht & Hty & Hused & _ & Hpow).
      exists t. split; [done|]. apply Hpow, HD. by apply HA.
    + intros [x y] Hv'. pose proof (proj1 (Hval _) Hv') as Hv.
      destruct (flow_state_flags s s' D x y Hst Hv)
        as (t0 & t & Ht0 & Ht & Hty & Hused & _).
      exists t. split; [done|].
      destruct (HB x y t0 Hv Ht0) as [He|Hr].
      * right. by rewrite Hty.
      * left. by apply Hused, HD.
    + f_equal. apply Hb3. intros [x y] Hv' t ds d Ht Hp Hc Hd. simpl in *.
      pose proof (proj1 (Hval _) Hv') as Hv.
      destruct (flow_state_flags s s' D x y Hst Hv)
        as (t0 & t1 & Ht0 & Ht1 & Hty & Hused & Heq & _).
      rewrite Ht in Ht1. simplify_eq.
      assert (Hr : reachable s (x, y)).
      { destruct (HB x y t0 Hv Ht0) as [He|Hr]; [|done].
        apply HD, Hused. rewrite <- Heq; [done|]. by rewrite Hty, He. }
      apply (flow_state_dir_ok s s' D x y d Hok Hst).
      apply (HC x y ds d); try done.
      rewrite <- (flow_state_conns s s' D (x, y) Hst Hv).
      unfold conns. simpl. by rewrite Ht.
Qed.

(** X7. The flag [update_power_flow] returns is true exactly when, on
    the board it was given, every bulb cell and every non-Empty tile is
    reachable from a source along reciprocally open edges, and every open
    direction of every reachable tile ends at an in-bounds, non-Empty
    neighbour that lists the opposite direction. *)
Theorem is_solved_iff (fuel : nat) (s : PuzzleGame) :
  game_okb s = true ->
  (length (cells (width s) (height s)) < fuel)%nat ->
  ∃ s' b,
    update_power_flow fuel s = Ok (s', b) ∧
    (b = true ↔
       (∀ c, c ∈ bulbs s -> reachable s c) ∧
       (∀ x y t, valid s (x, y) -> grid_get (grid s) x y = Ok t ->
                 tile_type t = EMPTY ∨ reachable s (x, y)) ∧
       (∀ x y ds d, reachable s (x, y) -> conns s (x, y) = Ok ds -> d ∈ ds ->
                    dir_ok s x y d)).
Proof. intros Hok. apply is_solved_spec. by apply game_okb_ok. Qed.

Lemma is_solved_iff_witness :
  ∃ s' b,
    update_power_flow 4 demo_game = Ok (s', b) ∧
    (b = true ↔
       (∀ c, c ∈ bulbs demo_game -> reachable demo_game c) ∧
       (∀ x y t, valid demo_game (x, y) -> grid_get (grid demo_game) x y = Ok t ->
                 tile_type t = EMPTY ∨ reachable demo_game (x, y)) ∧
       (∀ x y ds d, reachable demo_game (x, y) -> conns demo_game (x, y) = Ok ds ->
                    d ∈ ds -> dir_ok demo_game x y d)).
Proof. apply (is_solved_iff 4 demo_game); [reflexivity|cbv; lia]. Defined.

(** ** A fresh board *)

Lemma PuzzleGame_init_get w h x y :
  0 ≤ x < w -> 0 ≤ y < h ->
  grid_get (grid (PuzzleGame_init w h)) x y = Ok (Tile_make EMPTY 0 None).
Proof.
  intros Hx Hy.
  destruct (grid_dims_lookup w h (grid (PuzzleGame_init w h)) x y)
    as (row & t & Hr & Ht); [apply PuzzleGame_init_dims; lia|done..|].
  rewrite (grid_get_lookup _ x y row t) by (first [lia|done]). f_equal.
  apply list_elem_of_lookup_2 in Hr. simpl in Hr.
  apply list_elem_of_fmap in Hr as (y' & -> & _).
  apply list_elem_of_lookup_2, list_elem_of_fmap in Ht as (x' & -> & _). done.
Qed.

Lemma PuzzleGame_init_ok w h : 0 ≤ w -> 0 ≤ h -> game_ok (PuzzleGame_init w h).
Proof.
  intros Hw Hh. split_and!.
  - split; [by apply PuzzleGame_init_dims|].
    intros [x y] [Hx Hy]. cbn [fst snd width height PuzzleGame_init] in Hx, Hy.
    unfold conns. cbn [fst snd]. rewrite PuzzleGame_init_get by done.
    by eexists.
  - intros c Hc. by apply elem_of_nil in Hc.
  - intros c Hc. by apply elem_of_nil in Hc.
Qed.

Lemma no_sources_unreachable s c : power_sources s = [] -> ¬ reachable s c.
Proof.
  intros Hs Hr. induction Hr as [c Hc|]; [|done].
  rewrite Hs in Hc. by apply elem_of_nil in Hc.
Qed.

(** X8. A board as [PuzzleGame.__init__] builds it, of any size, is
    reported solved: [update_power_flow] returns true on it and changes
    nothing but [is_solved]. *)
Theorem fresh_board_solved (fuel : nat) (w h : Z) :
  0 ≤ w -> 0 ≤ h ->
  (length (cells w h) < fuel)%nat ->
  update_power_flow fuel (PuzzleGame_init w h)
  = Ok (set_is_solved true (PuzzleGame_init w h), true).
Proof.
  intros Hw Hh Hfuel. pose proof (PuzzleGame_init_ok w h Hw Hh) as Hok.
  destruct (update_power_flow_spec fuel _ Hok Hfuel) as (s' & D & Hu & Hst & HD & _).
  destruct (is_solved_spec fuel _ Hok Hfuel) as (s2 & b & Hu2 & Hb).
  rewrite Hu in Hu2. injection Hu2 as Es Eb. subst s2 b.
  assert (Hsolved : is_solved s' = true).
  { apply Hb. split_and!.
    - intros c Hc. by apply elem_of_nil in Hc.
    - intros x y t [Hx Hy] Ht. cbn [fst snd width height PuzzleGame_init] in Hx, Hy.
      rewrite PuzzleGame_init_get in Ht by done. simplify_eq. by left.
    - intros x y ds d Hr. by apply no_sources_unreachable in Hr. }
  rewrite Hu, Hsolved. f_equal. f_equal.
  destruct Hst as (Hw' & Hh' & Hps & Hbu & Hd & Hg).
  assert (Hgrid : grid s' = grid (PuzzleGame_init w h)).
  { apply (grid_ext w h); [done|by apply PuzzleGame_init_dims|].
    intros x y Hx Hy. destruct (Hg x y) as (t & Ht & Ht'); [done|].
    rewrite Ht', Ht. rewrite PuzzleGame_init_get in Ht by done. simplify_eq.
    rewrite bool_decide_eq_false_2; [done|].
    intros Hin. apply HD in Hin. by apply no_sources_unreachable in Hin. }
  destruct s'. simpl in *. by subst.
Qed.

Lemma fresh_board_solved_witness :
  update_power_flow 7 (PuzzleGame_init 3 2)
  = Ok (set_is_solved true (PuzzleGame_init 3 2), true).
Proof. apply (fresh_board_solved 7 3 2); [lia|lia|cbv; lia]. Defined.

(** ** Clicks *)

Lemma same_shape_inv t t' : same_shape t t' -> tile_inv t -> tile_inv t'.
Proof. intros (Hty & Hm & Hr & _) [H1 H2]. split; congruence. Qed.

Lemma board_okb s :
  game_okb s = true -> grid_invb (grid s) = true -> board_ok s.
Proof.
  intros Hok Hinv. split; [by apply game_okb_ok|].
  intros x y t [Hx Hy] Ht. simpl in *.
  apply (grid_invb_tile (grid s) x y t); first [done|lia].
Qed.

(** One click on a well-formed board: it returns [None] and the board
    stays well formed. *)
Lemma handle_click_board_ok fuel s p :
  board_ok s ->
  (length (cells (width s) (height s)) < fuel)%nat ->
  ∃ s',
    handle_click fuel s p = Ok (s', None) ∧ board_ok s' ∧
    width s' = width s ∧ height s' = height s ∧
    power_sources s' = power_sources s ∧ bulbs s' = bulbs s.
Proof.
  intros [Hok Hinv] Hfuel. unfold handle_click.
  set (x := p.1 `div` TILE_SIZE). set (y := p.2 `div` TILE_SIZE).
  destruct (is_valid_position s x y) eqn:Hval; simpl.
  2:{ exists s. by split_and!. }
  apply is_valid_position_true in Hval. pose proof Hval as [Hx Hy]. simpl in Hx, Hy.
  destruct (s0_tile s Hok x y Hval) as (t & ds & Ht & Hds).
  rewrite Ht. simpl.
  pose proof (Hinv x y t Hval Ht) as Hti.
  pose proof (rotate_tile_inv t Hti) as Hti'.
  destruct (rotate_readable t ds Hti Hds) as [ds' Hds'].
  destruct (rotate t) as [t1 rotated] eqn:Hrot. simpl in Hti', Hds'.
  pose proof Hok as ([Hd _] & _).
  destruct (grid_modify_dims (fun _ => t1) _ _ (grid s) x y Hd Hx Hy)
    as (t0 & g1 & _ & Hm1 & Hd1 & Hg1 & Ho1).
  unfold grid_set. rewrite Hm1. simpl.
  assert (Hok1 : game_ok (set_grid g1 s))
    by (by apply (game_ok_set_tile s x y t1 g1 ds')).
  assert (Hinv1 : ∀ x' y' t', valid s (x', y') -> grid_get g1 x' y' = Ok t' -> tile_inv t').
  { intros x' y' t' Hv' Ht'. destruct (decide ((x', y') = (x, y))) as [E|Hne].
    - simplify_eq. rewrite Hg1 in Ht'. by simplify_eq.
    - destruct Hv' as [Hx' Hy']. simpl in *. rewrite Ho1 in Ht' by done.
      by apply (Hinv x' y'). }
  destruct rotated.
  - destruct (update_power_flow_spec fuel (set_grid g1 s) Hok1 Hfuel)
      as (s' & D & Hu & Hst & _).
    rewrite Hu. simpl. exists s'.
    pose proof Hst as (Hw & Hh & Hps & Hb & _).
    split_and!; try done. split; [by apply (flow_state_game_ok _ s' D Hok1)|].
    intros x' y' t' Hv' Ht'.
    assert (Hv1 : valid (set_grid g1 s) (x', y'))
      by (unfold valid in *; by rewrite <- Hw, <- Hh).
    destruct (flow_state_shape _ s' D x' y' Hst Hv1) as (t1' & t2 & Ht1' & Ht2 & Hsh).
    rewrite Ht' in Ht2. simplify_eq.
    apply (same_shape_inv t1' t2 Hsh). by apply (Hinv1 x' y').
  - exists (set_grid g1 s). by split_and!.
Qed.

Lemma click_results_ok fuel clicks : ∀ s out,
  board_ok s ->
  (length (cells (width s) (height s)) < fuel)%nat ->
  ∃ s',
    foldM (fun so p =>
             sr ← handle_click fuel (fst so) p;
             Ok (fst sr, snd so ++ [snd sr]))
          (s, out) clicks
      = Ok (s', out ++ replicate (length clicks) None) ∧
    click_all fuel s clicks = Ok s' ∧ board_ok s' ∧
    width s' = width s ∧ height s' = height s ∧
    power_sources s' = power_sources s ∧ bulbs s' = bulbs s.
Proof.
  induction clicks as [|p clicks IH]; intros s out Hb Hfuel.
  - exists s. cbn [foldM length replicate]. rewrite app_nil_r. by split_and!.
  - destruct (handle_click_board_ok fuel s p Hb Hfuel)
      as (s1 & Hc & Hb1 & Hw & Hh & Hps & Hbu).
    destruct (IH s1 (out ++ [None]) Hb1)
      as (s' & Hres & Hrun & Hb' & Hw' & Hh' & Hps' & Hbu').
    { by rewrite Hw, Hh. }
    exists s'. unfold click_all in *. cbn [foldM fst snd length replicate].
    rewrite Hc. cbn [mbind res_bind fst snd]. rewrite Hres, <- app_assoc.
    split_and!; try done; congruence.
Qed.

(** X13. No sequence of clicks makes the game raise: on a well-formed
    board whose tiles satisfy the tile invariant, any list of click
    positions, in or out of bounds, is handled to the end, every
    [handle_click] returns [None], and the board is still well formed,
    with the same dimensions, sources and bulbs. *)
Theorem click_all_ok (fuel : nat) (s : PuzzleGame) (clicks : list pos) :
  game_okb s = true ->
  grid_invb (grid s) = true ->
  (length (cells (width s) (height s)) < fuel)%nat ->
  ∃ s',
    click_results fuel s clicks = Ok (s', replicate (length clicks) None) ∧
    click_all fuel s clicks = Ok s' ∧ board_ok s' ∧
    width s' = width s ∧ height s' = height s ∧
    power_sources s' = power_sources s ∧ bulbs s' = bulbs s.
Proof.
  intros Hokb Hinvb Hfuel. pose proof (board_okb s Hokb Hinvb) as Hb.
  destruct (click_results_ok fuel clicks s [] Hb Hfuel) as (s' & Hres & Hrest).
  exists s'. split; [|done]. unfold click_results. by rewrite Hres.
Qed.

Lemma click_all_ok_witness :
  ∃ s',
    click_results 4 demo_game [(70, 10); (200, 0); (-5, 10); (70, 10)]
      = Ok (s', replicate (length [(70, 10); (200, 0); (-5, 10); (70, 10)]) None) ∧
    click_all 4 demo_game [(70, 10); (200, 0); (-5, 10); (70, 10)] = Ok s' ∧
    board_ok s' ∧
    width s' = width demo_game ∧ height s' = height demo_game ∧
    power_sources s' = power_sources demo_game ∧ bulbs s' = bulbs demo_game.
Proof.
  apply (click_all_ok 4 demo_game); [reflexivity|reflexivity|cbv; lia].
Defined.

(** ** The finalizer on boards with stale Empty tiles *)

Lemma grid_okwb_wfw s : grid_okwb (width s) (height s) (grid s) = true -> grid_wfw s.
Proof.
  unfold grid_okwb. rewrite andb_true_iff, bool_decide_eq_true, forallb_forall.
  intros [Hh Hrows]. split.
  - split; [done|]. intros row Hin. apply list_elem_of_In, Hrows in Hin.
    apply andb_true_iff in Hin as [Hin _]. by apply bool_decide_eq_true in Hin.
  - intros x y t [Hx Hy] Hg Hty. simpl in *.
    apply grid_get_inv in Hg as (row & Hr & Ht); [|lia..].
    apply list_elem_of_lookup_2, list_elem_of_In, Hrows in Hr.
    apply andb_true_iff in Hr as [_ Hr]. rewrite forallb_forall in Hr.
    apply list_elem_of_lookup_2, list_elem_of_In, Hr in Ht.
    unfold tile_okwb, tile_okb in Ht. apply orb_true_iff in Ht as [Ht|Ht].
    + by apply bool_decide_eq_true in Ht.
    + destruct (get_connections t); [eauto|done..].
Qed.

Lemma dir_ok_points s x y d :
  dir_ok s x y d ↔
  valid s (get_neighbor_position x y d) ∧
  points s (get_neighbor_position x y d) (get_opposite_direction d).
Proof. reflexivity. Qed.

Lemma neighbor_ne x y d : get_neighbor_position x y d ≠ (x, y).
Proof. destruct d; simpl; intros [=]; lia. Qed.

Lemma connecting_step_weak s x y acc d :
  grid_wfw s ->
  ∃ b, connecting_step s x y acc d = Ok (acc ++ pick b d) ∧
       (b = true ↔ dir_ok s x y d).
Proof.
  intros [Hd Ht]. unfold connecting_step, dir_ok.
  destruct (get_neighbor_position x y d) as [nx ny]. simpl.
  destruct (is_valid_position s nx ny) eqn:Hv.
  2:{ apply is_valid_position_false in Hv. exists false. simpl.
      rewrite app_nil_r. split; [done|]. split; [done|]. by intros [? _]. }
  apply is_valid_position_true in Hv. pose proof Hv as [Hx Hy]. simpl in Hx, Hy.
  destruct (grid_get_dims _ _ _ nx ny Hd Hx Hy) as [n Hn]. rewrite Hn. simpl.
  case_bool_decide as Hty.
  - destruct (Ht nx ny n Hv Hn Hty) as [dsn Hc].
    unfold is_connected_to. rewrite Hc. simpl.
    exists (bool_decide (get_opposite_direction d ∈ dsn)). split.
    + case_bool_decide; simpl; [done|by rewrite app_nil_r].
    + rewrite bool_decide_eq_true. split.
      * intros Hin. split; [done|]. by exists n, dsn.
      * intros (_ & n' & dsn' & Hn' & _ & Hc' & Hin). simplify_eq.
        rewrite Hc in Hc'. by simplify_eq.
  - exists false. simpl. rewrite app_nil_r. split; [done|]. split; [done|].
    intros (_ & n' & dsn' & Hn' & Hne & _). by simplify_eq.
Qed.

Lemma connecting_neighbors_weak s x y :
  grid_wfw s ->
  ∃ bu br bd bl,
    connecting_neighbors s x y = Ok (subset_dirs bu br bd bl) ∧
    ∀ d, d ∈ subset_dirs bu br bd bl ↔ dir_ok s x y d.
Proof.
  intros Hwf. unfold connecting_neighbors, all_directions, subset_dirs.
  destruct (connecting_step_weak s x y [] UP Hwf) as (bu & E1 & H1).
  destruct (connecting_step_weak s x y ([] ++ pick bu UP) RIGHT Hwf) as (br & E2 & H2).
  destruct (connecting_step_weak s x y (([] ++ pick bu UP) ++ pick br RIGHT) DOWN Hwf)
    as (bd & E3 & H3).
  destruct (connecting_step_weak s x y
              ((([] ++ pick bu UP) ++ pick br RIGHT) ++ pick bd DOWN) LEFT Hwf)
    as (bl & E4 & H4).
  exists bu, br, bd, bl. split.
  - cbn [foldM]. rewrite E1. cbn [mbind res_bind]. rewrite E2. cbn [mbind res_bind].
    rewrite E3. cbn [mbind res_bind]. rewrite E4. cbn [mbind res_bind].
    by rewrite app_nil_l, <- !app_assoc.
  - intros d. fold (subset_dirs bu br bd bl). rewrite elem_of_subset_dirs.
    by destruct d.
Qed.

(** The rewritten tile, read the way a neighbour is read. *)
Lemma reshape_tile_points bu br bd bl t d :
  let S := subset_dirs bu br bd bl in
  (tile_type (reshape_tile S t) ≠ EMPTY ∧
   ∃ ds, get_connections (reshape_tile S t) = Ok ds ∧ d ∈ ds) ↔ d ∈ S.
Proof.
  intros S. subst S.
  destruct bu, br, bd, bl, d;
    (split;
     [ intros (Hty & ds & Hc & Hd); first [done | vm_compute in Hc; simplify_eq; set_solver]
     | intros Hin; first [by apply elem_of_nil in Hin | by (vm_compute in Hin; set_solver)
                         | (split; [done|]; eexists; split; [reflexivity|set_solver])] ]).
Qed.

Lemma reshape_tile_idemp bu br bd bl t :
  let S := subset_dirs bu br bd bl in
  reshape_tile S (reshape_tile S t) = reshape_tile S t.
Proof. intros S. subst S. by destruct bu, br, bd, bl. Qed.

Lemma reshape_tile_flags S t :
  is_powered (reshape_tile S t) = is_powered t ∧
  used_in_solution (reshape_tile S t) = used_in_solution t ∧
  power_connection_pattern (reshape_tile S t) = power_connection_pattern t.
Proof.
  unfold reshape_tile. destruct S as [|d S]; [done|].
  destruct t as [tt m r pw us pat]. cbv zeta.
  repeat match goal with
         | |- context [if ?b then _ else _] => destruct b
         end; by destruct d.
Qed.

(** One call of [fix_pipe_connections] where only the non-Empty tiles
    are known to be readable. *)
Lemma fix_pipe_connections_weak s x y :
  grid_wfw s -> valid s (x, y) ->
  ∃ bu br bd bl t g',
    let S := subset_dirs bu br bd bl in
    (∀ d, d ∈ S ↔ dir_ok s x y d) ∧
    grid_get (grid s) x y = Ok t ∧
    fix_pipe_connections s x y = Ok (set_grid g' s) ∧
    grid_dims (width s) (height s) g' ∧
    grid_get g' x y = Ok (reshape_tile S t) ∧
    (∀ x' y', valid s (x', y') -> (x', y') ≠ (x, y) ->
              grid_get g' x' y' = grid_get (grid s) x' y') ∧
    grid_wfw (set_grid g' s).
Proof.
  intros Hwf Hv. pose proof Hwf as [Hd Hr]. pose proof Hv as [Hx Hy]. simpl in Hx, Hy.
  destruct (connecting_neighbors_weak s x y Hwf) as (bu & br & bd & bl & Hn & HS).
  destruct (grid_get_dims _ _ (grid s) x y Hd Hx Hy) as [t Ht].
  destruct (grid_modify_dims (fun _ => reshape_tile (subset_dirs bu br bd bl) t)
              _ _ (grid s) x y Hd Hx Hy) as (t0 & g' & _ & Hm & Hd' & Hg' & Ho).
  exists bu, br, bd, bl, t, g'. cbn zeta.
  assert (Hoth : ∀ x' y', valid s (x', y') -> (x', y') ≠ (x, y) ->
                          grid_get g' x' y' = grid_get (grid s) x' y').
  { intros x' y' [Hx' Hy'] Hne. simpl in *. by apply Ho. }
  split_and!; try done.
  - unfold fix_pipe_connections. rewrite Ht. simpl. rewrite Hn. simpl.
    unfold grid_set. by rewrite Hm.
  - split; [done|]. intros x' y' t' Hv' Ht' Hty. simpl in *.
    destruct (decide ((x', y') = (x, y))) as [E|Hne].
    + simplify_eq. rewrite Hg' in Ht'. simplify_eq.
      destruct (decide (subset_dirs bu br bd bl = [])) as [E|HS'].
      * rewrite E in Hty. done.
      * destruct (reshape_tile_roundtrip bu br bd bl t HS') as [_ [(ds & Hds & _) _]].
        eauto.
    + rewrite Hoth in Ht' by done. by apply (Hr x' y').
Qed.

Lemma points_frame s g' x y c d :
  (∀ x' y', valid s (x', y') -> (x', y') ≠ (x, y) ->
            grid_get g' x' y' = grid_get (grid s) x' y') ->
  valid s c -> c ≠ (x, y) ->
  (points (set_grid g' s) c d ↔ points s c d).
Proof.
  intros Ho Hv Hne. unfold points. simpl. destruct c as [x' y']. simpl.
  by rewrite Ho.
Qed.

Lemma dir_ok_frame s g' x y x0 y0 d :
  (∀ x' y', valid s (x', y') -> (x', y') ≠ (x, y) ->
            grid_get g' x' y' = grid_get (grid s) x' y') ->
  get_neighbor_position x0 y0 d ≠ (x, y) ->
  (dir_ok (set_grid g' s) x0 y0 d ↔ dir_ok s x0 y0 d).
Proof.
  intros Ho Hne. rewrite !dir_ok_points.
  change (valid (set_grid g' s)) with (valid s).
  split; intros [Hv Hp]; (split; [done|]).
  - by apply (points_frame s g' x y) in Hp.
  - by apply (points_frame s g' x y).
Qed.

(** X9. [fix_pipe_connections] is idempotent: on a board whose non-Empty
    tiles are readable, a second call at the same in-bounds cell changes
    nothing. *)
Theorem fix_pipe_connections_idempotent (s : PuzzleGame) (x y : Z) :
  grid_okwb (width s) (height s) (grid s) = true ->
  valid s (x, y) ->
  ∃ s', fix_pipe_connections s x y = Ok s' ∧ fix_pipe_connections s' x y = Ok s'.
Proof.
  intros Hokw Hv. apply grid_okwb_wfw in Hokw.
  destruct (fix_pipe_connections_weak s x y Hokw Hv)
    as (bu & br & bd & bl & t & g1 & HS & Ht & Hfix & Hd1 & Hg1 & Ho1 & Hwf1).
  cbn zeta in *.
  exists (set_grid g1 s). split; [done|].
  destruct (fix_pipe_connections_weak (set_grid g1 s) x y Hwf1 Hv)
    as (bu' & br' & bd' & bl' & t1 & g2 & HS' & Ht1 & Hfix' & Hd2 & Hg2 & Ho2 & _).
  cbn zeta in *. simpl in Ht1. rewrite Hg1 in Ht1. simplify_eq.
  assert (Hsame : ∀ d, d ∈ subset_dirs bu' br' bd' bl' ↔ d ∈ subset_dirs bu br bd bl).
  { intros d. rewrite HS', HS. apply (dir_ok_frame s g1 x y); [done|].
    apply neighbor_ne. }
  assert (bu' = bu ∧ br' = br ∧ bd' = bd ∧ bl' = bl) as (-> & -> & -> & ->).
  { pose proof (Hsame UP) as H1. pose proof (Hsame RIGHT) as H2.
    pose proof (Hsame DOWN) as H3. pose proof (Hsame LEFT) as H4.
    rewrite !elem_of_subset_dirs in H1, H2, H3, H4.
    split_and!; apply eq_true_iff_eq; unfold is_true.
    - destruct bu, bu'; naive_solver.
    - destruct br, br'; naive_solver.
    - destruct bd, bd'; naive_solver.
    - destruct bl, bl'; naive_solver. }
  rewrite reshape_tile_idemp in Hg2.
  rewrite Hfix'. f_equal. simpl.
  assert (g2 = g1); [|by subst].
  apply (grid_ext (width s) (height s)); [done|done|].
  intros x' y' Hx' Hy'. destruct (decide ((x', y') = (x, y))) as [E|Hne].
  - simplify_eq. by rewrite Hg2, Hg1.
  - by apply Ho2.
Qed.

Lemma fix_pipe_connections_idempotent_witness :
  ∃ s', fix_pipe_connections lone_elbow 0 0 = Ok s' ∧
        fix_pipe_connections s' 0 0 = Ok s'.
Proof.
  apply (fix_pipe_connections_idempotent lone_elbow 0 0); [reflexivity|].
  split; simpl; lia.
Defined.

(** ** [finalize_puzzle] *)

(** The finalizer on a board whose non-Empty tiles are readable. *)
Lemma finalize_puzzle_wfw (s : PuzzleGame) :
  grid_wfw s ->
  ∃ s',
    finalize_puzzle s = Ok s' ∧
    width s' = width s ∧ height s' = height s ∧
    power_sources s' = power_sources s ∧ bulbs s' = bulbs s ∧
    grid_wfw s' ∧
    ∀ x y, valid s (x, y) ->
      ∃ t t', grid_get (grid s) x y = Ok t ∧ grid_get (grid s') x y = Ok t' ∧
        is_powered t' = is_powered t ∧ used_in_solution t' = used_in_solution t ∧
        power_connection_pattern t' = power_connection_pattern t ∧
        (¬ is_pipe t -> t' = t) ∧
        (is_pipe t -> settled s' (x, y)).
Proof.
  intros Hokw. unfold finalize_puzzle.
  destruct (foldM_inv
    (fun s1 '(x, y) =>
       tile ← grid_get (grid s1) x y;
       if bool_decide (tile_type tile ∉ [POWER_SOURCE; LIGHT_BULB; EMPTY])
       then fix_pipe_connections s1 x y else Ok s1)
    (fun pre s1 =>
       width s1 = width s ∧ height s1 = height s ∧
       power_sources s1 = power_sources s ∧ bulbs s1 = bulbs s ∧
       grid_wfw s1 ∧
       ∀ x y, valid s (x, y) ->
         ∃ t t', grid_get (grid s) x y = Ok t ∧ grid_get (grid s1) x y = Ok t' ∧
           is_powered t' = is_powered t ∧ used_in_solution t' = used_in_solution t ∧
           power_connection_pattern t' = power_connection_pattern t ∧
           ((x, y) ∉ pre -> t' = t) ∧
           (¬ is_pipe t -> t' = t) ∧
           ((x, y) ∈ pre -> is_pipe t -> settled s1 (x, y)))
    (cells (width s) (height s)) s)
    as (s' & Hrun & Hw & Hh & Hps & Hb & Hwf' & Hall).
  - split_and!; try done. intros x y [Hx Hy]. simpl in *.
    destruct Hokw as [Hd _]. destruct (grid_get_dims _ _ _ x y Hd Hx Hy) as [t Ht].
    exists t, t. split_and!; try done. intros Hin. by apply elem_of_nil in Hin.
  - intros pre [x y] s1 Hin (Hw1 & Hh1 & Hps1 & Hb1 & Hwf1 & Hall1).
    apply elem_of_cells_valid in Hin. rename Hin into Hv.
    assert (Hval1 : ∀ c, valid s1 c ↔ valid s c)
      by (intros c; unfold valid; by rewrite Hw1, Hh1).
    destruct (Hall1 x y Hv) as (t & t1 & Ht & Ht1 & Hp1 & Hu1 & Hpat1 & Hnew1 & Hnp1 & Hset1).
    rewrite Ht1. cbn [mbind res_bind].
    case_bool_decide as Hpipe.
    + destruct (fix_pipe_connections_weak s1 x y Hwf1 (proj2 (Hval1 _) Hv))
        as (bu & br & bd & bl & t1' & g2 & HS & Ht1' & Hfix & Hd2 & Hg2 & Ho2 & Hwf2).
      cbn zeta in *. rewrite Ht1 in Ht1'. simplify_eq.
      exists (set_grid g2 s1). split; [done|]. split_and!; try done.
      intros x' y' Hv'.
      destruct (Hall1 x' y' Hv') as (t0 & t0' & Ht0 & Ht0' & Hp0 & Hu0 & Hpat0 & Hnew0 & Hnp0 & Hset0).
      destruct (decide ((x', y') = (x, y))) as [E|Hne].
      * injection E as -> ->.
        assert (t0' = t1') by congruence. assert (t0 = t) by congruence.
        subst t0' t0. simpl. rewrite Hg2.
        destruct (reshape_tile_flags (subset_dirs bu br bd bl) t1') as (F1 & F2 & F3).
        eexists t, _. split_and!; try done; try congruence.
        -- intros Hnin. exfalso. apply Hnin. set_solver.
        -- intros Hnp. exfalso. rewrite (Hnp0 Hnp) in Hpipe. by apply Hnp.
        -- intros _ _ d. cbn [fst snd].
           rewrite (dir_ok_frame s1 g2 x y x y d Ho2 (neighbor_ne x y d)).
           rewrite <- HS. rewrite <- (reshape_tile_points bu br bd bl t1' d).
           unfold points. simpl. rewrite Hg2. split.
           ++ intros (t2 & ds & H1 & H2 & H3 & H4). simplify_eq. eauto.
           ++ intros (H2 & ds & H3 & H4). eauto 6.
      * simpl. rewrite (Ho2 x' y') by (first [by apply Hval1 | done]).
        exists t0, t0'. split_and!; try done.
        -- intros Hnin. apply Hnew0. set_solver.
        -- intros Hin' Hp d. cbn [fst snd].
           assert (Hin0 : (x', y') ∈ pre) by set_solver.
           specialize (Hset0 Hin0 Hp d). cbn [fst snd] in Hset0.
           rewrite (points_frame s1 g2 x y (x', y') d Ho2) by (first [by apply Hval1|done]).
           rewrite Hset0.
           destruct (decide (get_neighbor_position x' y' d = (x, y))) as [En|Nn].
           ++ rewrite <- Hset0. rewrite dir_ok_points, En.
              change (valid (set_grid g2 s1)) with (valid s1).
              assert (Hback : get_neighbor_position x y (get_opposite_direction d) = (x', y')).
              { pose proof (get_neighbor_position_back x' y' d) as Hb'.
                by rewrite En in Hb'. }
              pose proof (HS (get_opposite_direction d)) as HS'.
              rewrite dir_ok_points, Hback, get_opposite_direction_involutive in HS'.
              pose proof (reshape_tile_points bu br bd bl t1' (get_opposite_direction d)) as Hrp.
              cbn zeta in Hrp.
              split.
              ** intros Hpt. split; [by apply Hval1|].
                 assert (Hin2 : get_opposite_direction d ∈ subset_dirs bu br bd bl).
                 { apply HS'. split; [by apply Hval1|done]. }
                 apply Hrp in Hin2 as (H2 & ds & H3 & H4).
                 unfold points. simpl. rewrite Hg2. eauto 6.
              ** intros [_ (t2 & ds & H1 & H2 & H3 & H4)]. simpl in H1.
                 rewrite Hg2 in H1. simplify_eq.
                 assert (Hin2 : get_opposite_direction d ∈ subset_dirs bu br bd bl).
                 { apply Hrp. eauto. }
                 by apply HS' in Hin2 as [_ ?].
           ++ symmetry. by apply (dir_ok_frame s1 g2 x y).
    + exists s1. split; [done|]. split_and!; try done.
      intros x' y' Hv'.
      destruct (Hall1 x' y' Hv') as (t0 & t0' & Ht0 & Ht0' & Hp0 & Hu0 & Hpat0 & Hnew0 & Hnp0 & Hset0).
      exists t0, t0'. split_and!; try done.
      * intros Hnin. apply Hnew0. set_solver.
      * intros Hin' Hp.
        destruct (decide ((x', y') ∈ pre)) as [Hin0|Hnin0]; [by apply Hset0|].
        assert (E : (x', y') = (x, y)) by set_solver. injection E as -> ->.
        assert (t0' = t1) by congruence. subst t0'.
        rewrite (Hnew0 Hnin0) in Hpipe. by apply Hp in Hpipe.
  - exists s'. split; [exact Hrun|]. split_and!; try done.
    intros x y Hv.
    destruct (Hall x y Hv) as (t & t' & Ht & Ht' & Hp & Hu & Hpat & _ & Hnp & Hset).
    exists t, t'. split_and!; try done.
    intros Hpipe. apply Hset; [|done]. by apply elem_of_cells_valid.
Qed.

(** X10. On a board whose non-Empty tiles are readable, [finalize_puzzle]
    returns.  It keeps the dimensions and the lists, leaves every power
    source, bulb and Empty tile as it was, keeps the flags and pattern of
    every tile, and leaves every tile that was a pipe open exactly toward
    the in-bounds, non-Empty neighbours that are open toward it: no pipe
    end is left dangling and no neighbour's end toward a pipe is left
    unanswered. *)
Theorem finalize_puzzle_settles (s : PuzzleGame) :
  grid_okwb (width s) (height s) (grid s) = true ->
  ∃ s',
    finalize_puzzle s = Ok s' ∧
    width s' = width s ∧ height s' = height s ∧
    power_sources s' = power_sources s ∧ bulbs s' = bulbs s ∧
    grid_wfw s' ∧
    ∀ x y, valid s (x, y) ->
      ∃ t t', grid_get (grid s) x y = Ok t ∧ grid_get (grid s') x y = Ok t' ∧
        is_powered t' = is_powered t ∧ used_in_solution t' = used_in_solution t ∧
        power_connection_pattern t' = power_connection_pattern t ∧
        (¬ is_pipe t -> t' = t) ∧
        (is_pipe t -> settled s' (x, y)).
Proof. intros Hokw. apply finalize_puzzle_wfw. by apply grid_okwb_wfw. Qed.

Lemma finalize_puzzle_settles_witness :
  ∃ s',
    finalize_puzzle demo_pipes = Ok s' ∧
    width s' = width demo_pipes ∧ height s' = height demo_pipes ∧
    power_sources s' = power_sources demo_pipes ∧ bulbs s' = bulbs demo_pipes ∧
    grid_wfw s' ∧
    ∀ x y, valid demo_pipes (x, y) ->
      ∃ t t', grid_get (grid demo_pipes) x y = Ok t ∧ grid_get (grid s') x y = Ok t' ∧
        is_powered t' = is_powered t ∧ used_in_solution t' = used_in_solution t ∧
        power_connection_pattern t' = power_connection_pattern t ∧
        (¬ is_pipe t -> t' = t) ∧
        (is_pipe t -> settled s' (x, y)).
Proof. apply (finalize_puzzle_settles demo_pipes). reflexivity. Defined.

(** ** Where the generator puts the sources *)

Lemma insert_perm_head {A : Type} (l : list A) j (b x : A) :
  l !! j = Some b -> b :: <[j := x]> l ≡ₚ x :: l.
Proof.
  revert j. induction l as [|y l IH]; intros [|j] Hj; simplify_eq/=.
  - apply perm_swap.
  - rewrite perm_swap. rewrite (IH j Hj). apply perm_swap.
Qed.

Lemma swap_perm {A : Type} (l : list A) i j : swap l i j ≡ₚ l.
Proof.
  unfold swap. destruct (l !! i) as [a|] eqn:Ha; [|done].
  destruct (l !! j) as [b|] eqn:Hb; [|done].
  revert i j Ha Hb. induction l as [|x l IH]; intros [|i] [|j] Ha Hb; simplify_eq/=.
  - done.
  - by apply insert_perm_head.
  - by apply insert_perm_head.
  - by rewrite IH.
Qed.

Lemma shuffle_from_perm {A : Type} i : ∀ (l : list A) r, fst (shuffle_from i l r) ≡ₚ l.
Proof.
  induction i as [|i IH]; intros l r; [done|].
  cbn [shuffle_from next_raw]. rewrite IH. apply swap_perm.
Qed.

Lemma NoDup_range n : NoDup (range n).
Proof. unfold range. apply NoDup_fmap_2; [apply _|apply NoDup_seq]. Qed.

Lemma NoDup_cells w h : NoDup (cells w h).
Proof.
  unfold cells. pose proof (NoDup_range h) as Hh. revert Hh.
  generalize (range h) as ys. induction ys as [|y ys IH]; intros Hnd; [constructor|].
  apply NoDup_cons in Hnd as [Hy Hnd]. simpl. apply NoDup_app. split_and!.
  - apply NoDup_fmap_2; [|apply NoDup_range]. by intros ?? [=].
  - intros c Hc Hc'. apply list_elem_of_fmap in Hc as (x & -> & _).
    apply list_elem_of_In, in_flat_map in Hc' as (y' & Hy' & Hc').
    apply list_elem_of_In, list_elem_of_fmap in Hc' as (x' & [= -> ->] & _).
    by apply list_elem_of_In in Hy'.
  - by apply IH.
Qed.

Lemma place_sources_frame n : ∀ s available positions r,
  grid_dims (width s) (height s) (grid s) ->
  Forall (valid s) available ->
  ∃ s' available' positions' r',
    place_sources n s available positions r = Ok (s', available', positions', r') ∧
    bulbs s' = bulbs s ∧
    positions' ++ available' ≡ₚ positions ++ available ∧
    (∀ c, c ∈ positions -> c ∈ positions') ∧
    ∀ x y, valid s (x, y) -> (x, y) ∉ positions' ->
           grid_get (grid s') x y = grid_get (grid s) x y.
Proof.
  induction n as [|n IH]; intros s available positions r Hd Hav.
  { exists s, available, positions, r. by split_and!. }
  destruct available as [|[x y] available].
  { exists s, [], positions, r. by split_and!. }
  apply Forall_cons in Hav as [[Hx Hy] Hav]. simpl in Hx, Hy.
  cbn [place_sources].
  destruct (choose_source_type_spec r) as (count & p & r1 & Hcs & Hc & Hsub).
  rewrite Hcs. cbn [mbind res_bind]. unfold Tile_init. rewrite bool_decide_eq_true_2 by done.
  destruct (randint_spec 0 12 r1 ltac:(lia)) as (p0 & r2 & -> & _).
  cbn [mbind res_bind fst snd]. unfold grid_set.
  destruct (grid_modify_dims (fun _ => Tile_make POWER_SOURCE 0 (Some p0))
              _ _ (grid s) x y Hd Hx Hy) as (t0 & g1 & _ & -> & Hd1 & Hg1 & Ho1).
  cbn [mbind res_bind].
  destruct (grid_modify_dims (set_power_connection_pattern (Some p))
              _ _ g1 x y Hd1 Hx Hy) as (t1 & g2 & Ht1 & -> & Hd2 & Hg2 & Ho2).
  cbn [mbind res_bind].
  destruct (IH (set_power_sources (power_sources s ++ [(x, y)]) (set_grid g2 s))
               available (positions ++ [(x, y)]) r2 Hd2 Hav)
    as (s' & av' & pos' & r' & Hrun & Hb & Hperm & Hsub' & Hfr).
  exists s', av', pos', r'. split_and!; try done.
  - rewrite Hperm. rewrite <- app_assoc. done.
  - intros c Hc'. apply Hsub'. set_solver.
  - intros x' y' Hv' Hnin. rewrite Hfr by done. simpl.
    assert (Hne : (x', y') ≠ (x, y)).
    { intros [= -> ->]. apply Hnin, Hsub'. set_solver. }
    destruct Hv' as [Hx' Hy']. simpl in *. by rewrite Ho2, Ho1.
Qed.

(** The placement loop next to its draws: on distinct positions every
    round leaves its source where it was put. *)
Lemma place_sources_trace n : ∀ s available positions r,
  grid_dims (width s) (height s) (grid s) ->
  Forall (valid s) available -> NoDup available ->
  ∃ s' available' positions' r' draws,
    place_sources n s available positions r = Ok (s', available', positions', r') ∧
    source_draws n available r = Ok draws ∧
    width s' = width s ∧ height s' = height s ∧
    power_sources s' = power_sources s ++ ((fun d => fst (fst d)) <$> draws) ∧
    positions' = positions ++ ((fun d => fst (fst d)) <$> draws) ∧
    length draws = (n `min` length available)%nat ∧
    (∀ c count p, (c, count, p) ∈ draws ->
       c ∈ available ∧ 1 ≤ count ≤ 4 ∧ in_subrange count p ∧
       ∃ t, grid_get (grid s') (fst c) (snd c) = Ok t ∧
            tile_type t = POWER_SOURCE ∧ rotation t = 0 ∧
            power_connection_pattern t = Some p) ∧
    ∀ x y, valid s (x, y) -> (x, y) ∉ available ->
           grid_get (grid s') x y = grid_get (grid s) x y.
Proof.
  induction n as [|n IH]; intros s available positions r Hd Hav Hnd.
  { exists s, available, positions, r, []. cbn [place_sources source_draws fmap list_fmap].
    rewrite !app_nil_r. split_and!; try done.
    intros c count p Hin. by apply elem_of_nil in Hin. }
  destruct available as [|[x y] available].
  { exists s, [], positions, r, []. cbn [place_sources source_draws fmap list_fmap].
    rewrite !app_nil_r. split_and!; try done.
    intros c count p Hin. by apply elem_of_nil in Hin. }
  apply Forall_cons in Hav as [[Hx Hy] Hav]. simpl in Hx, Hy.
  apply NoDup_cons in Hnd as [Hnin Hnd].
  cbn [place_sources source_draws].
  destruct (choose_source_type_spec r) as (count & p & r1 & Hcs & Hc & Hsub).
  rewrite Hcs. cbn [mbind res_bind]. unfold Tile_init. rewrite bool_decide_eq_true_2 by done.
  destruct (randint_spec 0 12 r1 ltac:(lia)) as (p0 & r2 & -> & _).
  cbn [mbind res_bind fst snd]. unfold grid_set.
  destruct (grid_modify_dims (fun _ => Tile_make POWER_SOURCE 0 (Some p0))
              _ _ (grid s) x y Hd Hx Hy) as (t0 & g1 & _ & -> & Hd1 & Hg1 & Ho1).
  cbn [mbind res_bind].
  destruct (grid_modify_dims (set_power_connection_pattern (Some p))
              _ _ g1 x y Hd1 Hx Hy) as (t1 & g2 & Ht1 & -> & Hd2 & Hg2 & Ho2).
  cbn [mbind res_bind].
  assert (t1 = Tile_make POWER_SOURCE 0 (Some p0)) by congruence. subst t1.
  destruct (IH (set_power_sources (power_sources s ++ [(x, y)]) (set_grid g2 s))
               available (positions ++ [(x, y)]) r2 Hd2 Hav Hnd)
    as (s' & av' & pos' & r' & draws & Hrun & Hdr & Hw & Hh & Hps & Hpos & Hlen & Hall & Hfr).
  rewrite Hrun, Hdr. cbn [mbind res_bind].
  exists s', av', pos', r', ((x, y, count, p) :: draws).
  cbn [width height power_sources grid set_power_sources set_grid] in *.
  split_and!; try done.
  - rewrite Hps. cbn [fmap list_fmap fst]. by rewrite <- app_assoc.
  - rewrite Hpos. cbn [fmap list_fmap fst]. by rewrite <- app_assoc.
  - cbn [length]. lia.
  - intros c count' p' Hin. apply elem_of_cons in Hin as [E|Hin].
    + injection E as -> -> ->. split_and!; [by apply list_elem_of_here|lia|lia|done|].
      cbn [fst snd]. rewrite (Hfr x y) by done. rewrite Hg2.
      eexists. split; [done|]. by split_and!.
    + destruct (Hall c count' p' Hin) as (Hc' & Hrest). split; [|done].
      by apply list_elem_of_further.
  - intros x' y' Hv' Hnin'.
    assert (Hne : (x', y') ≠ (x, y)) by (intros E; apply Hnin'; rewrite E; by apply list_elem_of_here).
    rewrite Hfr; [|done|].
    + destruct Hv' as [Hx' Hy']. cbn [fst snd] in *. by rewrite Ho2, Ho1.
    + intros Hin. apply Hnin'. by apply list_elem_of_further.
Qed.

(** C9. For a difficulty of at least 1 on a non-empty board, the
    generator's first phase returns: its bulb target is
    [4 + difficulty * 10]; it places [1 + difficulty / 2] sources, or as
    many as there are cells; every draw of a connection count gives a
    pattern index in the sub-range of that count (1: 0-3, 2: 4-7, 3: 8-11,
    4: 12), where the table entry has that many directions. The placed
    positions are, in order, the positions of the rounds of the placement
    loop run on the shuffled cells, and the tile left at the position of a
    round is a power source at rotation 0 whose pattern index is the one
    that round chose for the count that round drew. *)
Theorem generate_sources_spec (s : PuzzleGame) (difficulty : Z) (r : rng) :
  1 ≤ difficulty -> 0 < width s -> 0 < height s ->
  (∀ r0, ∃ count p r1 base,
     choose_source_type r0 = Ok (count, p, r1) ∧
     1 ≤ count ≤ 4 ∧ in_subrange count p ∧
     POWER_SOURCE_CONNECTIONS !! Z.to_nat p = Some base ∧
     Z.of_nat (length base) = count) ∧
  ∃ s' available positions r' draws,
    generate_sources s difficulty r
      = Ok (s', available, positions, 4 + difficulty * 10, r') ∧
    power_sources s' = positions ∧
    Z.of_nat (length positions) = (1 + difficulty `div` 2) `min` (width s * height s) ∧
    source_draws (Z.to_nat (1 + difficulty `div` 2))
                 (fst (shuffle (cells (width s) (height s)) r))
                 (snd (shuffle (cells (width s) (height s)) r)) = Ok draws ∧
    positions = (fun d => fst (fst d)) <$> draws ∧
    ∀ c count p, (c, count, p) ∈ draws ->
      valid s' c ∧ 1 ≤ count ≤ 4 ∧ in_subrange count p ∧
      (∃ base, POWER_SOURCE_CONNECTIONS !! Z.to_nat p = Some base ∧
               Z.of_nat (length base) = count) ∧
      ∃ t, grid_get (grid s') (fst c) (snd c) = Ok t ∧
           tile_type t = POWER_SOURCE ∧ rotation t = 0 ∧
           power_connection_pattern t = Some p.
Proof.
  intros Hdiff Hw Hh. split.
  - intros r0. destruct (choose_source_type_spec r0) as (count & p & r1 & Hc & Hcount & Hsub).
    destruct (in_subrange_table count p Hcount Hsub) as (base & Hb & Hl).
    by exists count, p, r1, base.
  - unfold generate_sources. cbn [width height set_power_sources set_bulbs set_grid].
    destruct (shuffle (cells (width s) (height s)) r) as [shuffled r1] eqn:Hsh.
    set (s0 := set_power_sources []
                 (set_bulbs [] (set_grid (grid (PuzzleGame_init (width s) (height s))) s))).
    pose proof (shuffle_from_perm (length (cells (width s) (height s)) - 1)
                  (cells (width s) (height s)) r) as Hperm.
    unfold shuffle in Hsh. rewrite Hsh in Hperm. cbn [fst snd] in *.
    assert (Hvalid : ∀ c, c ∈ shuffled -> valid s0 c).
    { intros c Hc. rewrite Hperm in Hc. by apply elem_of_cells_valid in Hc. }
    destruct (place_sources_trace (Z.to_nat (1 + difficulty `div` 2)) s0 shuffled [] r1)
      as (s' & av' & pos' & r' & draws & Hrun & Hdr & Hw' & Hh' & Hps & Hpos & Hlen
          & Hall & _).
    { simpl. apply PuzzleGame_init_dims; lia. }
    { by apply Forall_forall. }
    { rewrite Hperm. apply NoDup_cells. }
    rewrite Hrun. cbn [mbind res_bind].
    exists s', av', pos', r', draws.
    cbn [power_sources s0 set_power_sources] in Hps. rewrite !app_nil_l in *.
    split_and!; try done.
    + congruence.
    + rewrite Hpos, length_fmap, Hlen, Hperm, length_cells.
      pose proof (Z.div_pos difficulty 2 ltac:(lia) ltac:(lia)). nia.
    + intros c count p Hin. destruct (Hall c count p Hin) as (Hc & Hcount & Hsub & Ht).
      split; [|split; [done|split; [done|split; [by apply in_subrange_table|done]]]].
      apply Hvalid in Hc. unfold valid in *. by rewrite Hw', Hh'.
Qed.

Lemma generate_sources_spec_witness :
  (∀ r0, ∃ count p r1 base,
     choose_source_type r0 = Ok (count, p, r1) ∧
     1 ≤ count ≤ 4 ∧ in_subrange count p ∧
     POWER_SOURCE_CONNECTIONS !! Z.to_nat p = Some base ∧
     Z.of_nat (length base) = count) ∧
  ∃ s' available positions r' draws,
    generate_sources (PuzzleGame_init 3 2) 3 demo_rng
      = Ok (s', available, positions, 4 + 3 * 10, r') ∧
    power_sources s' = positions ∧
    Z.of_nat (length positions) = (1 + 3 `div` 2) `min` (3 * 2) ∧
    source_draws (Z.to_nat (1 + 3 `div` 2))
                 (fst (shuffle (cells 3 2) demo_rng))
                 (snd (shuffle (cells 3 2) demo_rng)) = Ok draws ∧
    positions = (fun d => fst (fst d)) <$> draws ∧
    ∀ c count p, (c, count, p) ∈ draws ->
      valid s' c ∧ 1 ≤ count ≤ 4 ∧ in_subrange count p ∧
      (∃ base, POWER_SOURCE_CONNECTIONS !! Z.to_nat p = Some base ∧
               Z.of_nat (length base) = count) ∧
      ∃ t, grid_get (grid s') (fst c) (snd c) = Ok t ∧
           tile_type t = POWER_SOURCE ∧ rotation t = 0 ∧
           power_connection_pattern t = Some p.
Proof.
  apply (generate_sources_spec (PuzzleGame_init 3 2) 3 demo_rng); simpl; lia.
Defined.

(** X11. The source placement of [generate_puzzle] puts the sources on
    pairwise distinct cells: the placed positions followed by the
    positions still available are a rearrangement of all the cells of the
    grid, each exactly once; the bulb list is empty and every cell still
    available holds a fresh Empty tile. *)
Theorem generate_sources_distinct (s : PuzzleGame) (difficulty : Z) (r : rng) :
  0 ≤ width s -> 0 ≤ height s ->
  ∃ s' available positions num_bulbs r',
    generate_sources s difficulty r = Ok (s', available, positions, num_bulbs, r') ∧
    bulbs s' = [] ∧
    positions ++ available ≡ₚ cells (width s) (height s) ∧
    NoDup (positions ++ available) ∧
    ∀ x y, (x, y) ∈ available ->
           grid_get (grid s') x y = Ok (Tile_make EMPTY 0 None).
Proof.
  intros Hw Hh. unfold generate_sources.
  cbn [width height set_power_sources set_bulbs set_grid].
  destruct (shuffle (cells (width s) (height s)) r) as [shuffled r1] eqn:Hsh.
  set (s0 := set_power_sources []
               (set_bulbs [] (set_grid (grid (PuzzleGame_init (width s) (height s))) s))).
  pose proof (shuffle_from_perm (length (cells (width s) (height s)) - 1)
                (cells (width s) (height s)) r) as Hperm.
  unfold shuffle in Hsh. rewrite Hsh in Hperm. simpl in Hperm.
  assert (Hvalid : ∀ c, c ∈ shuffled -> valid s0 c).
  { intros c Hc. rewrite Hperm in Hc. by apply elem_of_cells_valid in Hc. }
  destruct (place_sources_frame (Z.to_nat (1 + difficulty `div` 2)) s0 shuffled [] r1)
    as (s' & av' & pos' & r' & Hrun & Hb & Hp & _ & Hfr).
  { simpl. by apply PuzzleGame_init_dims. }
  { by apply Forall_forall. }
  exists s', av', pos', (4 + difficulty * 10), r'.
  fold s0. rewrite Hrun. cbn [mbind res_bind].
  assert (Hp' : pos' ++ av' ≡ₚ cells (width s) (height s)) by (by rewrite Hp, <- Hperm).
  assert (Hnd : NoDup (pos' ++ av')) by (rewrite Hp'; apply NoDup_cells).
  split_and!; try done.
  intros x y Hin.
  assert (Hv : valid s0 (x, y)).
  { apply (elem_of_cells_valid s0). change (cells (width s0) (height s0)) with (cells (width s) (height s)).
    rewrite <- Hp'. set_solver. }
  rewrite Hfr; [|done|].
  - destruct Hv as [Hx Hy]. by apply PuzzleGame_init_get.
  - apply NoDup_app in Hnd as (_ & Hdis & _). intros Hin'. by apply (Hdis (x, y)).
Qed.

Lemma generate_sources_distinct_witness :
  ∃ s' available positions num_bulbs r',
    generate_sources (PuzzleGame_init 3 2) 3 demo_rng
      = Ok (s', available, positions, num_bulbs, r') ∧
    bulbs s' = [] ∧
    positions ++ available ≡ₚ cells 3 2 ∧
    NoDup (positions ++ available) ∧
    ∀ x y, (x, y) ∈ available ->
           grid_get (grid s') x y = Ok (Tile_make EMPTY 0 None).
Proof.
  apply (generate_sources_distinct (PuzzleGame_init 3 2) 3 demo_rng); simpl; lia.
Defined.

(** ** The scramble and the repair rounds *)

Lemma tile_inv_readable t :
  tile_inv t -> tile_type t ≠ POWER_SOURCE -> ∃ ds, get_connections t = Ok ds.
Proof.
  intros [_ Hr] Hty. unfold get_connections.
  rewrite bool_decide_eq_false_2 by done.
  destruct t as [tt m r pw us pat]. simpl in *.
  assert (Hr' : 0 ≤ r ≤ ROTATIONS tt - 1) by lia. clear Hr.
  destruct tt; simpl in *; try done; enum_Z r; eauto.
Qed.

Lemma randomize_cell_full w h g r x y :
  grid_dims w h g -> 0 ≤ x < w -> 0 ≤ y < h ->
  ∃ t t' g' r',
    grid_get g x y = Ok t ∧ randomize_cell (g, r) (x, y) = Ok (g', r') ∧
    grid_dims w h g' ∧ grid_get g' x y = Ok t' ∧
    (∀ x' y', 0 ≤ x' < w -> 0 ≤ y' < h -> (x', y') ≠ (x, y) ->
              grid_get g' x' y' = grid_get g x' y') ∧
    tile_type t' = tile_type t ∧
    power_connection_pattern t' = power_connection_pattern t ∧
    is_powered t' = is_powered t ∧ used_in_solution t' = used_in_solution t ∧
    (tile_type t ∉ [EMPTY; POWER_SOURCE] -> tile_inv t') ∧
    (tile_type t ∈ [EMPTY; POWER_SOURCE] -> t' = t).
Proof.
  intros Hd Hx Hy. unfold randomize_cell.
  destruct (grid_get_dims w h g x y Hd Hx Hy) as [t Ht]. rewrite Ht. simpl.
  case_bool_decide as Hty.
  - destruct (grid_modify_dims (set_max_rotation (ROTATIONS (tile_type t)))
                w h g x y Hd Hx Hy) as (t0 & g1 & Ht0 & -> & Hd1 & Hg1 & Ho1).
    rewrite Ht in Ht0. simplify_eq. simpl. rewrite Hg1. simpl.
    destruct (randint_spec 0 (ROTATIONS (tile_type t0) - 1) r) as (v & r' & -> & Hv).
    { destruct (ROTATIONS_pos (tile_type t0)); lia. }
    simpl.
    destruct (grid_modify_dims (set_rotation v) w h g1 x y Hd1 Hx Hy)
      as (t1 & g2 & Ht1 & -> & Hd2 & Hg2 & Ho2).
    rewrite Hg1 in Ht1. simplify_eq. simpl.
    eexists t0, _, g2, r'. split_and!; try done.
    + intros x' y' Hx' Hy' Hne. by rewrite Ho2, Ho1.
    + intros _. split; simpl; [done|lia].
  - exists t, t, g, r. by split_and!.
Qed.

(** The scramble on a board whose non-Empty tiles are readable. *)
Lemma randomize_rotations_wfw (s : PuzzleGame) (r : rng) :
  grid_wfw s ->
  ∃ s' r',
    randomize_rotations s r = Ok (s', r') ∧
    width s' = width s ∧ height s' = height s ∧
    power_sources s' = power_sources s ∧ bulbs s' = bulbs s ∧
    is_solved s' = is_solved s ∧
    grid_wfw s' ∧
    ∀ x y, valid s (x, y) ->
      ∃ t t', grid_get (grid s) x y = Ok t ∧ grid_get (grid s') x y = Ok t' ∧
        tile_type t' = tile_type t ∧
        power_connection_pattern t' = power_connection_pattern t ∧
        is_powered t' = is_powered t ∧ used_in_solution t' = used_in_solution t ∧
        (tile_type t ∈ [EMPTY; POWER_SOURCE] -> t' = t) ∧
        (tile_type t ∉ [EMPTY; POWER_SOURCE] ->
         tile_inv t' ∧ ∃ ds, get_connections t' = Ok ds).
Proof.
  intros Hokw. destruct Hokw as [Hd Hread].
  unfold randomize_rotations.
  destruct (foldM_inv randomize_cell
    (fun pre gr =>
       grid_dims (width s) (height s) (fst gr) ∧
       ∀ x y, valid s (x, y) ->
         ∃ t t', grid_get (grid s) x y = Ok t ∧ grid_get (fst gr) x y = Ok t' ∧
           tile_type t' = tile_type t ∧
           power_connection_pattern t' = power_connection_pattern t ∧
           is_powered t' = is_powered t ∧ used_in_solution t' = used_in_solution t ∧
           ((x, y) ∈ pre -> tile_type t ∉ [EMPTY; POWER_SOURCE] -> tile_inv t') ∧
           (tile_type t ∈ [EMPTY; POWER_SOURCE] -> t' = t))
    (cells (width s) (height s)) (grid s, r)) as ([g' r'] & Hf & Hd' & Hg').
  - split; [done|]. intros x y [Hx Hy]. simpl in *.
    destruct (grid_get_dims _ _ _ x y Hd Hx Hy) as [t Ht].
    exists t, t. split_and!; try done. intros Hin. by apply elem_of_nil in Hin.
  - intros pre [x y] [g1 r1] Hin [Hd1 Hg1]. simpl in Hd1, Hg1.
    apply elem_of_cells in Hin as [Hx Hy].
    destruct (randomize_cell_full _ _ g1 r1 x y Hd1 Hx Hy)
      as (t1 & t2 & g2 & r2 & Ht1 & Hrun & Hd2 & Ht2 & Ho & Hty & Hpat & Hpo & Hus
          & Hinv & Hsame).
    exists (g2, r2). split; [done|]. simpl. split; [done|].
    intros x' y' Hv.
    destruct (Hg1 x' y' Hv) as (t & t' & Ht & Ht' & Hty' & Hpat' & Hpo' & Hus' & Hi' & Hs').
    destruct (decide ((x', y') = (x, y))) as [E|Hne].
    + injection E as -> ->. assert (t' = t1) by congruence. subst t'.
      exists t, t2. split_and!; try done; try congruence.
      * intros _ Hnot. apply Hinv. by rewrite Hty'.
      * intros Hin. rewrite Hsame by (by rewrite Hty'). by apply Hs'.
    + destruct Hv as [Hx' Hy']. simpl in Hx', Hy'.
      exists t, t'. rewrite Ho by done. split_and!; try done.
      intros Hin. apply Hi'. set_solver.
  - exists (set_grid g' s), r'. rewrite Hf. simpl in *. split; [done|].
    assert (Hall : ∀ x y, valid s (x, y) ->
      ∃ t t', grid_get (grid s) x y = Ok t ∧ grid_get g' x y = Ok t' ∧
        tile_type t' = tile_type t ∧
        power_connection_pattern t' = power_connection_pattern t ∧
        is_powered t' = is_powered t ∧ used_in_solution t' = used_in_solution t ∧
        (tile_type t ∈ [EMPTY; POWER_SOURCE] -> t' = t) ∧
        (tile_type t ∉ [EMPTY; POWER_SOURCE] ->
         tile_inv t' ∧ ∃ ds, get_connections t' = Ok ds)).
    { intros x y Hv.
      destruct (Hg' x y Hv) as (t & t' & Ht & Ht' & Hty & Hpat & Hpo & Hus & Hi & Hs).
      exists t, t'. split_and!; try done.
      intros Hnot. assert (Hti : tile_inv t') by (apply Hi; [by apply elem_of_cells|done]).
      split; [done|]. apply tile_inv_readable; [done|]. rewrite Hty. set_solver. }
    split_and!; try done.
    split; [done|]. intros x y t' Hv Ht' Hne. simpl in *.
    destruct (Hall x y Hv) as (t & t2 & Ht & Ht2 & Hty & _ & _ & _ & Hsame & Hnew).
    rewrite Ht' in Ht2. simplify_eq.
    destruct (decide (tile_type t ∈ [EMPTY; POWER_SOURCE])) as [Hin|Hnin].
    + rewrite (Hsame Hin). apply (Hread x y t Hv Ht). by rewrite <- Hty.
    + by destruct (Hnew Hnin) as [_ ?].
Qed.

(** X4. [randomize_rotations] returns on any board whose non-Empty tiles
    are readable.  It keeps the dimensions, the lists, and the variant,
    pattern and flags of every tile; it leaves Empty and power-source
    tiles untouched; every other tile ends inside the tile invariant with
    readable connections, so the non-Empty tiles are still readable. *)
Theorem randomize_rotations_keeps (s : PuzzleGame) (r : rng) :
  grid_okwb (width s) (height s) (grid s) = true ->
  ∃ s' r',
    randomize_rotations s r = Ok (s', r') ∧
    width s' = width s ∧ height s' = height s ∧
    power_sources s' = power_sources s ∧ bulbs s' = bulbs s ∧
    is_solved s' = is_solved s ∧
    grid_wfw s' ∧
    ∀ x y, valid s (x, y) ->
      ∃ t t', grid_get (grid s) x y = Ok t ∧ grid_get (grid s') x y = Ok t' ∧
        tile_type t' = tile_type t ∧
        power_connection_pattern t' = power_connection_pattern t ∧
        is_powered t' = is_powered t ∧ used_in_solution t' = used_in_solution t ∧
        (tile_type t ∈ [EMPTY; POWER_SOURCE] -> t' = t) ∧
        (tile_type t ∉ [EMPTY; POWER_SOURCE] ->
         tile_inv t' ∧ ∃ ds, get_connections t' = Ok ds).
Proof. intros Hokw. apply randomize_rotations_wfw. by apply grid_okwb_wfw. Qed.

Lemma randomize_rotations_keeps_witness :
  ∃ s' r',
    randomize_rotations demo_pipes demo_rng = Ok (s', r') ∧
    width s' = width demo_pipes ∧ height s' = height demo_pipes ∧
    power_sources s' = power_sources demo_pipes ∧ bulbs s' = bulbs demo_pipes ∧
    is_solved s' = is_solved demo_pipes ∧
    grid_wfw s' ∧
    ∀ x y, valid demo_pipes (x, y) ->
      ∃ t t', grid_get (grid demo_pipes) x y = Ok t ∧ grid_get (grid s') x y = Ok t' ∧
        tile_type t' = tile_type t ∧
        power_connection_pattern t' = power_connection_pattern t ∧
        is_powered t' = is_powered t ∧ used_in_solution t' = used_in_solution t ∧
        (tile_type t ∈ [EMPTY; POWER_SOURCE] -> t' = t) ∧
        (tile_type t ∉ [EMPTY; POWER_SOURCE] ->
         tile_inv t' ∧ ∃ ds, get_connections t' = Ok ds).
Proof. apply (randomize_rotations_keeps demo_pipes demo_rng). reflexivity. Defined.

(** After the solver every listed source is used, so a repair round
    leaves the state alone. *)
Lemma repair_idle fuel s s' D :
  game_ok s -> flow_state s s' D -> (∀ c, c ∈ D ↔ reachable s c) ->
  sources_used s' (power_sources s) = Ok true ∧
  foldM (repair_round fuel (power_sources s)) s' (range 3) = Ok s'.
Proof.
  intros Hok Hst HD.
  assert (Hused : sources_used s' (power_sources s) = Ok true).
  { unfold sources_used.
    destruct (all_res_spec
      (fun '(x, y) => tile ← grid_get (grid s') x y; Ok (used_in_solution tile))
      (fun _ => True) (power_sources s)) as (b' & -> & Hb').
    - intros [x y] Hin.
      assert (Hv : valid s (x, y)).
      { destruct Hok as (_ & Hs & _). by apply Hs. }
      destruct (flow_state_flags s s' D x y Hst Hv)
        as (t0 & t & _ & Ht & _ & Hus & _).
      rewrite Ht. cbn [mbind res_bind].
      rewrite (proj2 Hus) by (apply HD; by apply reach_source).
      exists true. by split.
    - f_equal. by apply Hb'. }
  split; [done|].
  assert (Hround : ∀ i, repair_round fuel (power_sources s) s' i = Ok s').
  { intros i. unfold repair_round. by rewrite Hused. }
  change (range 3) with [0; 1; 2].
  cbn [foldM]. rewrite Hround. cbn [mbind res_bind].
  rewrite Hround. cbn [mbind res_bind]. rewrite Hround. done.
Qed.

(** X12. The repair rounds of [generate_puzzle] never run: right after
    [update_power_flow] every listed source is used in the solution, so
    the condition of each of the three rounds fails and the state is left
    as the solver returned it. *)
Theorem repair_rounds_idle (fuel : nat) (s : PuzzleGame) :
  game_okb s = true ->
  (length (cells (width s) (height s)) < fuel)%nat ->
  ∃ s' b,
    update_power_flow fuel s = Ok (s', b) ∧
    sources_used s' (power_sources s) = Ok true ∧
    foldM (repair_round fuel (power_sources s)) s' (range 3) = Ok s'.
Proof.
  intros Hokb Hfuel. apply game_okb_ok in Hokb.
  destruct (update_power_flow_spec fuel s Hokb Hfuel) as (s' & D & Hu & Hst & HD & _).
  exists s', (is_solved s'). split; [done|].
  by apply (repair_idle fuel s s' D).
Qed.

Lemma repair_rounds_idle_witness :
  ∃ s' b,
    update_power_flow 4 demo_game = Ok (s', b) ∧
    sources_used s' (power_sources demo_game) = Ok true ∧
    foldM (repair_round 4 (power_sources demo_game)) s' (range 3) = Ok s'.
Proof. apply (repair_rounds_idle 4 demo_game); [reflexivity|cbv; lia]. Defined.

(** ** The generator as a whole *)

Lemma grid_wf_wfw s : grid_wf s -> grid_wfw s.
Proof.
  intros [Hd Hr]. split; [done|]. intros x y t Hv Ht _.
  destruct (Hr (x, y) Hv) as [ds Hds]. unfold conns in Hds. simpl in Hds.
  rewrite Ht in Hds. simpl in Hds. eauto.
Qed.

(** A call of [fix_pipe_connections] breaks no mutual connection. *)
Lemma fix_keeps_mutual s x y s' c d :
  grid_wfw s -> valid s (x, y) -> fix_pipe_connections s x y = Ok s' ->
  valid s c -> mutual s c d -> mutual s' c d.
Proof.
  intros Hwf Hv Hfix Hc [Hp Hd].
  destruct (fix_pipe_connections_weak s x y Hwf Hv)
    as (bu & br & bd & bl & t & g' & HS & Ht & Hf & Hd' & Hg' & Ho & Hwf').
  cbn zeta in *. rewrite Hf in Hfix. injection Hfix as <-.
  destruct c as [cx cy]. cbn [fst snd] in *.
  pose proof Hd as Hd0. rewrite dir_ok_points in Hd0. destruct Hd0 as [Hvn Hpn].
  split.
  - destruct (decide ((cx, cy) = (x, y))) as [E|Hne].
    + injection E as -> ->.
      destruct (proj2 (reshape_tile_points bu br bd bl t d)) as (Hty & ds & Hds & Hin).
      { by apply HS. }
      exists (reshape_tile (subset_dirs bu br bd bl) t), ds. by split_and!.
    + by apply (points_frame s g' x y).
  - cbn [fst snd].
    destruct (decide (get_neighbor_position cx cy d = (x, y))) as [E|Hne].
    + rewrite dir_ok_points. split; [done|]. rewrite E.
      assert (Hback : get_neighbor_position x y (get_opposite_direction d) = (cx, cy)).
      { pose proof (get_neighbor_position_back cx cy d) as Hb. by rewrite E in Hb. }
      destruct (proj2 (reshape_tile_points bu br bd bl t (get_opposite_direction d)))
        as (Hty & ds & Hds & Hin).
      { apply HS. rewrite dir_ok_points, Hback, get_opposite_direction_involutive.
        by split. }
      exists (reshape_tile (subset_dirs bu br bd bl) t), ds. by split_and!.
    + by apply (dir_ok_frame s g' x y).
Qed.

(** An invariant of the single calls of [fix_pipe_connections] is an
    invariant of [finalize_puzzle], which never raises on a board whose
    non-Empty tiles are readable. *)
Lemma finalize_puzzle_fold (I : PuzzleGame -> Prop) s :
  grid_wfw s -> I s ->
  (∀ s1 x y t s2,
     width s1 = width s -> height s1 = height s -> grid_wfw s1 -> I s1 ->
     valid s (x, y) -> grid_get (grid s1) x y = Ok t -> is_pipe t ->
     fix_pipe_connections s1 x y = Ok s2 -> I s2) ->
  ∃ s', finalize_puzzle s = Ok s' ∧
        width s' = width s ∧ height s' = height s ∧ grid_wfw s' ∧ I s'.
Proof.
  intros Hwf HI Hstep. unfold finalize_puzzle.
  destruct (foldM_inv
    (fun s1 '(x, y) =>
       tile ← grid_get (grid s1) x y;
       if bool_decide (tile_type tile ∉ [POWER_SOURCE; LIGHT_BULB; EMPTY])
       then fix_pipe_connections s1 x y else Ok s1)
    (fun pre s1 => width s1 = width s ∧ height s1 = height s ∧ grid_wfw s1 ∧ I s1)
    (cells (width s) (height s)) s)
    as (s' & Hrun & Hw' & Hh' & Hwf' & HI').
  - by split_and!.
  - intros pre [x y] s1 Hin (Hw1 & Hh1 & Hwf1 & HI1).
    apply elem_of_cells_valid in Hin.
    assert (Hv1 : valid s1 (x, y)) by (unfold valid; by rewrite Hw1, Hh1).
    pose proof Hwf1 as [Hd1 _]. pose proof Hv1 as [Hx Hy]. simpl in Hx, Hy.
    destruct (grid_get_dims _ _ _ x y Hd1 Hx Hy) as [t Ht].
    rewrite Ht. cbn [mbind res_bind].
    case_bool_decide as Hpipe; [|exists s1; by split_and!].
    destruct (fix_pipe_connections_weak s1 x y Hwf1 Hv1)
      as (bu & br & bd & bl & t1 & g2 & HS & Ht1 & Hfix & Hd2 & Hg2 & Ho2 & Hwf2).
    exists (set_grid g2 s1). split; [done|]. split_and!; try done.
    by apply (Hstep s1 x y t (set_grid g2 s1)).
  - exists s'. by split_and!.
Qed.

(** X17. [finalize_puzzle] disconnects nothing: on a board whose
    non-Empty tiles are readable, two neighbouring cells whose tiles point
    at each other before the pass still do after it. *)
Theorem finalize_puzzle_keeps_mutual (s : PuzzleGame) :
  grid_okwb (width s) (height s) (grid s) = true ->
  ∃ s', finalize_puzzle s = Ok s' ∧
        ∀ c d, valid s c -> mutual s c d -> mutual s' c d.
Proof.
  intros Hokw. apply grid_okwb_wfw in Hokw.
  destruct (finalize_puzzle_fold
    (fun s1 => ∀ c d, valid s c -> mutual s c d -> mutual s1 c d) s Hokw)
    as (s' & Hrun & _ & _ & _ & Hkeep).
  - done.
  - intros s1 x y t s2 Hw1 Hh1 Hwf1 HI Hv Ht Hp Hfix c d Hc Hm.
    assert (Hval1 : ∀ c, valid s c -> valid s1 c)
      by (intros c0; unfold valid; by rewrite Hw1, Hh1).
    apply (fix_keeps_mutual s1 x y s2 c d Hwf1 (Hval1 _ Hv) Hfix (Hval1 _ Hc)).
    by apply HI.
  - by exists s'.
Qed.

Lemma finalize_puzzle_keeps_mutual_witness :
  ∃ s', finalize_puzzle demo_pipes = Ok s' ∧
        ∀ c d, valid demo_pipes c -> mutual demo_pipes c d -> mutual s' c d.
Proof. apply (finalize_puzzle_keeps_mutual demo_pipes). reflexivity. Defined.

Lemma reshape_tile_type bu br bd bl t d :
  d ∈ subset_dirs bu br bd bl ->
  tile_type (reshape_tile (subset_dirs bu br bd bl) t) ∉ [POWER_SOURCE; EMPTY].
Proof.
  intros Hin. destruct bu, br, bd, bl; first [by apply elem_of_nil in Hin | set_solver].
Qed.

(** On a board with the tile invariant whose pipes are all anchored,
    [finalize_puzzle] keeps both, leaves every tile that is not a pipe
    alone and turns no pipe into an Empty tile. *)
Lemma finalize_puzzle_anchored s :
  board_ok s -> anchored s ->
  ∃ s',
    finalize_puzzle s = Ok s' ∧
    width s' = width s ∧ height s' = height s ∧
    power_sources s' = power_sources s ∧ bulbs s' = bulbs s ∧
    board_ok s' ∧ anchored s' ∧
    (∀ c d, valid s c -> mutual s c d -> mutual s' c d) ∧
    ∀ x y, valid s (x, y) ->
      ∃ t t', grid_get (grid s) x y = Ok t ∧ grid_get (grid s') x y = Ok t' ∧
              (¬ is_pipe t -> t' = t) ∧
              (is_pipe t -> tile_type t' ∉ [POWER_SOURCE; EMPTY]).
Proof.
  intros [Hok Hinv] Hanc. pose proof Hok as (Hwf & Hsrc & Hbul).
  pose proof (grid_wf_wfw s Hwf) as Hwfw.
  destruct (finalize_puzzle_fold
    (fun s1 =>
       width s1 = width s ∧ height s1 = height s ∧
       power_sources s1 = power_sources s ∧ bulbs s1 = bulbs s ∧
       (∀ c d, valid s c -> mutual s c d -> mutual s1 c d) ∧
       ∀ x y, valid s (x, y) ->
         ∃ t t', grid_get (grid s) x y = Ok t ∧ grid_get (grid s1) x y = Ok t' ∧
                 tile_inv t' ∧ (∃ ds, get_connections t' = Ok ds) ∧
                 (¬ is_pipe t -> t' = t) ∧
                 (is_pipe t -> tile_type t' ∉ [POWER_SOURCE; EMPTY])) s Hwfw)
    as (s' & Hrun & _ & _ & [Hd' _] & Hw & Hh & Hps & Hb & Hmut & Hall).
  - split_and!; try done. intros x y Hv.
    destruct (Hwf) as [Hd Hr]. destruct (Hr (x, y) Hv) as [ds Hds].
    unfold conns in Hds. cbn [fst snd] in Hds.
    destruct (grid_get (grid s) x y) as [t| |] eqn:Ht; try done.
    exists t, t. split_and!; eauto.
    intros Hp. unfold is_pipe in Hp. set_solver.
  - intros s1 x y t1 s2 Hw1 Hh1 Hwf1 (_ & _ & Hps1 & Hb1 & Hmut1 & Hall1) Hv Ht1 Hpipe Hfix.
    assert (Hval1 : ∀ c, valid s1 c ↔ valid s c)
      by (intros c; unfold valid; by rewrite Hw1, Hh1).
    pose proof (proj2 (Hval1 _) Hv) as Hv1.
    destruct (fix_pipe_connections_weak s1 x y Hwf1 Hv1)
      as (bu & br & bd & bl & t1' & g2 & HS & Ht1' & Hfix' & Hd2 & Hg2 & Ho2 & Hwf2).
    cbn zeta in *. rewrite Hfix' in Hfix. injection Hfix as <-.
    assert (t1' = t1) by congruence. subst t1'.
    destruct (Hall1 x y Hv) as (t & t1' & Ht & Ht1'' & Hti & Hrd & Hnp & Hpp).
    assert (t1' = t1) by congruence. subst t1'.
    assert (Hpt : is_pipe t).
    { destruct (decide (is_pipe t)) as [|Hn]; [done|]. by rewrite (Hnp Hn) in Hpipe. }
    destruct (Hanc x y t Hv Ht Hpt) as [d Hm].
    pose proof (Hmut1 (x, y) d Hv Hm) as [_ Hd1]. cbn [fst snd] in Hd1.
    apply HS in Hd1.
    split_and!; try done.
    + intros c d' Hc Hm'.
      apply (fix_keeps_mutual s1 x y (set_grid g2 s1) c d' Hwf1 Hv1 Hfix');
        [by apply Hval1|by apply Hmut1].
    + intros x' y' Hv'.
      destruct (decide ((x', y') = (x, y))) as [E|Hne].
      * injection E as -> ->. exists t, (reshape_tile (subset_dirs bu br bd bl) t1).
        cbn [grid set_grid]. split_and!; try done.
        -- apply reshape_tile_roundtrip. intros E. rewrite E in Hd1.
           by apply elem_of_nil in Hd1.
        -- destruct (proj2 (reshape_tile_points bu br bd bl t1 d) Hd1) as (_ & ds & Hds & _).
           eauto.
        -- intros _. by apply (reshape_tile_type bu br bd bl t1 d).
      * destruct (Hall1 x' y' Hv') as (t0 & t0' & Ht0 & Ht0' & ? & ? & ? & ?).
        exists t0, t0'. cbn [grid set_grid].
        rewrite (Ho2 x' y') by (first [by apply Hval1 | done]). by split_and!.
  - exists s'. split; [done|].
    assert (Hval' : ∀ c, valid s' c ↔ valid s c)
      by (intros c; unfold valid; by rewrite Hw, Hh).
    assert (Hget : ∀ x y t', valid s (x, y) -> grid_get (grid s') x y = Ok t' ->
              ∃ t, grid_get (grid s) x y = Ok t ∧ tile_inv t' ∧
                   (∃ ds, get_connections t' = Ok ds) ∧
                   (¬ is_pipe t -> t' = t) ∧
                   (is_pipe t -> tile_type t' ∉ [POWER_SOURCE; EMPTY])).
    { intros x y t' Hv Ht'. destruct (Hall x y Hv) as (t & t'' & Ht & Ht'' & Hrest).
      assert (t'' = t') by congruence. subst t''. by exists t. }
    split_and!; try done.
    + split; [split; [|split]|].
      * split; [done|]. intros [x y] Hv. apply Hval' in Hv.
        destruct (Hall x y Hv) as (t & t' & Ht & Ht' & _ & [ds Hds] & _).
        exists ds. unfold conns. cbn [fst snd]. by rewrite Ht'.
      * intros c Hc. apply Hval', Hsrc. by rewrite <- Hps.
      * intros c Hc. apply Hval', Hbul. by rewrite <- Hb.
      * intros x y t' Hv Ht'. apply Hval' in Hv.
        by destruct (Hget x y t' Hv Ht') as (t & _ & Hti & _).
    + intros x y t' Hv Ht' Hp'. apply Hval' in Hv.
      destruct (Hget x y t' Hv Ht') as (t & Ht & _ & _ & Hnp & _).
      assert (Hpt : is_pipe t).
      { destruct (decide (is_pipe t)) as [|Hn]; [done|]. by rewrite (Hnp Hn) in Hp'. }
      destruct (Hanc x y t Hv Ht Hpt) as [d Hm]. exists d. by apply Hmut.
    + intros x y Hv. destruct (Hall x y Hv) as (t & t' & Ht & Ht' & _ & _ & Hnp & Hpp).
      by exists t, t'.
Qed.

Lemma choice_spec {A : Type} (l : list A) r :
  l ≠ [] -> ∃ a r', choice l r = Ok (a, r') ∧ a ∈ l.
Proof.
  intros Hl. destruct l as [|a0 l0]; [done|]. unfold choice, next_raw.
  set (l := a0 :: l0). set (v := draws r (cursor r)).
  assert (Hlt : (Z.to_nat (v mod Z.of_nat (length l)) < length l)%nat).
  { pose proof (Z.mod_pos_bound v (Z.of_nat (length l))) as Hm.
    subst l. cbn [length] in *. lia. }
  destruct (lookup_lt_is_Some_2 l _ Hlt) as [a Ha]. rewrite Ha.
  eexists a, _. split; [done|]. by apply list_elem_of_lookup_2 in Ha.
Qed.

Lemma list_remove_spec {A : Type} `{EqDecision A} (x : A) l :
  x ∈ l ->
  ∃ l', list_remove x l = Ok l' ∧ length l = S (length l') ∧ ∀ a, a ∈ l' -> a ∈ l.
Proof.
  induction l as [|a l IH]; intros Hin; [by apply elem_of_nil in Hin|].
  cbn [list_remove]. case_decide as E.
  - exists l. split_and!; [done|done|]. intros b Hb. set_solver.
  - destruct IH as (l' & -> & Hlen & Hsub); [set_solver|].
    exists (a :: l'). cbn [mbind res_bind length]. split_and!; [done|lia|].
    intros b Hb. set_solver.
Qed.

Lemma remove_if_present (x y : Z) (l : list pos) :
  ∃ l', (if bool_decide ((x, y) ∈ l) then list_remove (x, y) l else Ok l) = Ok l'.
Proof.
  case_bool_decide as Hin; [|eauto].
  destruct (list_remove_spec _ _ Hin) as (l' & -> & _). eauto.
Qed.

Lemma possible_spec (s : PuzzleGame) (V : gset pos) (x y : Z) ds : ∀ acc e,
  e ∈ fold_left (possible_step s V x y) ds acc ↔
  e ∈ acc ∨
  ∃ d, d ∈ ds ∧ e = (d, fst (get_neighbor_position x y d),
                        snd (get_neighbor_position x y d)) ∧
       valid s (get_neighbor_position x y d) ∧ get_neighbor_position x y d ∉ V.
Proof.
  induction ds as [|d0 ds IH]; intros acc e; cbn [fold_left].
  - split; [by left|]. intros [Hacc|(d & Hd & _)]; [done|]. by apply elem_of_nil in Hd.
  - rewrite IH. unfold possible_step.
    destruct (get_neighbor_position x y d0) as [nx ny] eqn:En.
    destruct (is_valid_position s nx ny) eqn:Hv.
    + apply is_valid_position_true in Hv. case_bool_decide as HV; cbn [andb negb].
      * split.
        -- intros [Hacc|(d & Hd & He & Hvd & HVd)]; [by left|].
           right. exists d. split_and!; try done. set_solver.
        -- intros [Hacc|(d & Hd & He & Hvd & HVd)]; [by left|].
           apply elem_of_cons in Hd as [->|Hd].
           ++ rewrite En in HVd. done.
           ++ right. exists d. by split_and!.
      * rewrite elem_of_app, list_elem_of_singleton. split.
        -- intros [[Hacc| -> ]|(d & Hd & He & Hvd & HVd)]; [by left| |].
           ++ right. exists d0. rewrite En. split_and!; try done. set_solver.
           ++ right. exists d. split_and!; try done. set_solver.
        -- intros [Hacc|(d & Hd & He & Hvd & HVd)]; [by left; left|].
           apply elem_of_cons in Hd as [->|Hd].
           ++ left; right. by rewrite He, En.
           ++ right. exists d. by split_and!.
    + apply is_valid_position_false in Hv. cbn [andb]. split.
      * intros [Hacc|(d & Hd & He & Hvd & HVd)]; [by left|].
        right. exists d. split_and!; try done. set_solver.
      * intros [Hacc|(d & Hd & He & Hvd & HVd)]; [by left|].
        apply elem_of_cons in Hd as [->|Hd].
        -- rewrite En in Hvd. done.
        -- right. exists d. by split_and!.
Qed.

(** The source placement, with what the growth loop needs of it. *)
Lemma place_sources_board n : ∀ s available positions r,
  grid_dims (width s) (height s) (grid s) ->
  Forall (valid s) available ->
  power_sources s = positions ->
  (∀ x y, (x, y) ∈ positions ->
     valid s (x, y) ∧
     ∃ t ds, grid_get (grid s) x y = Ok t ∧ tile_inv t ∧
             tile_type t = POWER_SOURCE ∧ get_connections t = Ok ds) ->
  ∃ s' available' positions' r',
    place_sources n s available positions r = Ok (s', available', positions', r') ∧
    width s' = width s ∧ height s' = height s ∧ bulbs s' = bulbs s ∧
    power_sources s' = positions' ∧
    grid_dims (width s) (height s) (grid s') ∧
    positions' ++ available' ≡ₚ positions ++ available ∧
    (∀ c, c ∈ positions -> c ∈ positions') ∧
    (∀ x y, (x, y) ∈ positions' ->
       valid s (x, y) ∧
       ∃ t ds, grid_get (grid s') x y = Ok t ∧ tile_inv t ∧
               tile_type t = POWER_SOURCE ∧ get_connections t = Ok ds) ∧
    (∀ x y, valid s (x, y) -> (x, y) ∉ positions' ->
            grid_get (grid s') x y = grid_get (grid s) x y) ∧
    length positions' = (length positions + n `min` length available)%nat.
Proof.
  induction n as [|n IH]; intros s available positions r Hd Hav Hps Hpos.
  { exists s, available, positions, r. split_and!; first [done|simpl; lia]. }
  destruct available as [|[x y] available].
  { exists s, [], positions, r. split_and!; first [done|simpl; lia]. }
  apply Forall_cons in Hav as [[Hx Hy] Hav]. simpl in Hx, Hy.
  cbn [place_sources].
  destruct (choose_source_type_spec r) as (count & p & r1 & Hcs & Hc & Hsub).
  rewrite Hcs. cbn [mbind res_bind]. unfold Tile_init. rewrite bool_decide_eq_true_2 by done.
  destruct (randint_spec 0 12 r1 ltac:(lia)) as (p0 & r2 & -> & _).
  cbn [mbind res_bind fst snd]. unfold grid_set.
  destruct (grid_modify_dims (fun _ => Tile_make POWER_SOURCE 0 (Some p0))
              _ _ (grid s) x y Hd Hx Hy) as (t0 & g1 & _ & -> & Hd1 & Hg1 & Ho1).
  cbn [mbind res_bind].
  destruct (grid_modify_dims (set_power_connection_pattern (Some p))
              _ _ g1 x y Hd1 Hx Hy) as (t1 & g2 & Ht1 & -> & Hd2 & Hg2 & Ho2).
  cbn [mbind res_bind].
  assert (t1 = Tile_make POWER_SOURCE 0 (Some p0)) by congruence. subst t1.
  assert (Hread : ∃ ds, get_connections
            (set_power_connection_pattern (Some p) (Tile_make POWER_SOURCE 0 (Some p0)))
            = Ok ds).
  { destruct (in_subrange_table count p Hc Hsub) as (base & Hbase & _).
    unfold get_connections.
    cbn [tile_type power_connection_pattern set_power_connection_pattern Tile_make rotation].
    rewrite bool_decide_eq_true_2 by done.
    rewrite (py_get_valid POWER_SOURCE_CONNECTIONS p base); [|destruct Hsub as [[_ ?]|[[_ ?]|[[_ ?]|[_ ?]]]]; lia|done].
    cbn [mbind res_bind]. apply mapM_res_total. intros d. apply Direction_of_value_mod. }
  destruct Hread as [ds0 Hds0].
  destruct (IH (set_power_sources (power_sources s ++ [(x, y)]) (set_grid g2 s))
               available (positions ++ [(x, y)]) r2 Hd2 Hav)
    as (s' & av' & pos' & r' & Hrun & Hw & Hh & Hb & Hps' & Hd' & Hperm & Hsub' & Hpos'
        & Hfr & Hlen).
  { simpl. by rewrite Hps. }
  { intros x' y' Hin. cbn [grid set_grid set_power_sources].
    destruct (decide ((x', y') = (x, y))) as [E|Hne].
    - injection E as -> ->. split; [done|]. eexists _, ds0. rewrite Hg2.
      by split_and!.
    - apply elem_of_app in Hin as [Hin|Hin]; [|set_solver].
      destruct (Hpos x' y' Hin) as ([Hx' Hy'] & t & ds & Ht & Hrest). simpl in Hx', Hy'.
      split; [done|]. exists t, ds. by rewrite Ho2, Ho1. }
  exists s', av', pos', r'. split_and!; try done.
  - rewrite Hperm. rewrite <- app_assoc. done.
  - intros c Hc'. apply Hsub'. set_solver.
  - intros x' y' Hv' Hnin. rewrite Hfr by done. simpl.
    assert (Hne : (x', y') ≠ (x, y)).
    { intros [= -> ->]. apply Hnin, Hsub'. set_solver. }
    destruct Hv' as [Hx' Hy']. simpl in *. by rewrite Ho2, Ho1.
  - rewrite Hlen, length_app. simpl. lia.
Qed.

Lemma fresh_tile_readable : get_connections (Tile_make EMPTY 0 None) = Ok [].
Proof. reflexivity. Qed.

(** The state the growth loop starts from. *)
Lemma generate_sources_board s difficulty r :
  0 ≤ width s -> 0 ≤ height s ->
  ∃ s' available P r',
    generate_sources s difficulty r = Ok (s', available, P, 4 + difficulty * 10, r') ∧
    NoDup P ∧
    length P = (Z.to_nat (1 + difficulty `div` 2)
                `min` length (cells (width s) (height s)))%nat ∧
    grow_inv (width s) (height s) P (4 + difficulty * 10)
             (mkGrowth s' available (list_to_set P) P [] r').
Proof.
  intros Hw Hh. unfold generate_sources.
  cbn [width height set_power_sources set_bulbs set_grid].
  destruct (shuffle (cells (width s) (height s)) r) as [shuffled r1] eqn:Hsh.
  set (s0 := set_power_sources []
               (set_bulbs [] (set_grid (grid (PuzzleGame_init (width s) (height s))) s))).
  pose proof (shuffle_from_perm (length (cells (width s) (height s)) - 1)
                (cells (width s) (height s)) r) as Hperm.
  unfold shuffle in Hsh. rewrite Hsh in Hperm. simpl in Hperm.
  assert (Hvalid : ∀ c, c ∈ shuffled -> valid s0 c).
  { intros c Hc. rewrite Hperm in Hc. by apply elem_of_cells_valid in Hc. }
  destruct (place_sources_board (Z.to_nat (1 + difficulty `div` 2)) s0 shuffled [] r1)
    as (s' & av' & P & r' & Hrun & Hw' & Hh' & Hb & Hps & Hd & Hp & _ & Hpos & Hfr & HlP).
  { simpl. by apply PuzzleGame_init_dims. }
  { by apply Forall_forall. }
  { done. }
  { intros x y Hin. by apply elem_of_nil in Hin. }
  rewrite Hrun. cbn [mbind res_bind].
  exists s', av', P, r'. split; [done|].
  rewrite app_nil_l, Hperm in Hp.
  assert (Hnd : NoDup (P ++ av')) by (rewrite Hp; apply NoDup_cells).
  apply NoDup_app in Hnd as (HndP & _ & _).
  assert (HlenP : length P = (Z.to_nat (1 + difficulty `div` 2)
                             `min` length (cells (width s) (height s)))%nat).
  { rewrite HlP. cbn [length]. by rewrite Hperm. }
  split; [done|]. split; [done|].
  assert (Hval : ∀ c, valid s' c ↔ valid s0 c)
    by (intros c; unfold valid; by rewrite Hw', Hh').
  assert (Hfresh : ∀ x y, valid s0 (x, y) -> (x, y) ∉ P ->
            grid_get (grid s') x y = Ok (Tile_make EMPTY 0 None)).
  { intros x y Hv Hnin. rewrite (Hfr x y Hv Hnin). cbn [grid s0 set_power_sources set_bulbs set_grid].
    destruct Hv. by apply PuzzleGame_init_get. }
  unfold grow_inv. cbn [g_game g_connected g_frontier g_bulb_positions].
  split_and!; try done.
  - split; [split; [|split]|].
    + split; [by rewrite Hw', Hh'|]. intros [x y] Hv. apply Hval in Hv.
      unfold conns. cbn [fst snd].
      destruct (decide ((x, y) ∈ P)) as [Hin|Hnin].
      * destruct (Hpos x y Hin) as (_ & t & ds & -> & _ & _ & Hds). eauto.
      * rewrite (Hfresh x y Hv Hnin). eauto.
    + intros [x y] Hin. rewrite Hps in Hin. apply Hval. by apply Hpos.
    + intros c Hin. rewrite Hb in Hin. by apply elem_of_nil in Hin.
    + intros x y t Hv Ht. apply Hval in Hv.
      destruct (decide ((x, y) ∈ P)) as [Hin|Hnin].
      * destruct (Hpos x y Hin) as (_ & t' & ds & Ht' & Hti & _). congruence.
      * rewrite (Hfresh x y Hv Hnin) in Ht. injection Ht as <-. apply Tile_make_inv.
  - intros [x y] Hin. apply elem_of_list_to_set in Hin. apply Hval. by apply Hpos.
  - intros c Hin. by apply elem_of_list_to_set.
  - intros x y Hin. split; [by apply elem_of_list_to_set|].
    destruct (Hpos x y Hin) as (_ & t & ds & Ht & _ & Hty & _). eauto.
  - intros x y Hv Hnin. apply Hfresh; [by apply Hval|].
    intros Hin. apply Hnin. by apply elem_of_list_to_set.
  - intros x y Hin Hnin. exfalso. by apply elem_of_list_to_set in Hin.
  - intros x y Hin. by apply elem_of_nil in Hin.
  - constructor.
  - simpl. lia.
  - intros c Hin. apply reach_source. rewrite Hps. by apply elem_of_list_to_set in Hin.
Qed.

(** ** The growth loop *)

Lemma pipe_types_not_source pt : pt ∈ pipe_types -> pt ≠ POWER_SOURCE.
Proof. unfold pipe_types. intros Hin ->. set_solver. Qed.

Lemma is_connected_to_true t d :
  is_connected_to t d = Ok true -> ∃ ds, get_connections t = Ok ds ∧ d ∈ ds.
Proof.
  unfold is_connected_to. intros H. apply bind_Ok in H as (ds & Hds & Hb).
  exists ds. split; [done|]. injection Hb as Hb. by apply bool_decide_eq_true in Hb.
Qed.

(** Some rotation of every pipe variant opens any given side. *)
Lemma pipe_rotation_exists pt d :
  pt ∈ pipe_types ->
  ∃ rot, 0 ≤ rot < ROTATIONS pt ∧
         is_connected_to (set_rotation rot (Tile_make pt 0 None)) d = Ok true.
Proof.
  intros Hin. unfold pipe_types in Hin.
  repeat (apply elem_of_cons in Hin as [->|Hin]); [..|by apply elem_of_nil in Hin];
    destruct d;
    first [ by (exists 0; split; [done|reflexivity])
          | by (exists 1; split; [done|reflexivity])
          | by (exists 2; split; [done|reflexivity])
          | by (exists 3; split; [done|reflexivity]) ].
Qed.

(** The loop over the rotations of a new pipe. *)
Lemma try_rotations_spec s nx ny d pt :
  pt ∈ pipe_types ->
  grid_dims (width s) (height s) (grid s) -> valid s (nx, ny) ->
  grid_get (grid s) nx ny = Ok (Tile_make pt 0 None) ->
  ∃ g' rot0 vr,
    foldM (try_rotation nx ny d) (s, []) (range (ROTATIONS pt)) = Ok (set_grid g' s, vr) ∧
    grid_dims (width s) (height s) g' ∧
    grid_get g' nx ny = Ok (set_rotation rot0 (Tile_make pt 0 None)) ∧
    (∀ x' y', valid s (x', y') -> (x', y') ≠ (nx, ny) ->
              grid_get g' x' y' = grid_get (grid s) x' y') ∧
    vr ≠ [] ∧
    ∀ rot, rot ∈ vr ->
      0 ≤ rot < ROTATIONS pt ∧
      is_connected_to (set_rotation rot (Tile_make pt 0 None)) d = Ok true.
Proof.
  intros Hpt Hd [Hx Hy] Ht0. simpl in Hx, Hy.
  pose proof (pipe_types_not_source pt Hpt) as Hns.
  destruct (foldM_inv (try_rotation nx ny d)
    (fun pre sv =>
       ∃ g1 rot0, fst sv = set_grid g1 s ∧
         grid_dims (width s) (height s) g1 ∧
         grid_get g1 nx ny = Ok (set_rotation rot0 (Tile_make pt 0 None)) ∧
         (∀ x' y', valid s (x', y') -> (x', y') ≠ (nx, ny) ->
                   grid_get g1 x' y' = grid_get (grid s) x' y') ∧
         ∀ rot, rot ∈ snd sv ↔
                rot ∈ pre ∧
                is_connected_to (set_rotation rot (Tile_make pt 0 None)) d = Ok true)
    (range (ROTATIONS pt)) (s, []))
    as ([s' vr] & Hrun & g' & rot0 & Hs' & Hd' & Hg' & Ho' & Hvr).
  - exists (grid s), 0. cbn [fst snd]. split_and!; try done.
    + by destruct s.
    + intros rot. split; [intros Hin; by apply elem_of_nil in Hin|].
      intros [Hin _]. by apply elem_of_nil in Hin.
  - intros pre rot [s1 vr] Hin (g1 & rot0 & Hs1 & Hd1 & Hg1 & Ho1 & Hvr).
    cbn [fst snd] in *. subst s1. apply elem_of_range in Hin.
    unfold try_rotation. cbn [grid set_grid].
    destruct (grid_modify_dims (set_rotation rot) _ _ g1 nx ny Hd1 Hx Hy)
      as (t1 & g2 & Ht1 & -> & Hd2 & Hg2 & Ho2).
    cbn [mbind res_bind]. rewrite Hg2. cbn [mbind res_bind].
    assert (t1 = set_rotation rot0 (Tile_make pt 0 None)) by congruence. subst t1.
    change (set_rotation rot (set_rotation rot0 (Tile_make pt 0 None)))
      with (set_rotation rot (Tile_make pt 0 None)) in *.
    destruct (tile_inv_readable (set_rotation rot (Tile_make pt 0 None))) as [ds Hds].
    { split; [done|]. simpl. done. }
    { done. }
    unfold is_connected_to at 1. rewrite Hds. cbn [mbind res_bind].
    eexists (_, _). split; [reflexivity|].
    exists g2, rot. cbn [fst snd]. split_and!; try done.
    + intros x' y' Hv' Hne. destruct Hv' as [Hx' Hy']. simpl in Hx', Hy'.
      rewrite Ho2 by done. by apply Ho1.
    + intros rot'. case_bool_decide as Hdd.
      * rewrite !elem_of_app, !list_elem_of_singleton, Hvr. split.
        -- intros [[? ?]| ->]; [by split; [left|]|].
           split; [by right|]. unfold is_connected_to. rewrite Hds. simpl.
           by rewrite bool_decide_eq_true_2.
        -- intros [[?| ->] ?]; [by left|by right].
      * rewrite elem_of_app, list_elem_of_singleton, Hvr. split.
        -- intros [? ?]. by split; [left|].
        -- intros [[?| ->] Hc]; [done|]. exfalso.
           unfold is_connected_to in Hc. rewrite Hds in Hc. simpl in Hc.
           by rewrite bool_decide_eq_false_2 in Hc.
  - cbn [fst snd] in *. subst s'. exists g', rot0, vr. split_and!; try done.
    + destruct (pipe_rotation_exists pt d Hpt) as (rot & Hr & Hc).
      intros ->. assert (Hin : rot ∈ @nil Z) by (apply Hvr; split; [by apply elem_of_range|done]).
      by apply elem_of_nil in Hin.
    + intros rot Hin. apply Hvr in Hin as [Hin Hc]. apply elem_of_range in Hin. done.
Qed.

(** The solver on a board with the tile invariant. *)
Lemma update_power_flow_board fuel s :
  board_ok s ->
  (length (cells (width s) (height s)) < fuel)%nat ->
  ∃ s' D,
    update_power_flow fuel s = Ok (s', is_solved s') ∧
    flow_state s s' D ∧ (∀ c, c ∈ D ↔ reachable s c) ∧
    width s' = width s ∧ height s' = height s ∧
    power_sources s' = power_sources s ∧ bulbs s' = bulbs s ∧
    board_ok s' ∧
    ∀ x y, valid s (x, y) ->
      ∃ t t', grid_get (grid s) x y = Ok t ∧ grid_get (grid s') x y = Ok t' ∧
              tile_type t' = tile_type t.
Proof.
  intros [Hok Hinv] Hfuel.
  destruct (update_power_flow_spec fuel s Hok Hfuel) as (s' & D & Hu & Hst & HD & _).
  pose proof Hst as (Hw & Hh & Hps & Hb & _).
  exists s', D. split_and!; try done.
  - split; [by apply (flow_state_game_ok s s' D)|].
    intros x y t' Hv Ht'.
    assert (Hv0 : valid s (x, y)) by (unfold valid in *; by rewrite <- Hw, <- Hh).
    destruct (flow_state_shape s s' D x y Hst Hv0) as (t & t'' & Ht & Ht'' & Hsh).
    assert (t'' = t') by congruence. subst t''.
    apply (same_shape_inv t t' Hsh). by apply (Hinv x y).
  - intros x y Hv.
    destruct (flow_state_shape s s' D x y Hst Hv) as (t & t' & Ht & Ht' & Hty & _).
    by exists t, t'.
Qed.

Lemma bulb_not_source_empty tt :
  tt = LIGHT_BULB -> tt ∉ [POWER_SOURCE; EMPTY].
Proof. intros ->. set_solver. Qed.

Lemma pipe_not_source_empty tt :
  tt ∈ pipe_types -> tt ∉ [POWER_SOURCE; EMPTY].
Proof. unfold pipe_types. intros Hin. set_solver. Qed.

Lemma not_source_empty_ne tt : tt ∉ [POWER_SOURCE; EMPTY] -> tt ≠ EMPTY.
Proof. intros Hn ->. set_solver. Qed.

Lemma reachable_valid s c : game_ok s -> reachable s c -> valid s c.
Proof.
  intros (_ & Hsv & _). induction 1 as [c Hc|c c' Hr IH He]; [by apply Hsv|].
  destruct He as (d & ds & ds' & _ & _ & _ & Hv & _).
  apply is_valid_position_true in Hv. by destruct c'.
Qed.

Lemma reachable_mono s s' c :
  (∀ c, c ∈ power_sources s -> c ∈ power_sources s') ->
  (∀ c c', reachable s c -> reciprocal_edge s c c' -> reciprocal_edge s' c c') ->
  reachable s c -> reachable s' c.
Proof.
  intros Hs He. induction 1 as [c Hc|c c' Hr IH Hedge].
  - apply reach_source. by apply Hs.
  - apply (reach_edge s' c c'); [done|]. by apply He.
Qed.

(** Writing a tile over a fresh Empty one breaks no reciprocal edge. *)
Lemma edge_keep s s' nx ny c c' :
  width s' = width s -> height s' = height s ->
  valid s (nx, ny) ->
  grid_get (grid s) nx ny = Ok (Tile_make EMPTY 0 None) ->
  (∀ x' y', valid s (x', y') -> (x', y') ≠ (nx, ny) ->
            grid_get (grid s') x' y' = grid_get (grid s) x' y') ->
  valid s c -> reciprocal_edge s c c' -> reciprocal_edge s' c c'.
Proof.
  intros Hw Hh Hvn Hn Ho Hvc (d & ds & ds' & Hc & Hd & -> & Hv' & Hc' & Hd').
  destruct c as [x y]. cbn [fst snd] in *.
  destruct (get_neighbor_position x y d) as [x' y'] eqn:En. cbn [fst snd] in *.
  unfold conns in *. cbn [fst snd] in *.
  assert (Hne : (x, y) ≠ (nx, ny)).
  { intros E. injection E as -> ->. rewrite Hn in Hc. cbn in Hc. injection Hc as <-.
    by apply elem_of_nil in Hd. }
  assert (Hne' : (x', y') ≠ (nx, ny)).
  { intros E. injection E as -> ->. rewrite Hn in Hc'. cbn in Hc'. injection Hc' as <-.
    by apply elem_of_nil in Hd'. }
  pose proof (proj1 (is_valid_position_true s x' y') Hv') as Hvc'.
  exists d, ds, ds'. unfold conns. cbn [fst snd]. rewrite En.
  rewrite (Ho x y Hvc Hne), (Ho x' y' Hvc' Hne').
  split_and!; try done.
  unfold is_valid_position in *. by rewrite Hw, Hh.
Qed.

Lemma not_pipe_of_type t :
  tile_type t ∈ [POWER_SOURCE; LIGHT_BULB; EMPTY] -> ¬ is_pipe t.
Proof. unfold is_pipe. tauto. Qed.

Lemma source_not_pipe t : tile_type t = POWER_SOURCE -> ¬ is_pipe t.
Proof. intros Hty. apply not_pipe_of_type. rewrite Hty. set_solver. Qed.

Lemma bulb_not_pipe t : tile_type t = LIGHT_BULB -> ¬ is_pipe t.
Proof. intros Hty. apply not_pipe_of_type. rewrite Hty. set_solver. Qed.

Lemma empty_not_pipe t : tile_type t = EMPTY -> ¬ is_pipe t.
Proof. intros Hty. apply not_pipe_of_type. rewrite Hty. set_solver. Qed.

Lemma source_listed tt : tt = POWER_SOURCE -> tt ∈ [POWER_SOURCE; EMPTY].
Proof. intros ->. set_solver. Qed.

Lemma tile_inv_empty_conns t :
  tile_inv t -> tile_type t = EMPTY -> get_connections t = Ok [].
Proof.
  intros [_ Hr] Hty. unfold get_connections. rewrite Hty in *. simpl in Hr.
  rewrite bool_decide_eq_false_2 by done.
  assert (Hz : rotation t = 0) by lia. by rewrite Hz.
Qed.

(** A bulb has one open side. *)
Lemma bulb_conns t ds d d' :
  tile_inv t -> tile_type t = LIGHT_BULB -> get_connections t = Ok ds ->
  d ∈ ds -> d' ∈ ds -> d = d'.
Proof.
  intros [_ Hr] Hty. unfold get_connections. rewrite Hty in *. simpl in Hr.
  rewrite bool_decide_eq_false_2 by done.
  assert (Hr' : 0 ≤ rotation t ≤ 3) by lia. clear Hr.
  destruct t as [tt m rot pw us pat]. simpl in *. enum_Z rot;
    cbn; intros [= <-] H1 H2;
    apply list_elem_of_singleton in H1; apply list_elem_of_singleton in H2; congruence.
Qed.

Lemma mutual_edge s c d :
  mutual s c d -> reciprocal_edge s c (get_neighbor_position (fst c) (snd c) d).
Proof.
  intros [(t & ds & Ht & _ & Hds & Hd) [Hv (n & dsn & Hn & _ & Hdsn & Hopp)]].
  exists d, ds, dsn. unfold conns. rewrite Ht, Hn. cbn [mbind res_bind].
  split_and!; try done.
  apply is_valid_position_true. by destruct (get_neighbor_position (fst c) (snd c) d).
Qed.

Lemma edge_mutual s c c' :
  board_ok s -> valid s c -> reciprocal_edge s c c' ->
  ∃ d, c' = get_neighbor_position (fst c) (snd c) d ∧ mutual s c d.
Proof.
  intros [Hok Hinv] Hvc (d & ds & ds' & Hc & Hd & -> & Hv' & Hc' & Hd').
  exists d. split; [done|]. destruct c as [x y]. cbn [fst snd] in *.
  destruct (get_neighbor_position x y d) as [x' y'] eqn:En. cbn [fst snd] in *.
  apply is_valid_position_true in Hv'.
  unfold conns in Hc, Hc'. cbn [fst snd] in Hc, Hc'.
  apply bind_Ok in Hc as (t & Ht & Hds). apply bind_Ok in Hc' as (n & Hn & Hdsn).
  assert (Hty : tile_type t ≠ EMPTY).
  { intros E. rewrite (tile_inv_empty_conns t (Hinv x y t Hvc Ht) E) in Hds.
    injection Hds as <-. by apply elem_of_nil in Hd. }
  assert (Htyn : tile_type n ≠ EMPTY).
  { intros E. rewrite (tile_inv_empty_conns n (Hinv x' y' n Hv' Hn) E) in Hdsn.
    injection Hdsn as <-. by apply elem_of_nil in Hd'. }
  split.
  - by exists t, ds.
  - cbn [fst snd]. rewrite dir_ok_points, En. split; [done|]. by exists n, ds'.
Qed.

(** Reachability survives whatever keeps the sources and the mutual
    connections. *)
Lemma reachable_keep_mutual s s' c :
  board_ok s ->
  (∀ c, c ∈ power_sources s -> c ∈ power_sources s') ->
  (∀ c d, valid s c -> mutual s c d -> mutual s' c d) ->
  reachable s c -> reachable s' c.
Proof.
  intros Hb Hs Hm. apply reachable_mono; [done|].
  intros c0 c0' Hr He.
  pose proof (reachable_valid s c0 (proj1 Hb) Hr) as Hv.
  destruct (edge_mutual s c0 c0' Hb Hv He) as (d & -> & Hmu).
  by apply mutual_edge, Hm.
Qed.

Lemma dir_ok_not_leak s x y d : grid_wf s -> dir_ok s x y d -> dir_leak s x y d -> False.
Proof.
  intros Hwf Hok Hleak.
  destruct (check_direction_spec s x y d Hwf) as (b & _ & Ht & Hf).
  apply Ht in Hok. apply Hf in Hleak. congruence.
Qed.

Lemma grown_anchored s : grown s -> anchored s.
Proof.
  intros (_ & Hm & _) x y t Hv Ht Hp. apply (Hm x y t Hv Ht).
  unfold is_pipe in Hp. intros Hin. apply Hp.
  apply elem_of_cons in Hin as [->|Hin]; [set_solver|].
  apply list_elem_of_singleton in Hin. rewrite Hin. set_solver.
Qed.

(** Lines 254-260 of [generate_puzzle] on a grown board: they return, the
    repair rounds idle, every non-Empty tile ends up powered and used, no
    tile other than a power source has an unanswered open side, and the
    board counts as solved exactly when no source has one either. *)
Lemma generate_finish_spec fuel s :
  grown s ->
  (length (cells (width s) (height s)) < fuel)%nat ->
  ∃ s2,
    generate_finish fuel s (power_sources s) = Ok s2 ∧
    width s2 = width s ∧ height s2 = height s ∧
    power_sources s2 = power_sources s ∧ bulbs s2 = bulbs s ∧
    board_ok s2 ∧
    (∀ x y, valid s (x, y) ->
       ∃ t t2, grid_get (grid s) x y = Ok t ∧ grid_get (grid s2) x y = Ok t2 ∧
               (¬ is_pipe t -> tile_type t2 = tile_type t) ∧
               (is_pipe t -> tile_type t2 ∉ [POWER_SOURCE; EMPTY]) ∧
               (tile_type t2 = EMPTY ∨
                (used_in_solution t2 = true ∧ is_powered t2 = true))) ∧
    (∀ x y t2 ds d, valid s (x, y) -> grid_get (grid s2) x y = Ok t2 ->
       tile_type t2 ≠ POWER_SOURCE -> get_connections t2 = Ok ds -> d ∈ ds ->
       dir_ok s2 x y d) ∧
    (is_solved s2 = true ↔
       ∀ x y ds d, (x, y) ∈ power_sources s -> conns s2 (x, y) = Ok ds -> d ∈ ds ->
                   dir_ok s2 x y d).
Proof.
  intros Hg Hfuel. pose proof (grown_anchored s Hg) as Hanc.
  destruct Hg as (Hb & Hmut & Hreach & Hbulbs & Hsrc).
  pose proof Hb as [Hok Hinv]. pose proof Hok as (Hwf & Hsv & Hbv).
  unfold generate_finish.
  destruct (finalize_puzzle_anchored s Hb Hanc)
    as (s1 & Hfin & Hw1 & Hh1 & Hps1 & Hbu1 & Hb1 & _ & Hkeep & Hc1).
  destruct (finalize_puzzle_wfw s (grid_wf_wfw s Hwf))
    as (s1' & Hfin' & _ & _ & _ & _ & _ & Hset).
  assert (s1' = s1) by congruence. subst s1'. clear Hfin'.
  rewrite Hfin. cbn [mbind res_bind].
  pose proof Hb1 as [Hok1 Hinv1]. pose proof Hok1 as (Hwf1 & _ & _).
  assert (Hval1 : ∀ c, valid s1 c ↔ valid s c)
    by (intros c; unfold valid; by rewrite Hw1, Hh1).
  (* the finalized board *)
  assert (Hcell1 : ∀ x y t1, valid s (x, y) -> grid_get (grid s1) x y = Ok t1 ->
            ∃ t, grid_get (grid s) x y = Ok t ∧
                 (¬ is_pipe t -> t1 = t) ∧
                 (is_pipe t -> (tile_type t1 ∉ [POWER_SOURCE; EMPTY]) ∧ settled s1 (x, y))).
  { intros x y t1 Hv Ht1.
    destruct (Hc1 x y Hv) as (t & t1' & Ht & Ht1' & Hnp & Hpp).
    destruct (Hset x y Hv) as (t' & t1'' & Ht' & Ht1'' & _ & _ & _ & _ & Hsettled).
    assert (t1' = t1) by congruence. assert (t' = t) by congruence. subst t1' t'.
    exists t. split_and!; try done. intros Hp. split; [by apply Hpp|by apply Hsettled]. }
  assert (Hne1 : ∀ x y t1, valid s (x, y) -> grid_get (grid s1) x y = Ok t1 ->
            tile_type t1 ≠ EMPTY -> reachable s1 (x, y)).
  { intros x y t1 Hv Ht1 Hty.
    destruct (Hcell1 x y t1 Hv Ht1) as (t & Ht & Hnp & Hpp).
    apply (reachable_keep_mutual s s1); [done|intros c; by rewrite Hps1|done|].
    apply (Hreach x y t Hv Ht).
    destruct (decide (is_pipe t)) as [Hp|Hn].
    - intros E. by apply (empty_not_pipe t).
    - by rewrite <- (Hnp Hn). }
  assert (Hdir1 : ∀ x y t1 ds d, valid s (x, y) -> grid_get (grid s1) x y = Ok t1 ->
            tile_type t1 ≠ POWER_SOURCE -> get_connections t1 = Ok ds -> d ∈ ds ->
            dir_ok s1 x y d).
  { intros x y t1 ds d Hv Ht1 Hty Hds Hd.
    destruct (Hcell1 x y t1 Hv Ht1) as (t & Ht & Hnp & Hpp).
    destruct (decide (is_pipe t)) as [Hp|Hn].
    - destruct (Hpp Hp) as [Hty1 Hsettled].
      apply (Hsettled d). exists t1, ds. cbn [fst snd]. split_and!; try done.
      by apply not_source_empty_ne.
    - pose proof (Hnp Hn) as ->.
      assert (Hne : tile_type t ≠ EMPTY).
      { intros E. rewrite (tile_inv_empty_conns t (Hinv x y t Hv Ht) E) in Hds.
        injection Hds as <-. by apply elem_of_nil in Hd. }
      assert (Hlb : tile_type t = LIGHT_BULB).
      { unfold is_pipe in Hn. destruct (tile_type t); try done.
        all: exfalso; apply Hn; set_solver. }
      destruct (Hmut x y t Hv Ht) as [d0 Hm0].
      { rewrite Hlb. by apply bulb_not_source_empty. }
      destruct (Hkeep (x, y) d0 Hv Hm0) as [(t' & ds' & Ht' & _ & Hds' & Hd0) Hok0].
      cbn [fst snd] in *. assert (t' = t) by congruence. subst t'.
      assert (ds' = ds) by congruence. subst ds'.
      by rewrite (bulb_conns t ds d d0 (Hinv x y t Hv Ht) Hlb Hds Hd Hd0). }
  (* the solver *)
  destruct (update_power_flow_spec fuel s1 Hok1)
    as (s2 & D & Hu & Hst & HD & Hsolved).
  { by rewrite Hw1, Hh1. }
  rewrite Hu. cbn [mbind res_bind fst snd].
  destruct (repair_idle fuel s1 s2 D Hok1 Hst HD) as [_ Hrep].
  rewrite Hps1 in Hrep. rewrite Hrep.
  pose proof Hst as (Hw2 & Hh2 & Hps2 & Hbu2 & _).
  pose proof (flow_state_game_ok s1 s2 D Hok1 Hst) as Hok2.
  assert (Hval2 : ∀ c, valid s2 c ↔ valid s c)
    by (intros c; unfold valid; by rewrite Hw2, Hh2, Hw1, Hh1).
  assert (Hcell2 : ∀ x y t2, valid s (x, y) -> grid_get (grid s2) x y = Ok t2 ->
            ∃ t1, grid_get (grid s1) x y = Ok t1 ∧ same_shape t1 t2 ∧
                  get_connections t2 = get_connections t1 ∧
                  (tile_type t1 ≠ EMPTY ->
                   used_in_solution t2 = true ∧ is_powered t2 = true)).
  { intros x y t2 Hv Ht2. pose proof (proj2 (Hval1 _) Hv) as Hv1.
    destruct (flow_state_shape s1 s2 D x y Hst Hv1) as (t1 & t2' & Ht1 & Ht2' & Hsh).
    assert (t2' = t2) by congruence. subst t2'.
    exists t1. split_and!; try done.
    - pose proof (flow_state_conns s1 s2 D (x, y) Hst Hv1) as Hcs.
      unfold conns in Hcs. cbn [fst snd] in Hcs. rewrite Ht1, Ht2 in Hcs. exact Hcs.
    - intros Hty.
      destruct (flow_state_flags s1 s2 D x y Hst Hv1)
        as (t1' & t2'' & Ht1' & Ht2'' & _ & Hused & _ & Hpow).
      assert (t2'' = t2) by congruence. subst t2''.
      assert (HinD : (x, y) ∈ D) by (apply HD; by apply (Hne1 x y t1)).
      split; [by apply Hused|by apply Hpow]. }
  assert (Hdir2 : ∀ x y t2 ds d, valid s (x, y) -> grid_get (grid s2) x y = Ok t2 ->
            tile_type t2 ≠ POWER_SOURCE -> get_connections t2 = Ok ds -> d ∈ ds ->
            dir_ok s2 x y d).
  { intros x y t2 ds d Hv Ht2 Hty Hds Hd.
    destruct (Hcell2 x y t2 Hv Ht2) as (t1 & Ht1 & (Hty1 & _) & Hcs & _).
    apply (flow_state_dir_ok s1 s2 D x y d Hok1 Hst).
    apply (Hdir1 x y t1 ds d Hv Ht1); [congruence|congruence|done]. }
  exists s2. split; [done|]. split_and!; try congruence.
  - split; [done|]. intros x y t2 Hv Ht2. apply Hval2 in Hv.
    destruct (Hcell2 x y t2 Hv Ht2) as (t1 & Ht1 & Hsh & _).
    apply (same_shape_inv t1 t2 Hsh). apply (Hinv1 x y t1); [by apply Hval1|done].
  - intros x y Hv. pose proof (proj2 (Hval2 _) Hv) as Hv2.
    pose proof Hok2 as ([Hd2 _] & _). destruct Hv2 as [Hx Hy]. cbn [fst snd] in Hx, Hy.
    destruct (grid_get_dims _ _ _ x y Hd2 Hx Hy) as [t2 Ht2].
    destruct (Hcell2 x y t2 Hv Ht2) as (t1 & Ht1 & (Hty & _) & _ & Hfl).
    destruct (Hcell1 x y t1 Hv Ht1) as (t & Ht & Hnp & Hpp).
    exists t, t2. split_and!; try done.
    + intros Hn. by rewrite Hty, (Hnp Hn).
    + intros Hp. rewrite Hty. by apply Hpp.
    + destruct (decide (tile_type t1 = EMPTY)) as [E|Hne]; [left; congruence|].
      right. by apply Hfl.
  - done.
  - rewrite Hsolved. split.
    + intros (_ & _ & Hleaks) x y ds d Hin Hcs Hd.
      destruct (check_no_leaks_spec s2 (proj1 Hok2)) as (b & Hb' & Hnl & _).
      assert (b = true) by congruence. subst b.
      pose proof (proj1 Hnl eq_refl) as Hno.
      assert (Hv : valid s (x, y)) by (by apply Hsv).
      unfold conns in Hcs. cbn [fst snd] in Hcs. apply bind_Ok in Hcs as (t2 & Ht2 & Hds).
      apply (Hno (x, y) (proj2 (Hval2 _) Hv) t2 ds d); try done.
      destruct (Hcell2 x y t2 Hv Ht2) as (t1 & Ht1 & _ & _ & Hfl).
      apply Hfl. destruct (Hcell1 x y t1 Hv Ht1) as (t & Ht & Hnp & _).
      pose proof (proj2 (Hsrc x y t Hv Ht) Hin) as Hty.
      rewrite (Hnp (source_not_pipe t Hty)), Hty. done.
    + intros Hsrcs. split_and!.
      * intros [x y] Hin. rewrite Hbu2, Hbu1 in Hin. cbn [fst snd].
        assert (Hv : valid s (x, y)) by (by apply Hbv).
        destruct (Hbulbs x y Hin) as (t & Ht & Hty).
        pose proof Hok2 as ([Hd2 _] & _).
        pose proof (proj2 (Hval2 _) Hv) as [Hx Hy]. cbn [fst snd] in Hx, Hy.
        destruct (grid_get_dims _ _ _ x y Hd2 Hx Hy) as [t2 Ht2].
        destruct (Hcell2 x y t2 Hv Ht2) as (t1 & Ht1 & _ & _ & Hfl).
        destruct (Hcell1 x y t1 Hv Ht1) as (t' & Ht' & Hnp & _).
        assert (t' = t) by congruence. subst t'.
        exists t2. split; [done|]. apply Hfl.
        rewrite (Hnp (bulb_not_pipe t Hty)), Hty. done.
      * intros [x y] Hv2. cbn [fst snd]. pose proof (proj1 (Hval2 _) Hv2) as Hv.
        pose proof Hok2 as ([Hd2 _] & _). destruct Hv2 as [Hx Hy]. cbn [fst snd] in Hx, Hy.
        destruct (grid_get_dims _ _ _ x y Hd2 Hx Hy) as [t2 Ht2].
        destruct (Hcell2 x y t2 Hv Ht2) as (t1 & Ht1 & (Hty & _) & _ & Hfl).
        exists t2. split; [done|].
        destruct (decide (tile_type t1 = EMPTY)) as [E|Hne]; [right; congruence|].
        left. by apply Hfl.
      * destruct (check_no_leaks_spec s2 (proj1 Hok2)) as (b & -> & Hnl & _).
        f_equal. apply Hnl. intros [x y] Hv2 t2 ds d Ht2 Hpow Hds Hd.
        cbn [fst snd] in *. pose proof (proj1 (Hval2 _) Hv2) as Hv.
        destruct (decide (tile_type t2 = POWER_SOURCE)) as [Hty|Hty].
        -- apply (Hsrcs x y ds d); [|by unfold conns; cbn [fst snd]; rewrite Ht2|done].
           destruct (Hcell2 x y t2 Hv Ht2) as (t1 & Ht1 & (Hty1 & _) & _).
           destruct (Hcell1 x y t1 Hv Ht1) as (t & Ht & Hnp & Hpp).
           apply (Hsrc x y t Hv Ht).
           destruct (decide (is_pipe t)) as [Hp|Hn].
           ++ exfalso. destruct (Hpp Hp) as [Hn1 _]. apply Hn1. apply source_listed. congruence.
           ++ rewrite <- (Hnp Hn). congruence.
        -- by apply (Hdir2 x y t2 ds d).
Qed.

(** Lines 262-263 of [generate_puzzle] on a board with the tile
    invariant. *)
Lemma scramble_spec fuel s r :
  board_ok s ->
  (length (cells (width s) (height s)) < fuel)%nat ->
  ∃ s' r',
    scramble fuel s r = Ok (s', r') ∧
    width s' = width s ∧ height s' = height s ∧
    power_sources s' = power_sources s ∧ bulbs s' = bulbs s ∧
    board_ok s' ∧
    ∀ x y, valid s (x, y) ->
      ∃ t t', grid_get (grid s) x y = Ok t ∧ grid_get (grid s') x y = Ok t' ∧
              tile_type t' = tile_type t.
Proof.
  intros Hb2 Hfuel. unfold scramble. pose proof Hb2 as [Hok2 Hinv2].
  destruct (randomize_rotations_wfw s r (grid_wf_wfw s (proj1 Hok2)))
    as (s3 & r3 & -> & Hw3 & Hh3 & Hps3 & Hbu3 & _ & [Hd3 _] & Hc3).
  cbn [mbind res_bind fst snd].
  assert (Hval3 : ∀ c, valid s3 c ↔ valid s c)
    by (intros c; unfold valid; by rewrite Hw3, Hh3).
  assert (Hb3 : board_ok s3).
  { pose proof Hok2 as ([_ Hrd2] & Hsv2 & Hbv2).
    split; [split; [|split]|].
    - split; [done|]. intros [x y] Hv. apply Hval3 in Hv.
      destruct (Hc3 x y Hv) as (t & t' & Ht & Ht' & _ & _ & _ & _ & Hsame & Hnew).
      unfold conns. cbn [fst snd]. rewrite Ht'. cbn [mbind res_bind].
      destruct (decide (tile_type t ∈ [EMPTY; POWER_SOURCE])) as [Hin|Hnin].
      + rewrite (Hsame Hin). destruct (Hrd2 (x, y) Hv) as [ds Hds].
        unfold conns in Hds. cbn [fst snd] in Hds. rewrite Ht in Hds. eauto.
      + by destruct (Hnew Hnin) as [_ ?].
    - intros c Hc. apply Hval3, Hsv2. by rewrite <- Hps3.
    - intros c Hc. apply Hval3, Hbv2. by rewrite <- Hbu3.
    - intros x y t' Hv Ht'. apply Hval3 in Hv.
      destruct (Hc3 x y Hv) as (t & t'' & Ht & Ht'' & _ & _ & _ & _ & Hsame & Hnew).
      assert (t'' = t') by congruence. subst t''.
      destruct (decide (tile_type t ∈ [EMPTY; POWER_SOURCE])) as [Hin|Hnin].
      + rewrite (Hsame Hin). by apply (Hinv2 x y).
      + by destruct (Hnew Hnin) as [? _]. }
  destruct (update_power_flow_board fuel s3 Hb3)
    as (s4 & D4 & -> & _ & _ & Hw4 & Hh4 & Hps4 & Hbu4 & Hb4 & Hc4).
  { by rewrite Hw3, Hh3. }
  cbn [mbind res_bind fst snd].
  exists s4, r3. split; [done|]. split_and!; try congruence; try done.
  intros x y Hv.
  destruct (Hc3 x y Hv) as (t2 & t3 & Ht2 & Ht3 & Hty3 & _).
  destruct (Hc4 x y (proj2 (Hval3 _) Hv)) as (t3' & t4 & Ht3' & Ht4 & Hty4).
  assert (t3' = t3) by congruence. subst t3'.
  exists t2, t4. split_and!; try done. congruence.
Qed.

Lemma points_ext s1 s2 c d :
  grid_get (grid s2) (fst c) (snd c) = grid_get (grid s1) (fst c) (snd c) ->
  points s1 c d -> points s2 c d.
Proof. unfold points. by intros ->. Qed.

Lemma dir_ok_ext s1 s2 x y d :
  width s2 = width s1 -> height s2 = height s1 ->
  grid_get (grid s2) (fst (get_neighbor_position x y d)) (snd (get_neighbor_position x y d))
  = grid_get (grid s1) (fst (get_neighbor_position x y d))
                       (snd (get_neighbor_position x y d)) ->
  dir_ok s1 x y d -> dir_ok s2 x y d.
Proof.
  intros Hw Hh Hg. rewrite !dir_ok_points. intros [Hv Hp]. split.
  - unfold valid. by rewrite Hw, Hh.
  - by apply (points_ext s1).
Qed.

Section generator_props.

(** The two floating-point draws, as in the definitions; the second one
    returns a member of its population. *)
Variable random_lt_03 : rng -> bool * rng.
Variable choices_pipe : rng -> TileType * rng.
Hypothesis choices_pipe_in : ∀ r, fst (choices_pipe r) ∈ pipe_types.

(** The tile put at the chosen neighbour: a bulb or a pipe, inside the
    tile invariant, open towards the cell it was reached from. *)
Lemma place_tile_spec nb st direction nx ny :
  grid_dims (width (g_game st)) (height (g_game st)) (grid (g_game st)) ->
  valid (g_game st) (nx, ny) ->
  ∃ st' t' ds,
    place_tile random_lt_03 choices_pipe nb st direction nx ny = Ok st' ∧
    g_available st' = g_available st ∧ g_connected st' = g_connected st ∧
    g_frontier st' = g_frontier st ∧
    width (g_game st') = width (g_game st) ∧
    height (g_game st') = height (g_game st) ∧
    power_sources (g_game st') = power_sources (g_game st) ∧
    grid_dims (width (g_game st)) (height (g_game st)) (grid (g_game st')) ∧
    grid_get (grid (g_game st')) nx ny = Ok t' ∧
    (∀ x' y', valid (g_game st) (x', y') -> (x', y') ≠ (nx, ny) ->
       grid_get (grid (g_game st')) x' y' = grid_get (grid (g_game st)) x' y') ∧
    tile_inv t' ∧ get_connections t' = Ok ds ∧
    get_opposite_direction direction ∈ ds ∧
    ((g_bulb_positions st' = g_bulb_positions st ++ [(nx, ny)] ∧
      bulbs (g_game st') = bulbs (g_game st) ++ [(nx, ny)] ∧
      tile_type t' = LIGHT_BULB ∧
      Z.of_nat (length (g_bulb_positions st)) < nb) ∨
     (g_bulb_positions st' = g_bulb_positions st ∧
      bulbs (g_game st') = bulbs (g_game st) ∧ tile_type t' ∈ pipe_types)).
Proof.
  intros Hd Hv. pose proof Hv as [Hx Hy]. simpl in Hx, Hy.
  unfold place_tile.
  destruct (if bool_decide (Z.of_nat (length (g_bulb_positions st)) < nb)
            then random_lt_03 (g_rng st) else (false, g_rng st))
    as [place_bulb r1] eqn:Hpb.
  destruct place_bulb.
  - assert (Hlt : Z.of_nat (length (g_bulb_positions st)) < nb).
    { destruct (decide (Z.of_nat (length (g_bulb_positions st)) < nb)) as [|Hge]; [done|].
      rewrite bool_decide_eq_false_2 in Hpb by done. by injection Hpb. }
    unfold Tile_init. rewrite bool_decide_eq_false_2 by done.
    cbn [mbind res_bind fst snd]. unfold grid_set.
    destruct (grid_modify_dims
                (fun _ => Tile_make LIGHT_BULB
                            (bulb_rotation_for (get_opposite_direction direction)) None)
                _ _ (grid (g_game st)) nx ny Hd Hx Hy)
      as (t0 & g1 & _ & -> & Hd1 & Hg1 & Ho1).
    cbn [mbind res_bind].
    eexists _, _, [get_opposite_direction direction]. split; [reflexivity|].
    cbn [g_available g_connected g_frontier g_bulb_positions g_game
         width height power_sources bulbs grid set_bulbs set_grid].
    split_and!; try done.
    + intros x' y' [Hx' Hy'] Hne. simpl in Hx', Hy'. by apply Ho1.
    + apply Tile_make_inv.
    + by destruct direction.
    + set_solver.
    + left. by split_and!.
  - destruct (choices_pipe r1) as [pt r2] eqn:Hcp.
    assert (Hpt : pt ∈ pipe_types).
    { pose proof (choices_pipe_in r1) as Hin. by rewrite Hcp in Hin. }
    pose proof (pipe_types_not_source pt Hpt) as Hns.
    unfold Tile_init. rewrite bool_decide_eq_false_2 by done.
    cbn [mbind res_bind fst snd]. unfold grid_set.
    destruct (grid_modify_dims (fun _ => Tile_make pt 0 None)
                _ _ (grid (g_game st)) nx ny Hd Hx Hy)
      as (t0 & g1 & _ & -> & Hd1 & Hg1 & Ho1).
    cbn [mbind res_bind].
    destruct (try_rotations_spec (set_grid g1 (g_game st)) nx ny
                (get_opposite_direction direction) pt Hpt Hd1 Hv Hg1)
      as (g2 & rot0 & vr & Hrun & Hd2 & Hg2 & Ho2 & Hne & Hvr).
    rewrite Hrun. cbn [mbind res_bind].
    destruct vr as [|v0 vr0]; [done|].
    destruct (choice_spec (v0 :: vr0) r2) as (rot & r3 & Hch & Hin); [done|].
    rewrite Hch. cbn [mbind res_bind fst snd grid set_grid].
    destruct (Hvr rot Hin) as [Hrot Hconn].
    cbn [width height set_grid] in Hd2.
    destruct (grid_modify_dims (set_rotation rot) _ _ g2 nx ny Hd2 Hx Hy)
      as (t2 & g3 & Ht2 & -> & Hd3 & Hg3 & Ho3).
    cbn [mbind res_bind].
    assert (t2 = set_rotation rot0 (Tile_make pt 0 None)) by congruence. subst t2.
    change (set_rotation rot (set_rotation rot0 (Tile_make pt 0 None)))
      with (set_rotation rot (Tile_make pt 0 None)) in *.
    destruct (is_connected_to_true _ _ Hconn) as (ds & Hds & Hdin).
    eexists _, (set_rotation rot (Tile_make pt 0 None)), ds. split; [reflexivity|].
    cbn [g_available g_connected g_frontier g_bulb_positions g_game
         width height power_sources bulbs grid set_bulbs set_grid].
    split_and!; try done.
    + intros x' y' Hv' Hne'. pose proof Hv' as [Hx' Hy']. simpl in Hx', Hy'.
      rewrite Ho3 by done. rewrite (Ho2 x' y') by done. by apply Ho1.
    + right. by split_and!.
Qed.

(** One round of the growth loop keeps the invariant and lowers the
    measure. *)
Lemma grow_step_spec w h P nb st :
  grow_inv w h P nb st -> g_frontier st ≠ [] ->
  ∃ st', grow_step random_lt_03 choices_pipe nb st = Ok st' ∧
         grow_inv w h P nb st' ∧
         (grow_measure w h st' < grow_measure w h st)%nat.
Proof.
  intros (Hw & Hh & Hps & Hbu & [Hok Hinv] & Hcv & Hfc & HP & Hfresh & Hcon & Hbl & Hnd
          & Hlen & Hreach) Hfr.
  pose proof Hok as ([Hd Hrd] & Hsv & Hbv).
  unfold grow_step.
  destruct (choice_spec (g_frontier st) (g_rng st) Hfr) as ([x y] & r1 & -> & Hin).
  cbn [mbind res_bind].
  pose proof (Hfc _ Hin) as Hcc. pose proof (Hcv _ Hcc) as Hvc.
  destruct (Hrd (x, y) Hvc) as [ds Hds]. unfold conns in Hds. cbn [fst snd] in Hds.
  destruct (grid_get (grid (g_game st)) x y) as [tc| |] eqn:Htc; try done.
  cbn [mbind res_bind] in Hds |- *. rewrite Hds. cbn [mbind res_bind].
  destruct (fold_left (possible_step (g_game st) (g_connected st) x y) ds [])
    as [|e0 poss] eqn:Hposs.
  - destruct (list_remove_spec (x, y) (g_frontier st) Hin) as (l' & -> & Hlen' & Hsub).
    cbn [mbind res_bind]. eexists. split; [reflexivity|]. split.
    + unfold grow_inv. cbn [g_game g_connected g_frontier g_bulb_positions].
      split_and!; try done. intros c Hc. by apply Hfc, Hsub.
    + unfold grow_measure. cbn [g_connected g_frontier]. unfold pos in *. lia.
  - destruct (choice_spec (e0 :: poss) r1) as ([[d nx] ny] & r2 & Hch & Hine); [done|].
    rewrite Hch. cbn [mbind res_bind].
    rewrite <- Hposs in Hine.
    apply possible_spec in Hine as [Hine|(d' & Hd' & He & Hvn & Hnc)];
      [by apply elem_of_nil in Hine|].
    destruct (get_neighbor_position x y d') as [nx' ny'] eqn:Hn.
    cbn [fst snd] in He. injection He as -> -> ->.
    destruct (remove_if_present nx' ny' (g_available st)) as [av' Hav].
    match goal with
    | |- context [@mbind _ _ _ _ _ ?m] =>
        replace m with (@Ok (list pos) av') by (symmetry; exact Hav)
    end.
    cbn [mbind res_bind].
    set (st1 := mkGrowth (g_game st) av' (g_connected st ∪ {[(nx', ny')]})
                         (g_frontier st ++ [(nx', ny')]) (g_bulb_positions st) r2).
    destruct (place_tile_spec nb st1 d' nx' ny')
      as (st' & t' & ds' & Hpl & Hav' & Hco' & Hfr' & Hw' & Hh' & Hps' & Hd'' & Hg' & Ho'
          & Hti' & Hds' & Hopp & Hcase); [done|done|].
    cbn [st1 g_game g_available g_connected g_frontier g_bulb_positions] in *.
    exists st'. split; [done|].
    assert (Hval' : ∀ c, valid (g_game st') c ↔ valid (g_game st) c)
      by (intros c; unfold valid; by rewrite Hw', Hh').
    assert (Hty' : tile_type t' ∉ [POWER_SOURCE; EMPTY]).
    { destruct Hcase as [(_ & _ & Hlb & _)|(_ & _ & Hpt)];
        [by apply bulb_not_source_empty|by apply pipe_not_source_empty]. }
    assert (Hsame : ∀ x0 y0, (x0, y0) ∈ g_connected st ->
              grid_get (grid (g_game st')) x0 y0 = grid_get (grid (g_game st)) x0 y0).
    { intros x0 y0 Hc0. apply Ho'; [by apply Hcv|]. intros E. by rewrite E in Hc0. }
    assert (Hnonempty : ∀ x0 y0 t0, valid (g_game st) (x0, y0) ->
              grid_get (grid (g_game st)) x0 y0 = Ok t0 -> tile_type t0 ≠ EMPTY ->
              (x0, y0) ∈ g_connected st).
    { intros x0 y0 t0 Hv0 Ht0 Hne0.
      destruct (decide ((x0, y0) ∈ g_connected st)) as [|Hnin]; [done|].
      rewrite (Hfresh x0 y0 Hv0 Hnin) in Ht0. injection Ht0 as <-. done. }
    assert (Htc_ne : tile_type tc ≠ EMPTY).
    { destruct (decide ((x, y) ∈ P)) as [HinP|HninP].
      - destruct (HP x y HinP) as (_ & t & Ht & Hty). assert (t = tc) by congruence.
        subst t. by rewrite Hty.
      - destruct (Hcon x y Hcc HninP) as (t & Ht & Hty & _). assert (t = tc) by congruence.
        subst t. by apply not_source_empty_ne. }
    assert (Hmut_old : ∀ c d, c ∈ g_connected st -> mutual (g_game st) c d ->
              mutual (g_game st') c d).
    { intros [x0 y0] d0 Hc0 [Hp0 Hd0]. split.
      - apply (points_ext (g_game st)); [|done]. by apply Hsame.
      - cbn [fst snd] in *. apply (dir_ok_ext (g_game st)); [done|done| |done].
        pose proof Hd0 as [Hv0 (n0 & dsn & Hn0 & Hne0 & _)].
        destruct (get_neighbor_position x0 y0 d0) as [px py]. cbn [fst snd] in *.
        apply Hsame. by apply (Hnonempty px py n0). }
    assert (Hback : get_neighbor_position nx' ny' (get_opposite_direction d') = (x, y)).
    { pose proof (get_neighbor_position_back x y d') as Hb. by rewrite Hn in Hb. }
    assert (Hmut_new : mutual (g_game st') (nx', ny') (get_opposite_direction d')).
    { split.
      - exists t', ds'. cbn [fst snd]. split_and!; try done.
        by apply not_source_empty_ne.
      - cbn [fst snd]. rewrite dir_ok_points, Hback, get_opposite_direction_involutive.
        split; [by apply Hval'|]. exists tc, ds. cbn [fst snd].
        rewrite (Hsame x y Hcc). by split_and!. }
    split.
    + unfold grow_inv. rewrite Hco', Hfr'. split_and!.
      * congruence.
      * congruence.
      * congruence.
      * destruct Hcase as [(-> & -> & _)|(-> & -> & _)]; congruence.
      * split; [split; [|split]|].
        -- split; [by rewrite Hw', Hh'|]. intros [x0 y0] Hv0. apply Hval' in Hv0.
           unfold conns. cbn [fst snd].
           destruct (decide ((x0, y0) = (nx', ny'))) as [E|Hne].
           ++ injection E as -> ->. rewrite Hg'. cbn [mbind res_bind]. eauto.
           ++ rewrite (Ho' x0 y0 Hv0 Hne). apply (Hrd (x0, y0) Hv0).
        -- intros c Hc. apply Hval', Hsv. congruence.
        -- intros c Hc. apply Hval'.
           destruct Hcase as [(_ & Hbs & _)|(_ & Hbs & _)]; rewrite Hbs in Hc.
           ++ apply elem_of_app in Hc as [Hc|Hc]; [by apply Hbv|].
              apply list_elem_of_singleton in Hc. by subst c.
           ++ by apply Hbv.
        -- intros x0 y0 t0 Hv0 Ht0. apply Hval' in Hv0.
           destruct (decide ((x0, y0) = (nx', ny'))) as [E|Hne].
           ++ injection E as -> ->. congruence.
           ++ rewrite (Ho' x0 y0 Hv0 Hne) in Ht0. by apply (Hinv x0 y0).
      * intros c Hc. apply Hval'. apply elem_of_union in Hc as [Hc|Hc]; [by apply Hcv|].
        apply elem_of_singleton in Hc. by subst c.
      * intros c Hc. apply elem_of_app in Hc as [Hc|Hc].
        -- apply elem_of_union. left. by apply Hfc.
        -- apply list_elem_of_singleton in Hc. subst c. apply elem_of_union. right.
           by apply elem_of_singleton.
      * intros x0 y0 Hin0. destruct (HP x0 y0 Hin0) as (Hc0 & t0 & Ht0 & Hty0).
        split; [apply elem_of_union; by left|]. exists t0. by rewrite (Hsame x0 y0 Hc0).
      * intros x0 y0 Hv0 Hnin0. apply Hval' in Hv0.
        rewrite Ho'; [apply Hfresh; [done|]|done|].
        -- intros Hc0. apply Hnin0, elem_of_union. by left.
        -- intros E. apply Hnin0, elem_of_union. right. by apply elem_of_singleton.
      * intros x0 y0 Hc0 HninP. apply elem_of_union in Hc0 as [Hc0|Hc0].
        -- destruct (Hcon x0 y0 Hc0 HninP) as (t0 & Ht0 & Hty0 & d0 & Hm0).
           exists t0. rewrite (Hsame x0 y0 Hc0). split_and!; try done.
           exists d0. by apply Hmut_old.
        -- apply elem_of_singleton in Hc0. injection Hc0 as -> ->.
           exists t'. split_and!; try done. by exists (get_opposite_direction d').
      * intros x0 y0 Hb0.
        assert (Hold : (x0, y0) ∈ g_bulb_positions st ->
                  (x0, y0) ∈ g_connected st ∪ {[(nx', ny')]} ∧ ((x0, y0) ∉ P) ∧
                  ∃ t, grid_get (grid (g_game st')) x0 y0 = Ok t ∧ tile_type t = LIGHT_BULB).
        { intros Hb1. destruct (Hbl x0 y0 Hb1) as (Hc0 & HninP & t0 & Ht0 & Hty0).
          split_and!; [apply elem_of_union; by left|done|].
          exists t0. by rewrite (Hsame x0 y0 Hc0). }
        destruct Hcase as [(Hbp & _ & Hlb & _)|(Hbp & _)]; rewrite Hbp in Hb0.
        -- apply elem_of_app in Hb0 as [Hb0|Hb0]; [by apply Hold|].
           apply list_elem_of_singleton in Hb0. injection Hb0 as -> ->.
           split_and!.
           ++ apply elem_of_union. right. by apply elem_of_singleton.
           ++ intros HinP. by destruct (HP nx' ny' HinP).
           ++ by exists t'.
        -- by apply Hold.
      * destruct Hcase as [(-> & _)|(-> & _)]; [|done].
        apply NoDup_app. split_and!; [done| |apply NoDup_singleton].
        intros c Hc Hc'. apply list_elem_of_singleton in Hc'. subst c.
        by destruct (Hbl nx' ny' Hc).
      * destruct Hcase as [(-> & _ & _ & Hlt)|(-> & _)]; [|done].
        rewrite length_app. simpl. lia.
      * assert (Hkeep : ∀ c, reachable (g_game st) c -> reachable (g_game st') c).
        { intros c. apply reachable_mono; [intros c0 Hc0; congruence|].
          intros c0 c0' Hr0 He0.
          apply (edge_keep (g_game st) (g_game st') nx' ny'); try done.
          - by apply Hfresh.
          - by apply reachable_valid. }
        intros c Hc. apply elem_of_union in Hc as [Hc|Hc]; [by apply Hkeep, Hreach|].
        apply elem_of_singleton in Hc. subst c.
        apply (reach_edge _ (x, y) (nx', ny')); [by apply Hkeep, Hreach|].
        exists d', ds, ds'. unfold conns. cbn [fst snd].
        rewrite (Hsame x y Hcc), Htc, Hg'. cbn [mbind res_bind].
        split_and!; try done. by apply is_valid_position_true, Hval'.
    + unfold grow_measure. rewrite Hco', Hfr', length_app. cbn [length].
      pose proof (unvisited_insert w h (g_connected st) (nx', ny')) as Hlt.
      assert (Hcell : (nx', ny') ∈ cells w h).
      { rewrite <- Hw, <- Hh. by apply elem_of_cells_valid. }
      specialize (Hlt Hcell Hnc). unfold pos in *. lia.
Qed.

(** The growth loop ends, with the invariant, as soon as the fuel exceeds
    the measure. *)
Lemma grow_spec w h P nb fuel : ∀ st,
  grow_inv w h P nb st -> (grow_measure w h st < fuel)%nat ->
  ∃ st', grow random_lt_03 choices_pipe fuel nb st = Ok st' ∧ grow_inv w h P nb st' ∧
         (nb ≤ Z.of_nat (length (g_bulb_positions st')) ∨
          g_frontier st' = [] ∨ g_available st' = []).
Proof.
  induction fuel as [|fuel IH]; intros st Hinv Hm; [lia|].
  cbn [grow].
  destruct (bool_decide (Z.of_nat (length (g_bulb_positions st)) < nb)
            && negb (bool_decide (g_frontier st = []))
            && negb (bool_decide (g_available st = []))) eqn:Hcond.
  - apply andb_true_iff in Hcond as [Hcond _]. apply andb_true_iff in Hcond as [_ Hfr].
    apply negb_true_iff, bool_decide_eq_false in Hfr.
    destruct (grow_step_spec w h P nb st Hinv Hfr) as (st1 & -> & Hinv1 & Hlt).
    cbn [mbind res_bind]. apply IH; [done|lia].
  - exists st. split_and!; [done|done|].
    apply andb_false_iff in Hcond as [Hcond|Hav].
    + apply andb_false_iff in Hcond as [Hlen|Hfr].
      * left. apply bool_decide_eq_false in Hlen. lia.
      * right; left. apply negb_false_iff in Hfr. by apply bool_decide_eq_true in Hfr.
    + right; right. apply negb_false_iff in Hav. by apply bool_decide_eq_true in Hav.
Qed.

Lemma grow_inv_grown w h P nb st : grow_inv w h P nb st -> grown (g_game st).
Proof.
  intros (Hw & Hh & Hps & Hbu & Hb & Hcv & Hfc & HP & Hfresh & Hcon & Hbl & _ & _ & Hreach).
  assert (Hin : ∀ x y t, valid (g_game st) (x, y) ->
            grid_get (grid (g_game st)) x y = Ok t -> tile_type t ≠ EMPTY ->
            (x, y) ∈ g_connected st).
  { intros x y t Hv Ht Hty.
    destruct (decide ((x, y) ∈ g_connected st)) as [|Hnin]; [done|].
    rewrite (Hfresh x y Hv Hnin) in Ht. injection Ht as <-. done. }
  split_and!.
  - done.
  - intros x y t Hv Ht Hty.
    assert (Hc : (x, y) ∈ g_connected st)
      by (apply (Hin x y t Hv Ht); by apply not_source_empty_ne).
    assert (HnP : (x, y) ∉ P).
    { intros HinP. destruct (HP x y HinP) as (_ & t0 & Ht0 & Hty0).
      assert (t0 = t) by congruence. subst t0. apply Hty. by apply source_listed. }
    by destruct (Hcon x y Hc HnP) as (_ & _ & _ & Hm).
  - intros x y t Hv Ht Hty. apply Hreach. by apply (Hin x y t).
  - intros x y Hb0. rewrite Hbu in Hb0. by destruct (Hbl x y Hb0) as (_ & _ & Ht).
  - intros x y t Hv Ht. rewrite Hps. split.
    + intros Hty. destruct (decide ((x, y) ∈ P)) as [|HnP]; [done|]. exfalso.
      assert (Hc : (x, y) ∈ g_connected st) by (apply (Hin x y t Hv Ht); by rewrite Hty).
      destruct (Hcon x y Hc HnP) as (t0 & Ht0 & Hty0 & _).
      assert (t0 = t) by congruence. subst t0. apply Hty0. by apply source_listed.
    + intros HinP. destruct (HP x y HinP) as (_ & t0 & Ht0 & Hty0). congruence.
Qed.

(** X18. The growth loop of [generate_puzzle] ends within three rounds
    per cell and never raises, whatever the random draws are, and stops
    only for one of its three reasons. The board it leaves is a grown
    one: the tile invariant holds everywhere, every bulb and pipe points
    at a neighbour that points back, every non-Empty tile is reachable
    from a source along such connections, the listed bulbs hold bulbs and
    the power source tiles are the listed sources. *)
Theorem growth_loop_grown (fuel : nat) (s : PuzzleGame) (difficulty : Z) (r : rng) :
  0 ≤ width s -> 0 ≤ height s ->
  (3 * length (cells (width s) (height s)) < fuel)%nat ->
  ∃ s1 available P num_bulbs r1 st,
    generate_sources s difficulty r = Ok (s1, available, P, num_bulbs, r1) ∧
    grow random_lt_03 choices_pipe fuel num_bulbs
         (mkGrowth s1 available (list_to_set P) P [] r1) = Ok st ∧
    grown (g_game st) ∧
    bulbs (g_game st) = g_bulb_positions st ∧
    (num_bulbs ≤ Z.of_nat (length (g_bulb_positions st)) ∨
     g_frontier st = [] ∨ g_available st = []).
Proof.
  intros Hw Hh Hfuel.
  destruct (generate_sources_board s difficulty r Hw Hh)
    as (s1 & av & P & r1 & Hgs & HndP & HlenP & Hinv0).
  destruct (grow_spec (width s) (height s) P (4 + difficulty * 10) fuel _ Hinv0)
    as (st & Hgrow & Hinv & Hexit).
  { unfold grow_measure. cbn [g_connected g_frontier].
    pose proof (unvisited_le (width s) (height s) (list_to_set P)). unfold pos in *. lia. }
  exists s1, av, P, (4 + difficulty * 10), r1, st. split_and!; try done.
  - by apply (grow_inv_grown _ _ _ _ _ Hinv).
  - by destruct Hinv as (_ & _ & _ & Hbu & _).
Qed.

(** X20. Inside [generate_puzzle] the finalizer never takes the Empty
    branch of [fix_pipe_connections]: run on the board the growth loop
    leaves, [finalize_puzzle] returns, turns every pipe into a bulb or a
    pipe and never into an Empty tile, leaves every other tile alone, and
    the tile invariant holds on the result. *)
Theorem growth_finalize_keeps_pipes
    (fuel : nat) (s : PuzzleGame) (difficulty : Z) (r : rng) :
  0 ≤ width s -> 0 ≤ height s ->
  (3 * length (cells (width s) (height s)) < fuel)%nat ->
  ∃ s1 available P num_bulbs r1 st s2,
    generate_sources s difficulty r = Ok (s1, available, P, num_bulbs, r1) ∧
    grow random_lt_03 choices_pipe fuel num_bulbs
         (mkGrowth s1 available (list_to_set P) P [] r1) = Ok st ∧
    finalize_puzzle (g_game st) = Ok s2 ∧
    board_ok s2 ∧
    ∀ x y, valid (g_game st) (x, y) ->
      ∃ t t2, grid_get (grid (g_game st)) x y = Ok t ∧ grid_get (grid s2) x y = Ok t2 ∧
              (¬ is_pipe t -> t2 = t) ∧
              (is_pipe t -> tile_type t2 ∉ [POWER_SOURCE; EMPTY]).
Proof.
  intros Hw Hh Hfuel.
  destruct (generate_sources_board s difficulty r Hw Hh)
    as (s1 & av & P & r1 & Hgs & HndP & HlenP & Hinv0).
  destruct (grow_spec (width s) (height s) P (4 + difficulty * 10) fuel _ Hinv0)
    as (st & Hgrow & Hinv & _).
  { unfold grow_measure. cbn [g_connected g_frontier].
    pose proof (unvisited_le (width s) (height s) (list_to_set P)). unfold pos in *. lia. }
  pose proof (grow_inv_grown _ _ _ _ _ Hinv) as Hg.
  destruct (finalize_puzzle_anchored (g_game st) (proj1 Hg) (grown_anchored _ Hg))
    as (s2 & Hfin & _ & _ & _ & _ & Hb2 & _ & _ & Hc).
  by exists s1, av, P, (4 + difficulty * 10), r1, st, s2.
Qed.

(** [generate_puzzle] up to the scramble. *)
Lemma generate_solution_board fuel s difficulty r :
  0 ≤ width s -> 0 ≤ height s ->
  (3 * length (cells (width s) (height s)) < fuel)%nat ->
  ∃ s' r',
    generate_solution random_lt_03 choices_pipe fuel s difficulty r = Ok (s', r') ∧
    width s' = width s ∧ height s' = height s ∧ board_ok s' ∧
    NoDup (power_sources s') ∧ NoDup (bulbs s') ∧
    length (power_sources s')
      = (Z.to_nat (1 + difficulty `div` 2) `min` length (cells (width s) (height s)))%nat ∧
    Z.of_nat (length (bulbs s')) ≤ Z.max 0 (4 + difficulty * 10) ∧
    (∀ x y t, valid s' (x, y) -> grid_get (grid s') x y = Ok t ->
       (tile_type t = POWER_SOURCE ↔ (x, y) ∈ power_sources s')) ∧
    (∀ x y, (x, y) ∈ bulbs s' ->
       ∃ t, grid_get (grid s') x y = Ok t ∧ tile_type t = LIGHT_BULB ∧
            is_powered t = true) ∧
    (∀ x y t, valid s' (x, y) -> grid_get (grid s') x y = Ok t ->
       tile_type t = EMPTY ∨ (used_in_solution t = true ∧ is_powered t = true)) ∧
    (∀ x y t ds d, valid s' (x, y) -> grid_get (grid s') x y = Ok t ->
       tile_type t ≠ POWER_SOURCE -> get_connections t = Ok ds -> d ∈ ds ->
       dir_ok s' x y d) ∧
    (is_solved s' = true ↔
       ∀ x y ds d, (x, y) ∈ power_sources s' -> conns s' (x, y) = Ok ds -> d ∈ ds ->
                   dir_ok s' x y d).
Proof.
  intros Hw Hh Hfuel. unfold generate_solution.
  destruct (generate_sources_board s difficulty r Hw Hh)
    as (s1 & av & P & r1 & -> & HndP & HlenP & Hinv0).
  cbn [mbind res_bind].
  destruct (grow_spec (width s) (height s) P (4 + difficulty * 10) fuel _ Hinv0)
    as (st & -> & Hinv & _).
  { unfold grow_measure. cbn [g_connected g_frontier].
    pose proof (unvisited_le (width s) (height s) (list_to_set P)). unfold pos in *. lia. }
  cbn [mbind res_bind].
  pose proof (grow_inv_grown _ _ _ _ _ Hinv) as Hg.
  destruct Hinv as (Hw1 & Hh1 & Hps & Hbu & Hb & Hcv & _ & _ & _ & _ & Hbl & Hnd & Hlen & _).
  destruct (generate_finish_spec fuel (g_game st) Hg)
    as (s' & Hfin & Hw' & Hh' & Hps' & Hbu' & Hb' & Hc' & Hdir & Hsol).
  { rewrite Hw1, Hh1. lia. }
  rewrite Hps in Hfin. rewrite Hfin. cbn [mbind res_bind].
  exists s', (g_rng st). split; [done|].
  assert (Hval : ∀ c, valid s' c ↔ valid (g_game st) c)
    by (intros c; unfold valid; by rewrite Hw', Hh').
  destruct Hg as (_ & _ & _ & Hbulbs & Hsrc).
  split_and!; try congruence.
  - intros x y t' Hv Ht'. apply Hval in Hv.
    destruct (Hc' x y Hv) as (t & t'' & Ht & Ht'' & Hnp & Hpp & _).
    assert (t'' = t') by congruence. subst t''. rewrite Hps'.
    rewrite <- (Hsrc x y t Hv Ht). split.
    + intros Hty.
      assert (Hn : ¬ is_pipe t).
      { intros Hp. apply (Hpp Hp). by apply source_listed. }
      by rewrite <- (Hnp Hn).
    + intros Hty. by rewrite (Hnp (source_not_pipe t Hty)).
  - intros x y Hin. rewrite Hbu' in Hin.
    destruct (Hbulbs x y Hin) as (t & Ht & Hty).
    assert (Hv : valid (g_game st) (x, y)).
    { destruct Hb as [(_ & _ & Hbv) _]. by apply Hbv. }
    destruct (Hc' x y Hv) as (t0 & t' & Ht0 & Ht' & Hnp & _ & Hfl).
    assert (t0 = t) by congruence. subst t0.
    pose proof (Hnp (bulb_not_pipe t Hty)) as Hty'.
    exists t'. split_and!; [done|congruence|].
    destruct Hfl as [E|[_ Hp]]; [congruence|done].
  - intros x y t' Hv Ht'. apply Hval in Hv.
    destruct (Hc' x y Hv) as (t & t'' & Ht & Ht'' & _ & _ & Hfl).
    assert (t'' = t') by congruence. by subst t''.
  - intros x y t' ds d Hv Ht'. apply Hval in Hv. by apply Hdir.
  - rewrite Hsol. by rewrite Hps'.
Qed.

(** [generate_puzzle] as a whole. *)
Lemma generate_puzzle_board fuel s difficulty r :
  0 ≤ width s -> 0 ≤ height s ->
  (3 * length (cells (width s) (height s)) < fuel)%nat ->
  ∃ s' r',
    generate_puzzle random_lt_03 choices_pipe fuel s difficulty r = Ok (s', r') ∧
    width s' = width s ∧ height s' = height s ∧ board_ok s' ∧
    NoDup (power_sources s') ∧ NoDup (bulbs s') ∧
    length (power_sources s')
      = (Z.to_nat (1 + difficulty `div` 2) `min` length (cells (width s) (height s)))%nat ∧
    Z.of_nat (length (bulbs s')) ≤ Z.max 0 (4 + difficulty * 10) ∧
    (∀ x y t, valid s' (x, y) -> grid_get (grid s') x y = Ok t ->
       (tile_type t = POWER_SOURCE ↔ (x, y) ∈ power_sources s')) ∧
    (∀ x y, (x, y) ∈ bulbs s' ->
       ∃ t, grid_get (grid s') x y = Ok t ∧ tile_type t = LIGHT_BULB).
Proof.
  intros Hw Hh Hfuel. unfold generate_puzzle.
  destruct (generate_solution_board fuel s difficulty r Hw Hh Hfuel)
    as (s2 & r2 & -> & Hw2 & Hh2 & Hb2 & Hnds & Hndb & Hcount & Hlen & Hsrc & Hbul & _).
  cbn [mbind res_bind fst snd].
  destruct (scramble_spec fuel s2 r2 Hb2)
    as (s' & r' & -> & Hw' & Hh' & Hps' & Hbu' & Hb' & Hc').
  { rewrite Hw2, Hh2. lia. }
  exists s', r'. split; [done|].
  assert (Hval : ∀ c, valid s' c ↔ valid s2 c)
    by (intros c; unfold valid; by rewrite Hw', Hh').
  split_and!; try congruence.
  - intros x y t' Hv Ht'. apply Hval in Hv.
    destruct (Hc' x y Hv) as (t & t'' & Ht & Ht'' & Hty).
    assert (t'' = t') by congruence. subst t''.
    rewrite Hps', Hty. by apply Hsrc.
  - intros x y Hin. rewrite Hbu' in Hin.
    destruct (Hbul x y Hin) as (t & Ht & Hty & _).
    assert (Hv : valid s2 (x, y)).
    { destruct Hb2 as [(_ & _ & Hbv) _]. by apply Hbv. }
    destruct (Hc' x y Hv) as (t0 & t' & Ht0 & Ht' & Hty').
    exists t'. split; [done|]. congruence.
Qed.

(** X16. The board [generate_puzzle] builds before it scrambles the
    rotations (lines 160-260) is a lit one, whatever the random draws are:
    every listed bulb holds a powered bulb tile, every tile is Empty or
    powered and used in the solution, and no tile other than a power
    source has an open side that is not answered by its neighbour. So this
    board counts as solved exactly when every open side of every source is
    answered as well. *)
Theorem generate_solution_lit (fuel : nat) (s : PuzzleGame) (difficulty : Z) (r : rng) :
  0 ≤ width s -> 0 ≤ height s ->
  (3 * length (cells (width s) (height s)) < fuel)%nat ->
  ∃ s' r',
    generate_solution random_lt_03 choices_pipe fuel s difficulty r = Ok (s', r') ∧
    (∀ x y, (x, y) ∈ bulbs s' ->
       ∃ t, grid_get (grid s') x y = Ok t ∧ tile_type t = LIGHT_BULB ∧
            is_powered t = true) ∧
    (∀ x y t, valid s' (x, y) -> grid_get (grid s') x y = Ok t ->
       tile_type t = EMPTY ∨ (used_in_solution t = true ∧ is_powered t = true)) ∧
    (∀ x y t ds d, valid s' (x, y) -> grid_get (grid s') x y = Ok t ->
       tile_type t ≠ POWER_SOURCE -> get_connections t = Ok ds -> d ∈ ds ->
       dir_ok s' x y d) ∧
    (is_solved s' = true ↔
       ∀ x y ds d, (x, y) ∈ power_sources s' -> conns s' (x, y) = Ok ds -> d ∈ ds ->
                   dir_ok s' x y d).
Proof.
  intros Hw Hh Hfuel.
  destruct (generate_solution_board fuel s difficulty r Hw Hh Hfuel)
    as (s' & r' & Hrun & _ & _ & _ & _ & _ & _ & _ & _ & Hbul & Hfl & Hdir & Hsol).
  by exists s', r'.
Qed.

(** X14. [generate_puzzle] never raises and its loops end, whatever the
    random draws are: on a board of any non-negative size and for any
    integer difficulty it returns a board of the same size that is well
    formed and satisfies the tile invariant everywhere; the listed sources
    are pairwise distinct and are exactly the cells that hold a power
    source tile, the listed bulbs are pairwise distinct, at most
    [4 + difficulty * 10] of them, and each holds a light bulb tile. *)
Theorem generate_puzzle_ok (fuel : nat) (s : PuzzleGame) (difficulty : Z) (r : rng) :
  0 ≤ width s -> 0 ≤ height s ->
  (3 * length (cells (width s) (height s)) < fuel)%nat ->
  ∃ s' r',
    generate_puzzle random_lt_03 choices_pipe fuel s difficulty r = Ok (s', r') ∧
    width s' = width s ∧ height s' = height s ∧ board_ok s' ∧
    NoDup (power_sources s') ∧ NoDup (bulbs s') ∧
    length (power_sources s')
      = (Z.to_nat (1 + difficulty `div` 2) `min` length (cells (width s) (height s)))%nat ∧
    Z.of_nat (length (bulbs s')) ≤ Z.max 0 (4 + difficulty * 10) ∧
    (∀ x y t, valid s' (x, y) -> grid_get (grid s') x y = Ok t ->
       (tile_type t = POWER_SOURCE ↔ (x, y) ∈ power_sources s')) ∧
    (∀ x y, (x, y) ∈ bulbs s' ->
       ∃ t, grid_get (grid s') x y = Ok t ∧ tile_type t = LIGHT_BULB).
Proof. apply generate_puzzle_board. Qed.

(** One event of [main] on a board with the tile invariant. *)
Lemma handle_event_ok fuel game r running event :
  board_ok game -> 0 ≤ width game -> 0 ≤ height game ->
  (3 * length (cells (width game) (height game)) < fuel)%nat ->
  ∃ game' r' running',
    handle_event random_lt_03 choices_pipe fuel (game, r, running) event
      = Ok (game', r', running') ∧
    board_ok game' ∧ width game' = width game ∧ height game' = height game.
Proof.
  intros Hb Hw Hh Hfuel.
  assert (Hgen : ∀ d, ∃ game' r' running',
    (gr ← generate_puzzle random_lt_03 choices_pipe fuel game d r;
     Ok (fst gr, snd gr, running)) = Ok (game', r', running') ∧
    board_ok game' ∧ width game' = width game ∧ height game' = height game).
  { intros d. destruct (generate_puzzle_board fuel game d r Hw Hh Hfuel)
      as (s' & r' & -> & Hw' & Hh' & Hb' & _).
    exists s', r', running. by split_and!. }
  destruct event as [|button p|key|]; cbn [handle_event].
  - exists game, r, false. by split_and!.
  - case_bool_decide; [|exists game, r, running; by split_and!].
    destruct (handle_click_board_ok fuel game p Hb) as (s' & -> & Hb' & Hw' & Hh' & _);
      [lia|].
    exists s', r, running. by split_and!.
  - destruct key; first [apply Hgen | exists game, r, running; by split_and!].
  - exists game, r, running. by split_and!.
Qed.

Lemma handle_events_ok fuel events : ∀ game r running,
  board_ok game -> 0 ≤ width game -> 0 ≤ height game ->
  (3 * length (cells (width game) (height game)) < fuel)%nat ->
  ∃ game' r' running',
    foldM (handle_event random_lt_03 choices_pipe fuel) (game, r, running) events
      = Ok (game', r', running') ∧
    board_ok game' ∧ width game' = width game ∧ height game' = height game.
Proof.
  induction events as [|e events IH]; intros game r running Hb Hw Hh Hfuel.
  - exists game, r, running. by split_and!.
  - destruct (handle_event_ok fuel game r running e Hb Hw Hh Hfuel)
      as (g1 & r1 & run1 & He & Hb1 & Hw1 & Hh1).
    destruct (IH g1 r1 run1 Hb1) as (g2 & r2 & run2 & Hrun & Hb2 & Hw2 & Hh2);
      [by rewrite Hw1|by rewrite Hh1|by rewrite Hw1, Hh1|].
    exists g2, r2, run2. cbn [foldM]. rewrite He. cbn [mbind res_bind].
    split_and!; [done|done|congruence|congruence].
Qed.

Lemma main_loop_ok fuel frames : ∀ game r running,
  board_ok game -> 0 ≤ width game -> 0 ≤ height game ->
  (3 * length (cells (width game) (height game)) < fuel)%nat ->
  ∃ game' r' running',
    main_loop random_lt_03 choices_pipe fuel (game, r, running) frames
      = Ok (game', r', running') ∧
    board_ok game' ∧ width game' = width game ∧ height game' = height game.
Proof.
  induction frames as [|events frames IH]; intros game r running Hb Hw Hh Hfuel.
  - exists game, r, running. cbn [main_loop snd]. destruct running; by split_and!.
  - cbn [main_loop snd]. destruct running; [|exists game, r, false; by split_and!].
    destruct (handle_events_ok fuel events game r true Hb Hw Hh Hfuel)
      as (g1 & r1 & run1 & -> & Hb1 & Hw1 & Hh1).
    cbn [mbind res_bind].
    destruct (IH g1 r1 run1 Hb1) as (g2 & r2 & run2 & Hrun & Hb2 & Hw2 & Hh2);
      [by rewrite Hw1|by rewrite Hh1|by rewrite Hw1, Hh1|].
    exists g2, r2, run2. split_and!; [done|done|congruence|congruence].
Qed.

(** X15. The game logic of [main] never raises: for every random
    source and every sequence of event batches (clicks with any button
    and position, the four regeneration keys, quit, anything else) the
    run returns, and the board it ends with is a well-formed 16 x 16 board
    that satisfies the tile invariant everywhere. *)
Theorem main_ok (fuel : nat) (r : rng) (frames : list (list Event)) :
  (768 < fuel)%nat ->
  ∃ game r' running,
    main random_lt_03 choices_pipe fuel r frames = Ok (game, r', running) ∧
    board_ok game ∧ width game = 16 ∧ height game = 16.
Proof.
  intros Hfuel. unfold main. cbn [GRID_SIZE fst snd].
  assert (Hcells : length (cells 16 16) = 256%nat) by (by rewrite length_cells).
  destruct (generate_puzzle_board fuel (PuzzleGame_init 16 16) 1 r)
    as (s' & r' & -> & Hw' & Hh' & Hb' & _).
  { simpl. lia. }
  { simpl. lia. }
  { cbn [width height PuzzleGame_init]. rewrite Hcells. lia. }
  cbn [mbind res_bind fst snd]. cbn [width height PuzzleGame_init] in Hw', Hh'.
  destruct (main_loop_ok fuel frames s' r' true Hb') as (g & r2 & run & Hrun & Hb & Hw & Hh).
  - rewrite Hw'. lia.
  - rewrite Hh'. lia.
  - rewrite Hw', Hh', Hcells. lia.
  - exists g, r2, run. split_and!; [done|done|congruence|congruence].
Qed.

End generator_props.

Lemma generate_puzzle_ok_witness :
  ∃ s' r',
    generate_puzzle demo_coin demo_pick 40 (PuzzleGame_init 3 2) 1 demo_rng = Ok (s', r') ∧
    width s' = width (PuzzleGame_init 3 2) ∧ height s' = height (PuzzleGame_init 3 2) ∧
    board_ok s' ∧
    NoDup (power_sources s') ∧ NoDup (bulbs s') ∧
    length (power_sources s')
      = (Z.to_nat (1 + 1 `div` 2) `min` length (cells 3 2))%nat ∧
    Z.of_nat (length (bulbs s')) ≤ Z.max 0 (4 + 1 * 10) ∧
    (∀ x y t, valid s' (x, y) -> grid_get (grid s') x y = Ok t ->
       (tile_type t = POWER_SOURCE ↔ (x, y) ∈ power_sources s')) ∧
    (∀ x y, (x, y) ∈ bulbs s' ->
       ∃ t, grid_get (grid s') x y = Ok t ∧ tile_type t = LIGHT_BULB).
Proof.
  apply (generate_puzzle_ok demo_coin demo_pick); [|simpl; lia|simpl; lia|cbv; lia].
  intros r0. unfold demo_pick, next_raw, pipe_types. cbn [fst].
  repeat case_bool_decide; set_solver.
Defined.

Lemma main_ok_witness :
  ∃ game r' running,
    main demo_coin demo_pick 769 demo_rng
         [[MOUSEBUTTONDOWN 1 (70, 10); KEYDOWN K_1]; [QUIT; KEYDOWN K_r]; [OTHER]]
      = Ok (game, r', running) ∧
    board_ok game ∧ width game = 16 ∧ height game = 16.
Proof.
  apply (main_ok demo_coin demo_pick); [|lia].
  intros r0. unfold demo_pick, next_raw, pipe_types. cbn [fst].
  repeat case_bool_decide; set_solver.
Defined.

Lemma generate_solution_lit_witness :
  ∃ s' r',
    generate_solution demo_coin demo_pick 40 (PuzzleGame_init 3 2) 1 demo_rng
      = Ok (s', r') ∧
    (∀ x y, (x, y) ∈ bulbs s' ->
       ∃ t, grid_get (grid s') x y = Ok t ∧ tile_type t = LIGHT_BULB ∧
            is_powered t = true) ∧
    (∀ x y t, valid s' (x, y) -> grid_get (grid s') x y = Ok t ->
       tile_type t = EMPTY ∨ (used_in_solution t = true ∧ is_powered t = true)) ∧
    (∀ x y t ds d, valid s' (x, y) -> grid_get (grid s') x y = Ok t ->
       tile_type t ≠ POWER_SOURCE -> get_connections t = Ok ds -> d ∈ ds ->
       dir_ok s' x y d) ∧
    (is_solved s' = true ↔
       ∀ x y ds d, (x, y) ∈ power_sources s' -> conns s' (x, y) = Ok ds -> d ∈ ds ->
                   dir_ok s' x y d).
Proof.
  apply (generate_solution_lit demo_coin demo_pick); [|simpl; lia|simpl; lia|cbv; lia].
  intros r0. unfold demo_pick, next_raw, pipe_types. cbn [fst].
  repeat case_bool_decide; set_solver.
Defined.

Lemma growth_finalize_keeps_pipes_witness :
  ∃ s1 available P num_bulbs r1 st s2,
    generate_sources (PuzzleGame_init 3 2) 1 demo_rng
      = Ok (s1, available, P, num_bulbs, r1) ∧
    grow demo_coin demo_pick 40 num_bulbs
         (mkGrowth s1 available (list_to_set P) P [] r1) = Ok st ∧
    finalize_puzzle (g_game st) = Ok s2 ∧
    board_ok s2 ∧
    ∀ x y, valid (g_game st) (x, y) ->
      ∃ t t2, grid_get (grid (g_game st)) x y = Ok t ∧ grid_get (grid s2) x y = Ok t2 ∧
              (¬ is_pipe t -> t2 = t) ∧
              (is_pipe t -> tile_type t2 ∉ [POWER_SOURCE; EMPTY]).
Proof.
  apply (growth_finalize_keeps_pipes demo_coin demo_pick);
    [|simpl; lia|simpl; lia|cbv; lia].
  intros r0. unfold demo_pick, next_raw, pipe_types. cbn [fst].
  repeat case_bool_decide; set_solver.
Defined.

Lemma growth_loop_grown_witness :
  ∃ s1 available P num_bulbs r1 st,
    generate_sources (PuzzleGame_init 3 2) 1 demo_rng
      = Ok (s1, available, P, num_bulbs, r1) ∧
    grow demo_coin demo_pick 40 num_bulbs
         (mkGrowth s1 available (list_to_set P) P [] r1) = Ok st ∧
    grown (g_game st) ∧
    bulbs (g_game st) = g_bulb_positions st ∧
    (num_bulbs ≤ Z.of_nat (length (g_bulb_positions st)) ∨
     g_frontier st = [] ∨ g_available st = []).
Proof.
  apply (growth_loop_grown demo_coin demo_pick); [|simpl; lia|simpl; lia|cbv; lia].
  intros r0. unfold demo_pick, next_raw, pipe_types. cbn [fst].
  repeat case_bool_decide; set_solver.
Defined.

(** ** A full turn of a tile *)

Lemma sources_poweredb_tile g x y t :
  sources_poweredb g = true -> 0 ≤ x -> 0 ≤ y -> grid_get g x y = Ok t ->
  tile_type t = POWER_SOURCE -> is_powered t = true.
Proof.
  unfold sources_poweredb. rewrite forallb_forall. intros Hrows Hx Hy Hg Hty.
  apply grid_get_inv in Hg as (row & Hr & Ht); [|done..].
  apply list_elem_of_lookup_2, list_elem_of_In, Hrows in Hr.
  rewrite forallb_forall in Hr.
  apply list_elem_of_lookup_2, list_elem_of_In, Hr in Ht.
  unfold source_poweredb in Ht. rewrite bool_decide_eq_true_2 in Ht by done. done.
Qed.

Lemma reset_tile_conns_eq t1 t2 :
  reset_tile t2 = reset_tile t1 -> get_connections t2 = get_connections t1.
Proof.
  intros H. rewrite <- (get_connections_reset t2), H. apply get_connections_reset.
Qed.

Lemma reset_tile_shape_eq t1 t2 :
  reset_tile t2 = reset_tile t1 ->
  tile_type t2 = tile_type t1 ∧ max_rotation t2 = max_rotation t1 ∧
  rotation t2 = rotation t1.
Proof.
  intros H.
  pose proof (f_equal tile_type H) as H1. pose proof (f_equal max_rotation H) as H2.
  pose proof (f_equal rotation H) as H3.
  unfold reset_tile in H1, H2, H3. repeat case_bool_decide; simpl in *; done.
Qed.

Lemma reset_tile_set_rotation v t :
  reset_tile (set_rotation v t) = set_rotation v (reset_tile t).
Proof. unfold reset_tile. simpl. by case_bool_decide. Qed.

(** A solver pass changes nothing that the next reset would keep, as
    long as the power sources are powered. *)
Lemma reset_tile_flow t (b : bool) :
  (tile_type t = POWER_SOURCE -> is_powered t = true) ->
  reset_tile (if b then mark_tile (reset_tile t) else reset_tile t) = reset_tile t.
Proof.
  intros Hp. destruct t as [tt m r pw us pat]. simpl in Hp.
  destruct tt, b; try reflexivity.
  all: by rewrite (Hp eq_refl).
Qed.

Lemma flow_tile_powered t (b : bool) :
  (tile_type t = POWER_SOURCE -> is_powered t = true) ->
  tile_type (if b then mark_tile (reset_tile t) else reset_tile t) = POWER_SOURCE ->
  is_powered (if b then mark_tile (reset_tile t) else reset_tile t) = true.
Proof.
  intros Hp. destruct t as [tt m r pw us pat]. simpl in Hp.
  destruct tt, b; simpl; intros Hty; try done. by apply Hp.
Qed.

Lemma reachable_conns_ext s1 s2 c :
  game_ok s1 -> width s2 = width s1 -> height s2 = height s1 ->
  power_sources s2 = power_sources s1 ->
  (∀ c, valid s1 c -> conns s2 c = conns s1 c) ->
  reachable s1 c -> reachable s2 c.
Proof.
  intros Hok Hw Hh Hps Hc. apply reachable_mono; [intros c0; by rewrite Hps|].
  intros c0 c0' Hr (d & ds & ds' & H1 & H2 & H3 & H4 & H5 & H6).
  pose proof (reachable_valid s1 c0 Hok Hr) as Hv.
  assert (Hv' : valid s1 c0').
  { apply is_valid_position_true in H4. by destruct c0'. }
  exists d, ds, ds'. rewrite (Hc c0 Hv), (Hc c0' Hv').
  split_and!; try done. unfold is_valid_position in *. by rewrite Hw, Hh.
Qed.

(** The solver looks at the dimensions, the lists and the reset tiles
    only. *)
Lemma update_power_flow_ext fuel s1 s2 :
  game_ok s1 -> game_ok s2 ->
  width s2 = width s1 -> height s2 = height s1 ->
  power_sources s2 = power_sources s1 -> bulbs s2 = bulbs s1 ->
  (∀ x y, valid s1 (x, y) ->
     ∃ t1 t2, grid_get (grid s1) x y = Ok t1 ∧ grid_get (grid s2) x y = Ok t2 ∧
              reset_tile t2 = reset_tile t1) ->
  (length (cells (width s1) (height s1)) < fuel)%nat ->
  ∃ s', update_power_flow fuel s1 = Ok (s', is_solved s') ∧
        update_power_flow fuel s2 = Ok (s', is_solved s').
Proof.
  intros Hok1 Hok2 Hw Hh Hps Hbu Hcells Hfuel.
  destruct (update_power_flow_spec fuel s1 Hok1 Hfuel) as (r1 & D1 & Hu1 & Hst1 & HD1 & Hs1).
  destruct (update_power_flow_spec fuel s2 Hok2) as (r2 & D2 & Hu2 & Hst2 & HD2 & Hs2).
  { by rewrite Hw, Hh. }
  pose proof Hst1 as (Hw1 & Hh1 & Hps1 & Hb1 & Hd1 & Hg1).
  pose proof Hst2 as (Hw2 & Hh2 & Hps2 & Hb2 & Hd2 & Hg2).
  assert (Hval : ∀ c, valid s2 c ↔ valid s1 c)
    by (intros c; unfold valid; by rewrite Hw, Hh).
  assert (Hconns : ∀ c, valid s1 c -> conns s2 c = conns s1 c).
  { intros [x y] Hv. destruct (Hcells x y Hv) as (t1 & t2 & Ht1 & Ht2 & Hr).
    unfold conns. cbn [fst snd]. rewrite Ht1, Ht2. cbn [mbind res_bind].
    by apply reset_tile_conns_eq. }
  assert (HD : ∀ c, c ∈ D2 ↔ c ∈ D1).
  { intros c. rewrite HD1, HD2. split.
    - apply reachable_conns_ext; try done.
      intros c0 Hv0. symmetry. apply Hconns. by apply Hval.
    - by apply reachable_conns_ext. }
  assert (Hgrid : grid r2 = grid r1).
  { apply (grid_ext (width s1) (height s1)); [by rewrite <- Hw, <- Hh|done|].
    intros x y Hx Hy.
    assert (Hv : valid s1 (x, y)) by done.
    destruct (Hcells x y Hv) as (t1 & t2 & Ht1 & Ht2 & Hr).
    destruct (Hg1 x y Hv) as (t1' & Ht1' & ->).
    destruct (Hg2 x y (proj2 (Hval _) Hv)) as (t2' & Ht2' & ->).
    assert (t1' = t1) by congruence. assert (t2' = t2) by congruence. subst t1' t2'.
    f_equal. rewrite Hr.
    destruct (decide ((x, y) ∈ D1)) as [Hin|Hnin].
    - rewrite !bool_decide_eq_true_2; [done|done|by apply HD].
    - rewrite !bool_decide_eq_false_2; [done|done|]. intros Hin. by apply Hnin, HD. }
  exists r1. split; [done|]. rewrite Hu2.
  assert (Ew : width r2 = width r1) by congruence.
  assert (Eh : height r2 = height r1) by congruence.
  assert (Eps : power_sources r2 = power_sources r1) by congruence.
  assert (Ebu : bulbs r2 = bulbs r1) by congruence.
  assert (His : is_solved r2 = is_solved r1).
  { clear - Hs1 Hs2 Ew Eh Eps Ebu Hgrid.
    destruct r1 as [w1 h1 g1 ps1 b1 i1], r2 as [w2 h2 g2 ps2 b2 i2].
    simpl in *. subst.
    destruct i1, i2; try done.
    - apply (proj2 Hs2). exact (proj1 Hs1 eq_refl).
    - symmetry. apply (proj2 Hs1). exact (proj1 Hs2 eq_refl). }
  clear - Ew Eh Eps Ebu Hgrid His.
  destruct r1 as [w1 h1 g1 ps1 b1 i1], r2 as [w2 h2 g2 ps2 b2 i2].
  simpl in *. by subst.
Qed.

(** A click on a tile that can turn: the tile is turned once and the
    solver runs on the result. *)
Lemma handle_click_rotated fuel s p t :
  board_ok s ->
  valid s (fst p `div` TILE_SIZE, snd p `div` TILE_SIZE) ->
  grid_get (grid s) (fst p `div` TILE_SIZE) (snd p `div` TILE_SIZE) = Ok t ->
  max_rotation t > 1 ->
  ∃ g1,
    grid_dims (width s) (height s) g1 ∧
    grid_get g1 (fst p `div` TILE_SIZE) (snd p `div` TILE_SIZE)
      = Ok (set_rotation ((rotation t + 1) mod max_rotation t) t) ∧
    (∀ x' y', valid s (x', y') ->
       (x', y') ≠ (fst p `div` TILE_SIZE, snd p `div` TILE_SIZE) ->
       grid_get g1 x' y' = grid_get (grid s) x' y') ∧
    board_ok (set_grid g1 s) ∧
    handle_click fuel s p
      = (sb ← update_power_flow fuel (set_grid g1 s); Ok (fst sb, None)).
Proof.
  intros [Hok Hinv] Hval Ht Hm. unfold handle_click.
  set (x := p.1 `div` TILE_SIZE) in *. set (y := p.2 `div` TILE_SIZE) in *.
  rewrite (proj2 (is_valid_position_true s x y) Hval). cbn [negb].
  pose proof Hval as [Hx Hy]. cbn [fst snd] in Hx, Hy.
  rewrite Ht. cbn [mbind res_bind].
  pose proof (Hinv x y t Hval Ht) as Hti.
  pose proof (rotate_tile_inv t Hti) as Hti'.
  destruct (s0_tile s Hok x y Hval) as (t' & ds & Ht' & Hds).
  assert (t' = t) by congruence. subst t'.
  destruct (rotate_readable t ds Hti Hds) as [ds' Hds'].
  unfold rotate in *. rewrite bool_decide_eq_true_2 in * by done. cbn [fst] in *.
  pose proof Hok as ([Hd _] & _).
  destruct (grid_modify_dims
              (fun _ => set_rotation ((rotation t + 1) mod max_rotation t) t)
              _ _ (grid s) x y Hd Hx Hy)
    as (t0 & g1 & _ & Hm1 & Hd1 & Hg1 & Ho1).
  unfold grid_set. rewrite Hm1. cbn [mbind res_bind].
  exists g1. split_and!; try done.
  - intros x' y' [Hx' Hy'] Hne. cbn [fst snd] in *. by apply Ho1.
  - split.
    + apply (game_ok_set_tile s x y
               (set_rotation ((rotation t + 1) mod max_rotation t) t) g1 ds');
        [done|done|done|unfold grid_set; by rewrite Hm1].
    + intros x' y' t1 Hv1 Ht1. cbn [grid set_grid] in Ht1.
      destruct (decide ((x', y') = (x, y))) as [E|Hne].
      * injection E as -> ->. congruence.
      * destruct Hv1 as [Hx' Hy']. cbn [fst snd width height set_grid] in *.
        rewrite Ho1 in Ht1 by done. by apply (Hinv x' y').
Qed.

(** A click on a tile that cannot turn changes nothing. *)
Lemma handle_click_fixed fuel s p t :
  valid s (fst p `div` TILE_SIZE, snd p `div` TILE_SIZE) ->
  grid_get (grid s) (fst p `div` TILE_SIZE) (snd p `div` TILE_SIZE) = Ok t ->
  ¬ max_rotation t > 1 ->
  handle_click fuel s p = Ok (s, None).
Proof.
  intros Hval Ht Hm. unfold handle_click.
  set (x := p.1 `div` TILE_SIZE) in *. set (y := p.2 `div` TILE_SIZE) in *.
  rewrite (proj2 (is_valid_position_true s x y) Hval). cbn [negb].
  pose proof Hval as [Hx Hy]. cbn [fst snd] in Hx, Hy.
  rewrite Ht. cbn [mbind res_bind].
  unfold rotate. rewrite bool_decide_eq_false_2 by done.
  rewrite (grid_set_same (grid s) x y t) by (first [lia|done]).
  cbn [mbind res_bind]. by rewrite set_grid_same.
Qed.

Section full_turn.

Variable fuel : nat.
Variable s : PuzzleGame.
Variable p : pos.
Variable t0 : Tile.
Hypothesis Hfuel : (length (cells (width s) (height s)) < fuel)%nat.
Hypothesis Hvc : valid s (clicked_cell p).
Hypothesis Ht0 : grid_get (grid s) (fst (clicked_cell p)) (snd (clicked_cell p)) = Ok t0.
Hypothesis Hinv0 : tile_inv t0.
Hypothesis Hm : max_rotation t0 > 1.

(** The tile at the clicked cell after [k] turns, up to the flags. *)
Lemma turned_tile k sk :
  turned s (clicked_cell p) k sk ->
  ∃ tk, grid_get (grid sk) (fst (clicked_cell p)) (snd (clicked_cell p)) = Ok tk ∧
        (tile_type tk = POWER_SOURCE -> is_powered tk = true) ∧
        reset_tile tk = reset_tile (set_rotation ((rotation t0 + k) mod max_rotation t0) t0) ∧
        max_rotation tk = max_rotation t0 ∧
        rotation tk = (rotation t0 + k) mod max_rotation t0.
Proof using Hvc Ht0.
  intros (_ & _ & _ & _ & _ & Hcells).
  destruct (Hcells (fst (clicked_cell p)) (snd (clicked_cell p))) as (t & tk & Ht & Htk & Hp & Hr); [done|].
  rewrite bool_decide_eq_true_2 in Hr by done.
  assert (t = t0) by (cbn [fst snd] in *; congruence). subst t.
  exists tk. split_and!; try done.
  - by destruct (reset_tile_shape_eq _ _ Hr) as (_ & ? & _).
  - by destruct (reset_tile_shape_eq _ _ Hr) as (_ & _ & ?).
Qed.

(** What one more click does to the board before the solver runs. *)
Lemma turned_click k sk :
  turned s (clicked_cell p) k sk ->
  ∃ g1,
    handle_click fuel sk p
      = (sb ← update_power_flow fuel (set_grid g1 sk); Ok (fst sb, None)) ∧
    board_ok (set_grid g1 sk) ∧
    ∀ x y, valid s (x, y) ->
      ∃ t tb, grid_get (grid s) x y = Ok t ∧ grid_get g1 x y = Ok tb ∧
        (tile_type tb = POWER_SOURCE -> is_powered tb = true) ∧
        reset_tile tb =
          reset_tile (if bool_decide ((x, y) = (clicked_cell p))
                      then set_rotation ((rotation t + (k + 1)) mod max_rotation t) t
                      else t).
Proof using Hvc Ht0 Hm.
  intros Hk. destruct (turned_tile k sk Hk) as (tk & Htk & Hpk & Hrk & Hmk & Hrot).
  destruct Hk as (Hw & Hh & Hps & Hbu & Hb & Hcells).
  assert (Hval : ∀ c0, valid sk c0 ↔ valid s c0)
    by (intros c0; unfold valid; by rewrite Hw, Hh).
  destruct (handle_click_rotated fuel sk p tk Hb) as (g1 & Hd1 & Hg1 & Ho1 & Hb1 & Hclick).
  { by apply Hval. }
  { exact Htk. }
  { by rewrite Hmk. }
  exists g1. split_and!; try done.
  intros x y Hv. destruct (Hcells x y Hv) as (t & t' & Ht & Ht' & Hp & Hr).
  destruct (decide ((x, y) = (clicked_cell p))) as [E|Hne].
  - assert (Ex : x = fst (clicked_cell p) ∧ y = snd (clicked_cell p)) by (by rewrite <- E).
    destruct Ex as [-> ->].
    assert (t = t0) by congruence. subst t.
    assert (t' = tk) by congruence. subst t'.
    exists t0, (set_rotation ((rotation tk + 1) mod max_rotation tk) tk).
    rewrite bool_decide_eq_true_2 by done.
    split_and!; try done.
    rewrite reset_tile_set_rotation, Hrk, <- reset_tile_set_rotation. f_equal.
    rewrite Hmk, Hrot. unfold set_rotation. cbn. f_equal.
    rewrite Z.add_assoc. by rewrite Zplus_mod_idemp_l.
  - exists t, t'. rewrite bool_decide_eq_false_2 in * by done.
    split_and!; try done. rewrite Ho1; [done|by apply Hval|done].
Qed.

(** One more click turns the tile once more. *)
Lemma turned_step k sk :
  turned s (clicked_cell p) k sk ->
  ∃ s', handle_click fuel sk p = Ok (s', None) ∧ turned s (clicked_cell p) (k + 1) s'.
Proof using Hfuel Hvc Ht0 Hm.
  intros Hk. destruct (turned_click k sk Hk) as (g1 & Hclick & Hb1 & Hcells1).
  destruct Hk as (Hw & Hh & Hps & Hbu & Hb & _).
  destruct (update_power_flow_board fuel (set_grid g1 sk) Hb1)
    as (s' & D & Hu & Hst & HD & Hw' & Hh' & Hps' & Hbu' & Hb' & _).
  { cbn [width height set_grid]. by rewrite Hw, Hh. }
  exists s'. rewrite Hclick, Hu. cbn [mbind res_bind fst]. split; [done|].
  cbn [width height power_sources bulbs set_grid] in *.
  split_and!; try congruence. intros x y Hv.
  destruct (Hcells1 x y Hv) as (t & tb & Ht & Htb & Hp & Hr).
  destruct Hst as (_ & _ & _ & _ & _ & Hg).
  destruct (Hg x y) as (tb' & Htb' & Ht').
  { unfold valid in *. cbn [width height set_grid fst snd] in *. by rewrite Hw, Hh. }
  cbn [grid set_grid] in Htb'. assert (tb' = tb) by congruence. subst tb'.
  eexists t, _. split_and!; [done|exact Ht'| |].
  - by apply flow_tile_powered.
  - by rewrite reset_tile_flow.
Qed.

(** The click that completes the turn gives back the board the turn
    started from, if that board is one the solver leaves alone. *)
Lemma turned_close k sk :
  update_power_flow fuel s = Ok (s, is_solved s) ->
  board_ok s ->
  turned s (clicked_cell p) k sk ->
  (rotation t0 + (k + 1)) mod max_rotation t0 = rotation t0 ->
  handle_click fuel sk p = Ok (s, None).
Proof using Hfuel Hvc Ht0 Hm.
  intros Hfix Hbs Hk Hfull.
  destruct (turned_click k sk Hk) as (g1 & Hclick & Hb1 & Hcells1).
  destruct Hk as (Hw & Hh & Hps & Hbu & Hb & _).
  destruct (update_power_flow_ext fuel s (set_grid g1 sk) (proj1 Hbs) (proj1 Hb1))
    as (s' & Hu & Hu'); try done.
  - intros x y Hv. destruct (Hcells1 x y Hv) as (t & tb & Ht & Htb & _ & Hr).
    exists t, tb. split_and!; try done. rewrite Hr. case_bool_decide as E; [|done].
    assert (Ex : x = fst (clicked_cell p) ∧ y = snd (clicked_cell p)) by (by rewrite <- E).
    destruct Ex as [-> ->].
    assert (t = t0) by congruence. subst t.
    rewrite Hfull. by rewrite set_rotation_same.
  - rewrite Hclick, Hu'. cbn [mbind res_bind fst].
    assert (s' = s) by congruence. by subst s'.
Qed.

Lemma turn_rest (n : nat) : ∀ k sk,
  update_power_flow fuel s = Ok (s, is_solved s) ->
  board_ok s ->
  turned s (clicked_cell p) k sk -> 0 ≤ k -> k + Z.of_nat n + 1 = max_rotation t0 ->
  click_all fuel sk (replicate (S n) p) = Ok s.
Proof using Hfuel Hvc Ht0 Hinv0 Hm.
  induction n as [|n IH]; intros k sk Hfix Hbs Hk Hk0 Hsum.
  - unfold click_all. cbn [replicate foldM].
    rewrite (turned_close k sk Hfix Hbs Hk); [done|].
    destruct Hinv0 as [Hmr Hr].
    replace (rotation t0 + (k + 1)) with (rotation t0 + 1 * max_rotation t0) by lia.
    rewrite Z_mod_plus_full. apply Z.mod_small. lia.
  - destruct (turned_step k sk Hk) as (s' & Hclick & Hk').
    unfold click_all in *. cbn [replicate foldM] in *. rewrite Hclick.
    cbn [mbind res_bind fst]. apply (IH (k + 1) s'); try done; lia.
Qed.

End full_turn.

(** X19. A full turn is the identity. On a well-formed board with the
    tile invariant whose power source tiles are powered, and which the
    solver leaves as it is, clicking the same tile as many times as it has
    rotations gives back exactly the board the clicks started from, flags
    and [is_solved] included. *)
Theorem click_full_turn (fuel : nat) (s : PuzzleGame) (p : pos) (t : Tile) :
  game_okb s = true ->
  grid_invb (grid s) = true ->
  sources_poweredb (grid s) = true ->
  update_power_flow fuel s = Ok (s, is_solved s) ->
  (length (cells (width s) (height s)) < fuel)%nat ->
  valid s (fst p `div` TILE_SIZE, snd p `div` TILE_SIZE) ->
  grid_get (grid s) (fst p `div` TILE_SIZE) (snd p `div` TILE_SIZE) = Ok t ->
  click_all fuel s (replicate (Z.to_nat (max_rotation t)) p) = Ok s.
Proof.
  intros Hokb Hinvb Hpow Hfix Hfuel Hv Ht.
  pose proof (board_okb s Hokb Hinvb) as Hb. pose proof Hb as [Hok Hinv].
  pose proof (Hinv _ _ t Hv Ht) as Hti. pose proof Hti as [Hmr Hr].
  destruct (decide (max_rotation t > 1)) as [Hm|Hm].
  - replace (Z.to_nat (max_rotation t)) with (S (Z.to_nat (max_rotation t - 1))) by lia.
    apply (turn_rest fuel s p t Hfuel Hv Ht Hti Hm _ 0 s Hfix Hb); [|lia|lia].
    split_and!; try done. intros x y Hvxy.
    destruct (s0_tile s Hok x y Hvxy) as (t' & ds & Ht' & _).
    exists t', t'. split_and!; try done.
    + destruct Hvxy as [Hx Hy]. cbn [fst snd] in Hx, Hy.
      apply (sources_poweredb_tile (grid s) x y t'); first [done|lia].
    + case_bool_decide as E; [|done]. f_equal.
      pose proof (Hinv x y t' Hvxy Ht') as [Hmr' Hr'].
      rewrite Z.add_0_r, Z.mod_small by lia. by rewrite set_rotation_same.
  - assert (Hone : max_rotation t = 1).
    { rewrite Hmr in *. destruct (ROTATIONS_pos (tile_type t)); lia. }
    rewrite Hone. change (Z.to_nat 1) with 1%nat. unfold click_all. cbn [replicate foldM].
    by rewrite (handle_click_fixed fuel s p t Hv Ht Hm).
Qed.

Lemma click_full_turn_witness :
  click_all 4 demo_solved
            (replicate (Z.to_nat (max_rotation (mark_tile (Tile_make STRAIGHT 1 None))))
                       (70, 10))
  = Ok demo_solved.
Proof.
  apply (click_full_turn 4 demo_solved (70, 10));
    [reflexivity|reflexivity|reflexivity|reflexivity|cbv; lia|by vm_compute|reflexivity].
Defined.
